(** * Portfolio-Tracker: the chart engine of [components/Summary.tsx]

    A shallow embedding of the time-series reconstruction and stacked-value
    chart computed inside the [Summary] component, and of its hover handler.

    Numbers.  JavaScript numbers are modelled as exact rationals ([Qc]):
    every statement below is a statement in exact arithmetic, about finite
    numbers.  [NaN], infinities and rounding are outside the model.

    Errors.  Reading a property of an array element that does not exist
    ([a[i].time] with [a[i]] undefined) throws a [TypeError] in JavaScript.
    Such reads are written with list lookup [!!] in the [option] monad:
    [None] is the thrown exception.

    Dates.  The code turns date strings into epoch milliseconds with
    [new Date(s).getTime()] and reads the clock with [Date.now()].  The
    former is the section variable [getTime], the latter the argument [now].
    A string that is not a date has the time value [NaN]: the time window is
    given a second time with it ([timeWindowNaN], over
    [getTimeNaN : string → option Qc]), and agrees with [timeWindow] on the
    strings that are dates. *)

From Stdlib Require Import QArith Qcanon Qround Lqa.
From stdpp Require Import base option numbers list strings gmap sorting.

#[local] Open Scope Qc_scope.

(** ** Numbers *)

#[local] Instance Qc_inhabited : Inhabited Qc := populate 0.

(** Numeric literals of the source. *)
Definition number (z : Z) : Qc := Qc_of_Z z.

(** [Math.max], [Math.min] and [Math.floor] on finite numbers. *)
Definition Math_max (a b : Qc) : Qc := if decide (a ≤ b) then b else a.
Definition Math_min (a b : Qc) : Qc := if decide (a ≤ b) then a else b.
Definition Math_floor (a : Qc) : Z := Qfloor a.

(** ** Data model ([types.ts]) *)

Inductive TxType := BUY | SELL.

Record Transaction := mkTransaction {
  tx_id : string;
  tx_type : TxType;
  quantity : Qc;
  pricePerCoin : Qc;
  date : string;
  totalCost : Qc
}.

(** The fields of [Asset] the chart reads, with the cached totals; the
    bookkeeping fields ([name], [lastUpdated], [sources], [isUpdating],
    [error], [coinGeckoId]) never reach the chart.  An entry of
    [priceHistory] is the pair [[timestamp, price]]. *)
Record Asset := mkAsset {
  id : string;
  ticker : string;
  asset_quantity : Qc;
  currentPrice : Qc;
  transactions : list Transaction;
  avgBuyPrice : Qc;
  totalCostBasis : Qc;
  priceHistory : option (list (Qc * Qc))
}.

Inductive TimeRange := R24H | R1W | R1M | RALL | RCUSTOM.

Record Anchor := mkAnchor { time : Qc; price : Qc }.

Record ChartDataPoint := mkPoint {
  timestamp : Qc;
  costBasis : Qc;
  marketValue : Qc;
  stack : gmap string Qc
}.

(** A JavaScript string is truthy exactly when it is not empty. *)
Definition truthy (s : string) : bool := negb (String.eqb s "").

(** [forEach] with a body that may throw: a left-to-right fold that stops at
    the first exception. *)
Fixpoint forEachM {S A : Type} (body : S → A → option S) (l : list A) (s : S)
  : option S :=
  match l with
  | [] => Some s
  | a :: l' => s' ← body s a; forEachM body l' s'
  end.

Section Chart.

(** [new Date(s).getTime()] *)
Variable getTime : string → Qc.

(** ** Ledger accumulation (step 3.A of the chart) *)

Definition ledgerStep (t : Qc) (acc : Qc * Qc) (tx : Transaction) : Qc * Qc :=
  let txTime := getTime (date tx) in
  if decide (txTime ≤ t)
  then (acc.1 + quantity tx, acc.2 + totalCost tx)
  else acc.

(** [(qtyAtTime, costAtTime)] after the inner [forEach]. *)
Definition cumulativeAt (txs : list Transaction) (t : Qc) : Qc * Qc :=
  foldl (ledgerStep t) (0, 0) txs.

(** ** 1. Time window *)

Definition DAY : Qc := number (24 * 60 * 60 * 1000).

(** The literal [0.00001]. *)
Definition EPSILON : Qc := Q2Qc (1 # 100000).

Definition firstTxStep (firstTxTimestamp : Qc) (tx : Transaction) : Qc :=
  let t := getTime (date tx) in
  if decide (t < firstTxTimestamp) then t else firstTxTimestamp.

(** [firstTxTimestamp] after the two nested [forEach]. *)
Definition firstTx (now : Qc) (assets : list Asset) : Qc :=
  foldl (λ first a, foldl firstTxStep first (transactions a)) now assets.

Definition timeWindow (timeRange : TimeRange) (customStart customEnd : string)
    (now : Qc) (assets : list Asset) : Qc * Qc :=
  let minTime := now in
  let maxTime := now in
  let firstTxTimestamp := firstTx now assets in
  let firstTxTimestamp :=
    if decide (length assets = 0%nat ∨ firstTxTimestamp = now)
    then now - DAY else firstTxTimestamp in
  let '(minTime, maxTime) :=
    match timeRange with
    | R24H => (now - DAY, maxTime)
    | R1W => (now - number (7 * 24 * 60 * 60 * 1000), maxTime)
    | R1M => (now - number (30 * 24 * 60 * 60 * 1000), maxTime)
    | RALL =>
        let minTime := firstTxTimestamp in
        (minTime - minTime * EPSILON, maxTime)
    | RCUSTOM =>
        if truthy customStart
        then (getTime customStart,
              if truthy customEnd then getTime customEnd else now)
        else (minTime, maxTime)
    end in
  let minTime := if decide (maxTime ≤ minTime) then maxTime - DAY else minTime in
  (minTime, maxTime).

(** *** The window when a date may fail to parse

    [new Date(s).getTime()] is [NaN] when [s] is not a date.  In this second
    rendering of the same lines the time value of a string is an
    [option Qc], with [None] for [NaN], and so are [firstTxTimestamp],
    [minTime] and [maxTime]: arithmetic on [NaN] gives [NaN], and a
    comparison with [NaN] ([<], [>=], [===]) is false. *)

Section InvalidDates.

(** [new Date(s).getTime()], [None] for [NaN]. *)
Variable getTimeNaN : string → option Qc.

Definition ltNaN (a b : option Qc) : bool :=
  match a, b with Some x, Some y => bool_decide (x < y) | _, _ => false end.

Definition geNaN (a b : option Qc) : bool :=
  match a, b with Some x, Some y => bool_decide (y ≤ x) | _, _ => false end.

Definition eqNaN (a b : option Qc) : bool :=
  match a, b with Some x, Some y => bool_decide (x = y) | _, _ => false end.

Definition subNaN (a b : option Qc) : option Qc := x ← a; y ← b; Some (x - y).

Definition mulNaN (a b : option Qc) : option Qc := x ← a; y ← b; Some (x * y).

Definition firstTxStepNaN (firstTxTimestamp : option Qc) (tx : Transaction)
  : option Qc :=
  let t := getTimeNaN (date tx) in
  if ltNaN t firstTxTimestamp then t else firstTxTimestamp.

Definition firstTxNaN (now : Qc) (assets : list Asset) : option Qc :=
  foldl (λ first a, foldl firstTxStepNaN first (transactions a)) (Some now) assets.

Definition timeWindowNaN (timeRange : TimeRange) (customStart customEnd : string)
    (now : Qc) (assets : list Asset) : option Qc * option Qc :=
  let minTime := Some now in
  let maxTime := Some now in
  let firstTxTimestamp := firstTxNaN now assets in
  let firstTxTimestamp :=
    if bool_decide (length assets = 0%nat) || eqNaN firstTxTimestamp (Some now)
    then Some (now - DAY) else firstTxTimestamp in
  let '(minTime, maxTime) :=
    match timeRange with
    | R24H => (Some (now - DAY), maxTime)
    | R1W => (Some (now - number (7 * 24 * 60 * 60 * 1000)), maxTime)
    | R1M => (Some (now - number (30 * 24 * 60 * 60 * 1000)), maxTime)
    | RALL =>
        let minTime := firstTxTimestamp in
        (subNaN minTime (mulNaN minTime (Some EPSILON)), maxTime)
    | RCUSTOM =>
        if truthy customStart
        then (getTimeNaN customStart,
              if truthy customEnd then getTimeNaN customEnd else Some now)
        else (minTime, maxTime)
    end in
  let minTime :=
    if geNaN minTime maxTime then subNaN maxTime (Some DAY) else minTime in
  (minTime, maxTime).

(** The custom bounds the window reads are dates: the start when the
    selector is CUSTOM and the start is not empty, and then the end when it
    is not empty. *)
Definition customDatesParse (timeRange : TimeRange) (customStart customEnd : string)
  : Prop :=
  timeRange = RCUSTOM → truthy customStart = true →
  is_Some (getTimeNaN customStart)
  ∧ (truthy customEnd = true → is_Some (getTimeNaN customEnd)).

End InvalidDates.

(** ** 2. Price anchors *)

Definition hasHistory (asset : Asset) : bool :=
  match priceHistory asset with
  | Some h => bool_decide (0 < length h)%nat
  | None => false
  end.

(** [asset.transactions.map(...)] followed by the [push] of the current
    price. *)
Definition rawAnchors (now : Qc) (asset : Asset) : list Anchor :=
  ((λ tx, mkAnchor (getTime (date tx)) (pricePerCoin tx)) <$> transactions asset)
  ++ [mkAnchor now (currentPrice asset)].

(** [anchors.sort((a, b) => a.time - b.time)]: [Array.prototype.sort] is
    stable, so the result is the stable ascending arrangement, here by
    insertion. *)
Fixpoint insertAnchor (a : Anchor) (l : list Anchor) : list Anchor :=
  match l with
  | [] => [a]
  | b :: l' =>
      if decide (time a ≤ time b) then a :: b :: l' else b :: insertAnchor a l'
  end.

Definition sortAnchors (l : list Anchor) : list Anchor := foldr insertAnchor [] l.

(** The loop [for (let i = 1; i < anchors.length; i++)], with [n] iterations
    left. *)
Fixpoint dedupLoop (anchors : list Anchor) (n i : nat) (uniqueAnchors : list Anchor)
  : option (list Anchor) :=
  match n with
  | O => Some uniqueAnchors
  | S n' =>
      ai ← anchors !! i;
      aprev ← anchors !! (i - 1)%nat;
      dedupLoop anchors n' (S i)
        (if decide (time aprev < time ai) then uniqueAnchors ++ [ai]
         else uniqueAnchors)
  end.

Definition uniqueAnchorsOf (anchors : list Anchor) : option (list Anchor) :=
  if decide (0 < length anchors)%nat
  then a0 ← anchors !! 0%nat; dedupLoop anchors (length anchors - 1) 1 [a0]
  else Some [].

Definition anchorsStep (now : Qc) (priceAnchors : gmap string (list Anchor))
    (asset : Asset) : option (gmap string (list Anchor)) :=
  if hasHistory asset then Some priceAnchors
  else
    uniqueAnchors ← uniqueAnchorsOf (sortAnchors (rawAnchors now asset));
    Some (<[id asset := uniqueAnchors]> priceAnchors).

Definition buildPriceAnchors (now : Qc) (assets : list Asset)
  : option (gmap string (list Anchor)) :=
  forEachM (anchorsStep now) assets ∅.

(** ** 3.B Price at time [t] *)

(** [findIndex]: [None] stands for [-1]. *)
Definition findIndex {A} (P : A → Prop) `{!∀ x, Decision (P x)} (l : list A)
  : option nat := fst <$> list_find P l.

Definition interpolate (t t1 v1 t2 v2 : Qc) : Qc :=
  let span := t2 - t1 in
  if decide (0 < span)
  then let progress := (t - t1) / span in v1 + (v2 - v1) * progress
  else v1.

(** Strategy 1: real history. *)
Definition historyPrice (assetHistory : list (Qc * Qc)) (t : Qc) : option Qc :=
  match findIndex (λ p, t ≤ p.1) assetHistory with
  | Some O => p ← assetHistory !! 0%nat; Some p.2
  | None => p ← assetHistory !! (length assetHistory - 1)%nat; Some p.2
  | Some idx =>
      p1 ← assetHistory !! (idx - 1)%nat;
      p2 ← assetHistory !! idx;
      Some (interpolate t p1.1 p1.2 p2.1 p2.2)
  end.

(** The loop [for (let k = 0; k < anchors.length - 1; k++)] with its [break];
    [n] iterations left, [estimatedPrice] untouched when no segment holds
    [t]. *)
Fixpoint anchorLoop (anchors : list Anchor) (estimatedPrice t : Qc) (n k : nat)
  : option Qc :=
  match n with
  | O => Some estimatedPrice
  | S n' =>
      prev ← anchors !! k;
      if decide (time prev ≤ t)
      then
        next ← anchors !! (k + 1)%nat;
        if decide (t ≤ time next)
        then Some (interpolate t (time prev) (price prev) (time next) (price next))
        else anchorLoop anchors estimatedPrice t n' (S k)
      else anchorLoop anchors estimatedPrice t n' (S k)
  end.

(** Strategy 2: anchor fallback. *)
Definition anchorPrice (anchors : list Anchor) (estimatedPrice t : Qc) : option Qc :=
  if decide (0 < length anchors)%nat
  then
    first ← anchors !! 0%nat;
    if decide (t ≤ time first) then Some (price first)
    else
      last ← anchors !! (length anchors - 1)%nat;
      if decide (time last ≤ t) then Some (price last)
      else anchorLoop anchors estimatedPrice t (length anchors - 1) 0
  else Some estimatedPrice.

Definition estimatePrice (priceAnchors : gmap string (list Anchor))
    (asset : Asset) (t : Qc) : option Qc :=
  let estimatedPrice := currentPrice asset in
  if hasHistory asset
  then historyPrice (default [] (priceHistory asset)) t
  else anchorPrice (default [] (priceAnchors !! id asset)) estimatedPrice t.

(** ** 3. Time steps *)

Definition steps : nat := 150.

(** The body of [assets.forEach] for one point: the state is
    [(totalCost, totalVal, stack)]. *)
Definition assetStep (priceAnchors : gmap string (list Anchor)) (t : Qc)
    (acc : Qc * Qc * gmap string Qc) (asset : Asset)
  : option (Qc * Qc * gmap string Qc) :=
  let '(totalCost, totalVal, stack) := acc in
  let '(qtyAtTime, costAtTime) := cumulativeAt (transactions asset) t in
  if decide (qtyAtTime ≤ 0)
  then Some (totalCost, totalVal, <[id asset := 0]> stack)
  else
    estimatedPrice ← estimatePrice priceAnchors asset t;
    let val := qtyAtTime * estimatedPrice in
    Some (totalCost + costAtTime, totalVal + val, <[id asset := val]> stack).

Definition pointAt (priceAnchors : gmap string (list Anchor))
    (assets : list Asset) (t : Qc) : option ChartDataPoint :=
  '(totalCost, totalVal, stack) ←
    forEachM (assetStep priceAnchors t) assets (0, 0, ∅);
  Some (mkPoint t totalCost totalVal stack).

Definition generateData (priceAnchors : gmap string (list Anchor))
    (assets : list Asset) (minTime maxTime : Qc) : option (list ChartDataPoint) :=
  let stepSize := (maxTime - minTime) / number (Z.of_nat steps) in
  mapM (λ i : nat, pointAt priceAnchors assets (minTime + stepSize * number (Z.of_nat i)))
       (seq 0 (steps + 1)).

(** ** 4. Geometry *)

Definition width : Qc := number 100.
Definition height : Qc := number 100.

Definition CHART_COLORS : list string :=
  ["#6366f1"; "#10b981"; "#0ea5e9"; "#f59e0b";
   "#f43f5e"; "#a855f7"; "#ec4899"; "#06b6d4"]%string.

Definition maxYStep (computedMaxY : Qc) (d : ChartDataPoint) : Qc :=
  let m := if decide (computedMaxY < marketValue d) then marketValue d
           else computedMaxY in
  if decide (m < costBasis d) then costBasis d else m.

(** [computedMaxY], with the placeholder 100 and the 10% padding ([1.1]). *)
Definition computeMaxY (generatedData : list ChartDataPoint) : Qc :=
  let computedMaxY := foldl maxYStep 0 generatedData in
  let computedMaxY := if decide (computedMaxY = 0) then number 100 else computedMaxY in
  computedMaxY * Q2Qc (11 # 10).

Definition getX (minTime maxTime ts : Qc) : Qc :=
  ((ts - minTime) / (maxTime - minTime)) * width.

Definition getY (computedMaxY val : Qc) : Qc :=
  height - ((val / computedMaxY) * height).

Record TopPoint := mkTop { top_x : Qc; top_y : Qc; val : Qc }.
Record Point := mkPt { pt_x : Qc; pt_y : Qc }.

(** One pushed [<path>]: its [key], its colour, and the two point arrays its
    [d] attribute is printed from ([topPoints] in order, then [bottomPoints],
    each coordinate through [toFixed(2)]). *)
Record StackedPath := mkPath {
  key : string;
  fill : string;
  topPoints : list TopPoint;
  bottomPoints : list Point
}.

(** [d.stack[asset.id] || 0] *)
Definition stackValue (d : ChartDataPoint) (asset : Asset) : Qc :=
  default 0 (stack d !! id asset).

(** [topPoints.forEach((p, i) => currentBaselines[i] = p.val)], one index
    assignment per top point.  Past the end of the array JavaScript would
    extend it and [<[i:=_]>] does nothing; the two arrays have one length
    ([updateBaselines_vals] below), so no assignment falls there. *)
Definition updateBaselines (currentBaselines : list Qc) (topPoints : list TopPoint)
  : list Qc :=
  foldl (λ b ip, <[ip.1 := val ip.2]> b) currentBaselines (imap pair topPoints).

Section Stack.

Variables (minTime maxTime computedMaxY : Qc).
Variable generatedData : list ChartDataPoint.

(** [generatedData.map((d, i) => ...)] reading [currentBaselines[i]]: the
    array was made with the length of [generatedData], so the read is inside
    it (outside, JavaScript would read [undefined]; [!!!] reads 0). *)
Definition topPointsOf (currentBaselines : list Qc) (asset : Asset) : list TopPoint :=
  imap (λ i d,
          let val := stackValue d asset in
          let yTop := currentBaselines !!! i + val in
          mkTop (getX minTime maxTime (timestamp d)) (getY computedMaxY yTop) yTop)
       generatedData.

Definition bottomPointsOf (currentBaselines : list Qc) : list Point :=
  reverse
    (imap (λ i d,
             let yBottom := currentBaselines !!! i in
             mkPt (getX minTime maxTime (timestamp d)) (getY computedMaxY yBottom))
          generatedData).

(** The body of [assets.forEach((asset, idx) => ...)]; the state is
    [(stackedPaths, currentBaselines)]. *)
Definition stackStep (st : list StackedPath * list Qc) (ia : nat * Asset)
  : list StackedPath * list Qc :=
  let '(stackedPaths, currentBaselines) := st in
  let '(idx, asset) := ia in
  let color := CHART_COLORS !!! (idx mod length CHART_COLORS)%nat in
  let hasValue :=
    existsb (λ d, bool_decide (0 < stackValue d asset)) generatedData in
  if negb hasValue then st
  else
    let topPoints := topPointsOf currentBaselines asset in
    let bottomPoints := bottomPointsOf currentBaselines in
    let currentBaselines := updateBaselines currentBaselines topPoints in
    let stackedPaths :=
      if decide (1 < length topPoints)%nat
      then stackedPaths ++ [mkPath (id asset) color topPoints bottomPoints]
      else stackedPaths in
    (stackedPaths, currentBaselines).

Definition buildStack (assets : list Asset) : list StackedPath * list Qc :=
  foldl stackStep ([], replicate (length generatedData) 0) (imap pair assets).

(** The points of the dashed cost-basis line. *)
Definition costPathPointsOf : list Point :=
  (λ d, mkPt (getX minTime maxTime (timestamp d)) (getY computedMaxY (costBasis d)))
  <$> generatedData.

(** Region [upper] sits on region [lower]: it was built for some asset from
    the baseline array holding the values of [lower]'s top line. *)
Definition sitsOn (assets : list Asset) (lower upper : StackedPath) : Prop :=
  ∃ asset, asset ∈ assets ∧ key upper = id asset
    ∧ topPoints upper = topPointsOf (val <$> topPoints lower) asset
    ∧ bottomPoints upper = bottomPointsOf (val <$> topPoints lower).

(** What holds of [(stackedPaths, currentBaselines)] all along the loop. *)
Definition stackInv (assets : list Asset) (st : list StackedPath * list Qc) : Prop :=
  length st.2 = length generatedData
  ∧ ((length generatedData ≤ 1)%nat → st.1 = [])
  ∧ Forall (λ p, length (topPoints p) = length generatedData) st.1
  ∧ (∀ p, last st.1 = Some p → val <$> topPoints p = st.2)
  ∧ (∀ k lower upper, st.1 !! k = Some lower → st.1 !! S k = Some upper →
       sitsOn assets lower upper).

End Stack.

(** The two totals of a fold state. *)
Definition totals (s : Qc * Qc * gmap string Qc) : Qc * Qc := (s.1.1, s.1.2).

(** What the memoised computation hands on (the axis labels are formatting). *)
Record ChartResult := mkChart {
  stackedPaths : list StackedPath;
  costPathPoints : list Point;
  chartData : list ChartDataPoint;
  chart_minTime : Qc;
  chart_maxTime : Qc;
  maxY : Qc
}.

Definition chart (assets : list Asset) (timeRange : TimeRange)
    (customStart customEnd : string) (now : Qc) : option ChartResult :=
  let '(minTime, maxTime) := timeWindow timeRange customStart customEnd now assets in
  priceAnchors ← buildPriceAnchors now assets;
  generatedData ← generateData priceAnchors assets minTime maxTime;
  let computedMaxY := computeMaxY generatedData in
  let paths := (buildStack minTime maxTime computedMaxY generatedData assets).1 in
  Some (mkChart paths
          (costPathPointsOf minTime maxTime computedMaxY generatedData)
          generatedData minTime maxTime computedMaxY).

(** ** Hover *)

Record HoverData := mkHover { hover_x : Qc; hover_y : Qc; data : ChartDataPoint }.

(** [a[index]] for a numeric index. *)
Definition at_index {A} (l : list A) (index : Z) : option A :=
  if decide (0 ≤ index)%Z then l !! Z.to_nat index else None.

Definition clampRatio (r : Qc) : Qc := Math_max 0 (Math_min 1 r).

Definition hoverIndex (chartData : list ChartDataPoint) (ratio : Qc) : Z :=
  Math_floor (ratio * number (Z.of_nat (length chartData) - 1)).

(** [handleMouseMove]: [rectLeft], [rectWidth], [rectHeight] are the
    container's bounding rectangle and [clientX] the pointer position.  [None]
    is a return without [setHoverData]. *)
Definition handleMouseMove (chartData : list ChartDataPoint) (maxY : Qc)
    (rectLeft rectWidth rectHeight clientX : Qc) : option HoverData :=
  if decide (length chartData = 0%nat) then None
  else
    let x := clientX - rectLeft in
    let width := rectWidth in
    let height := rectHeight in
    if decide (width = 0) then None
    else
      let ratio := clampRatio (x / width) in
      let index := hoverIndex chartData ratio in
      match at_index chartData index with
      | Some dataPoint =>
          Some (mkHover x (height - ((marketValue dataPoint / maxY) * height)) dataPoint)
      | None => None
      end.

(** ** The allocation ring (the pie-chart logic of [Summary.tsx]) *)

(** [{...asset, value}] *)
Record PieAsset := mkPieAsset { pie_asset : Asset; value : Qc }.

(** One stop pair of the conic gradient, printed as
    [`${color} ${cumulative}% ${cumulative + pct}%`]. *)
Record Segment := mkSeg { seg_color : string; seg_from : Qc; seg_to : Qc }.

(** [.sort((a, b) => b.value - a.value)]: the stable arrangement by
    descending value, by insertion. *)
Fixpoint insertByValue (x : PieAsset) (l : list PieAsset) : list PieAsset :=
  match l with
  | [] => [x]
  | y :: l' =>
      if decide (value x < value y) then y :: insertByValue x l' else x :: y :: l'
  end.

Definition sortByValue (l : list PieAsset) : list PieAsset :=
  foldr insertByValue [] l.

(** The body of [sorted.forEach((a, i) => ...)]; the state is
    [(cumulative, segs)]. *)
Definition segmentStep (totalValue : Qc) (st : Qc * list Segment)
    (ia : nat * PieAsset) : Qc * list Segment :=
  let '(cumulative, segs) := st in
  let '(i, a) := ia in
  let pct := (value a / totalValue) * number 100 in
  let color := CHART_COLORS !!! (i mod length CHART_COLORS)%nat in
  (cumulative + pct, segs ++ [mkSeg color cumulative (cumulative + pct)]).

(** [pieChartData]: the stops of the gradient and [sortedAssets];
    [totalValue] is [summary.totalValue]. *)
Definition pieChartData (totalValue : Qc) (assets : list Asset)
  : list Segment * list PieAsset :=
  if decide (totalValue = 0)
  then ([mkSeg "#334155" 0 (number 100)], [])
  else
    let sorted :=
      sortByValue
        ((λ asset, mkPieAsset asset (asset_quantity asset * currentPrice asset))
           <$> assets) in
    ((foldl (segmentStep totalValue) (0, []) (imap pair sorted)).2, sorted).

(** ** The portfolio state ([App.tsx]) *)

Record SourceLink := mkSource { title : string; url : string }.

(** An asset as the application holds it: the fields of [Asset] above and the
    bookkeeping fields beside them. *)
Record AssetEntry := mkEntry {
  asset : Asset;
  name : option string;
  lastUpdated : string;
  sources : list SourceLink;
  isUpdating : bool;
  error : option string
}.

(** [PortfolioSummary]; the field [totalCostBasis] is [summaryCostBasis]
    here, apart from the field of [Asset]. *)
Record PortfolioSummary := mkSummary {
  totalValue : Qc;
  summaryCostBasis : Qc;
  totalPnL : Qc;
  totalPnLPercent : Qc;
  assetCount : nat;
  lastGlobalUpdate : option string
}.

(** The reducer of [assets.reduce(...)].  Strings compare by code unit, as
    [String.ltb] does on ASCII. *)
Definition summaryStep (acc : PortfolioSummary) (e : AssetEntry) : PortfolioSummary :=
  let assetValue := asset_quantity (asset e) * currentPrice (asset e) in
  mkSummary
    (totalValue acc + assetValue)
    (summaryCostBasis acc + totalCostBasis (asset e))
    (totalPnL acc + (assetValue - totalCostBasis (asset e)))
    0
    (assetCount acc + 1)
    (if String.ltb (default "" (lastGlobalUpdate acc)) (lastUpdated e)
     then Some (lastUpdated e) else lastGlobalUpdate acc).

(** [summary], with [totalPnLPercent] set afterwards. *)
Definition summarize (assets : list AssetEntry) : PortfolioSummary :=
  let summary := foldl summaryStep (mkSummary 0 0 0 0 0 None) assets in
  if decide (0 < summaryCostBasis summary)
  then mkSummary (totalValue summary) (summaryCostBasis summary) (totalPnL summary)
         ((totalPnL summary / summaryCostBasis summary) * number 100)
         (assetCount summary) (lastGlobalUpdate summary)
  else summary.

Record HistorySnapshot := mkSnapshot {
  snapshot_timestamp : Qc;
  snapshot_totalValue : Qc;
  assetValues : gmap string Qc
}.

(** [recordHistorySnapshot], as the new value of [history] for the old one
    [prev]; [now] is [Date.now()]. *)
Definition recordHistorySnapshot (now : Qc) (currentAssets : list AssetEntry)
    (prev : list HistorySnapshot) : list HistorySnapshot :=
  let totalValue :=
    foldl (λ sum a, sum + asset_quantity (asset a) * currentPrice (asset a))
          0 currentAssets in
  if decide (totalValue = 0) then prev
  else
    let snapshot :=
      mkSnapshot now totalValue
        (foldl (λ acc a,
                  <[ticker (asset a)
                    := asset_quantity (asset a) * currentPrice (asset a)]> acc)
               ∅ currentAssets) in
    let newHistory := prev ++ [snapshot] in
    if decide (50 < length newHistory)%nat
    then drop (length newHistory - 50) newHistory
    else newHistory.

(** [handleAddAsset] up to its first [setAssets]: the new list of assets,
    when the state the update runs on is the [assets] the handler saw.
    [txId] and [newId] are the two generated ids and [nowIso] is
    [new Date().toISOString()]. *)
Definition handleAddAsset (assets : list AssetEntry) (newTicker : string)
    (qty price : Qc) (txDate txId newId nowIso : string) : list AssetEntry :=
  let totalCost := qty * price in
  let newTx := mkTransaction txId BUY qty price txDate totalCost in
  match snd <$> list_find (λ a, ticker (asset a) = newTicker) assets with
  | Some existingAsset =>
      let updatedTransactions := transactions (asset existingAsset) ++ [newTx] in
      let newTotalQty := asset_quantity (asset existingAsset) + qty in
      let newTotalCostBasis := totalCostBasis (asset existingAsset) + totalCost in
      let newAvgBuyPrice := newTotalCostBasis / newTotalQty in
      (λ a, if decide (id (asset a) = id (asset existingAsset))
            then mkEntry
                   (mkAsset (id (asset a)) (ticker (asset a)) newTotalQty
                      (currentPrice (asset a)) updatedTransactions newAvgBuyPrice
                      newTotalCostBasis (priceHistory (asset a)))
                   (name a) (lastUpdated a) (sources a) (isUpdating a) (error a)
            else a) <$> assets
  | None =>
      let tempAsset :=
        mkEntry (mkAsset newId newTicker qty 0 [newTx] price totalCost None)
                (Some newTicker) nowIso [] true None in
      assets ++ [tempAsset]
  end.

(** [handleRemoveAsset] *)
Definition handleRemoveAsset (assets : list AssetEntry) (removed : string)
  : list AssetEntry :=
  filter (λ a, id (asset a) ≠ removed) assets.

(** ** The asset card ([AssetCard]) *)

Definition currentTotalValue (a : Asset) : Qc := asset_quantity a * currentPrice a.
Definition profitLoss (a : Asset) : Qc := currentTotalValue a - totalCostBasis a.
Definition profitLossPercent (a : Asset) : Qc :=
  if decide (0 < totalCostBasis a)
  then (profitLoss a / totalCostBasis a) * number 100 else 0.

(** The row of one transaction. *)
Definition txCurrentVal (a : Asset) (tx : Transaction) : Qc :=
  quantity tx * currentPrice a.
Definition txPnL (a : Asset) (tx : Transaction) : Qc :=
  txCurrentVal a tx - totalCost tx.

(** ** History from CryptoCompare (strategy 1 of [fetchAssetHistory])

    What the strategy makes of the rows [{time, close}] of a successful
    response; [None] is the fall through to the next strategy. *)
Definition cryptoCompareHistory (rows : list (Qc * Qc)) : option (list (Qc * Qc)) :=
  let history := (λ d, (d.1 * number 1000, d.2)) <$> rows in
  let validHistory := filter (λ p, 0 < p.2) history in
  if decide (10 < length validHistory)%nat then Some validHistory else None.

(** ** Sample inputs

    A clock for concrete runs: the date strings it knows, in epoch
    milliseconds (UTC midnight). *)

Definition sampleDates : list (string * Z) :=
  [("1969-12-31", -86400000); ("1970-01-01", 0); ("2024-01-01", 1704067200000);
   ("2024-01-06", 1704499200000); ("2024-01-11", 1704931200000)]%Z%string.

Fixpoint lookupDate (table : list (string * Z)) (s : string) : Z :=
  match table with
  | [] => 0
  | (k, v) :: table' => if String.eqb k s then v else lookupDate table' s
  end.

Definition sampleClock (s : string) : Qc := number (lookupDate sampleDates s).

(** The same table as a parser: a string outside it is not a date. *)
Fixpoint parseDate (table : list (string * Z)) (s : string) : option Z :=
  match table with
  | [] => None
  | (k, v) :: table' => if String.eqb k s then Some v else parseDate table' s
  end.

Definition sampleParser (s : string) : option Qc :=
  number <$> parseDate sampleDates s.

Definition buy (d : string) (q p : Z) : Transaction :=
  mkTransaction "tx" BUY (number q) (number p) d (number (q * p)).

Definition sell (d : string) (q p : Z) : Transaction :=
  mkTransaction "tx" SELL (number q) (number p) d (number (q * p)).

Definition coin (name : string) (cur : Z) (txs : list Transaction)
    (h : option (list (Qc * Qc))) : Asset :=
  mkAsset name name 0 (number cur) txs 0 0 h.

Definition sampleHistory : list (Qc * Qc) :=
  [(number 1704067200000, number 80); (number 1704499200000, number 100);
   (number 1704931200000, number 90)].

Definition btc : Asset := coin "BTC" 150 [buy "2024-01-01" 1 100] None.
Definition eth : Asset := coin "ETH" 3000 [buy "2024-01-11" 2 2500] None.
Definition sol : Asset := coin "SOL" 90 [buy "2024-01-01" 10 80] (Some sampleHistory).

(** The same holding as [btc], entered as a SELL. *)
Definition btcSold : Asset := coin "BTC" 150 [sell "2024-01-01" 1 100] None.

(** Three points of a series over the assets ["BTC"] and ["ETH"]. *)
Definition samplePoints : list ChartDataPoint :=
  [mkPoint 0 0 0 {[ "BTC" := 0; "ETH" := 0 ]};
   mkPoint (number 5) (number 100) (number 120) {[ "BTC" := number 120; "ETH" := 0 ]};
   mkPoint (number 10) (number 300) (number 350)
           {[ "BTC" := number 150; "ETH" := number 200 ]}]%string.

(** A holding with its cached totals, as [handleAddAsset] leaves them. *)
Definition held (name : string) (cur : Z) (d : string) (q p : Z) : Asset :=
  mkAsset name name (number q) (number cur) [buy d q p] (number p)
          (number (q * p)) None.

Definition entry (a : Asset) : AssetEntry :=
  mkEntry a (Some (ticker a)) "2024-01-11T00:00:00.000Z" [] false None.

Definition btcHeld : Asset := held "BTC" 150 "2024-01-01" 1 100.
Definition ethHeld : Asset := held "ETH" 3000 "2024-01-06" 2 2500.

Definition sampleEntries : list AssetEntry := [entry btcHeld; entry ethHeld].

(** Anchors in ascending order, two of them with one time. *)
Definition sampleAnchors : list Anchor :=
  [mkAnchor (number 1704067200000) (number 100);
   mkAnchor (number 1704067200000) (number 110);
   mkAnchor (number 1704931200000) (number 150)].

(** Twelve daily rows [{time, close}] of a response, the first with a close
    of 0. *)
Definition sampleRows : list (Qc * Qc) :=
  (λ i : Z, (number (1704067200 + 86400 * i), number i))
  <$> [0; 1; 2; 3; 4; 5; 6; 7; 8; 9; 10; 11]%Z.

(** ** Vocabulary of the statements *)

(** Sum of a list of numbers. *)
Definition sumQc (l : list Qc) : Qc := foldr Qcplus 0 l.

(** The transactions dated at or before [t]. *)
Definition upTo (t : Qc) (txs : list Transaction) : list Transaction :=
  filter (λ tx, getTime (date tx) ≤ t) txs.

(** The ledger contract in the words of the specification: the sums of
    [quantity] and of [totalCost] over the transactions with [date <= t]. *)
Definition cumulativeAt_spec (txs : list Transaction) (t : Qc) : Qc * Qc :=
  (sumQc (quantity <$> upTo t txs), sumQc (totalCost <$> upTo t txs)).

(** [T0] is the date of the earliest transaction of the portfolio. *)
Definition earliest (T0 : Qc) (assets : list Asset) : Prop :=
  Exists (λ a, Exists (λ tx, getTime (date tx) = T0) (transactions a)) assets
  ∧ Forall (λ a, Forall (λ tx, T0 ≤ getTime (date tx)) (transactions a)) assets.

(** Two transactions that differ at most in their [type]. *)
Definition sameButType (tx tx' : Transaction) : Prop :=
  tx_id tx = tx_id tx' ∧ quantity tx = quantity tx'
  ∧ pricePerCoin tx = pricePerCoin tx' ∧ date tx = date tx'
  ∧ totalCost tx = totalCost tx'.

(** Two assets that differ at most in the [type] of their transactions. *)
Definition sameButTxTypes (a a' : Asset) : Prop :=
  id a = id a' ∧ ticker a = ticker a' ∧ asset_quantity a = asset_quantity a'
  ∧ currentPrice a = currentPrice a' ∧ avgBuyPrice a = avgBuyPrice a'
  ∧ totalCostBasis a = totalCostBasis a' ∧ priceHistory a = priceHistory a'
  ∧ Forall2 sameButType (transactions a) (transactions a').

(** The anchors kept by the deduplication loop once it stands after the
    anchor [prev], as a recursion on the anchors that are left. *)
Fixpoint dedupFrom (prev : Anchor) (l : list Anchor) : list Anchor :=
  match l with
  | [] => []
  | a :: l' =>
      if decide (time prev < time a) then a :: dedupFrom a l' else dedupFrom a l'
  end.

(** Every price an asset carries (current, paid, recorded) lies in
    [[lo, hi]]. *)
Definition pricesWithin (lo hi : Qc) (a : Asset) : Prop :=
  lo ≤ currentPrice a ≤ hi
  ∧ Forall (λ tx, lo ≤ pricePerCoin tx ≤ hi) (transactions a)
  ∧ Forall (λ p, lo ≤ p.2 ≤ hi) (default [] (priceHistory a)).

(** What one asset adds to the point at [t]: its value and its cost, both 0
    while its accumulated quantity is not positive. *)
Definition valueAt (priceAnchors : gmap string (list Anchor)) (t : Qc)
    (a : Asset) : Qc :=
  if decide ((cumulativeAt (transactions a) t).1 ≤ 0) then 0
  else (cumulativeAt (transactions a) t).1
       * default 0 (estimatePrice priceAnchors a t).

Definition costAt (t : Qc) (a : Asset) : Qc :=
  if decide ((cumulativeAt (transactions a) t).1 ≤ 0) then 0
  else (cumulativeAt (transactions a) t).2.

(** The cached totals of an asset agree with its ledger, every transaction
    cost is quantity times price, and the average price times the quantity is
    the cost basis (unless the quantity is 0). *)
Definition ledgerConsistent (a : Asset) : Prop :=
  asset_quantity a = sumQc (quantity <$> transactions a)
  ∧ totalCostBasis a = sumQc (totalCost <$> transactions a)
  ∧ Forall (λ tx, totalCost tx = quantity tx * pricePerCoin tx) (transactions a)
  ∧ (asset_quantity a ≠ 0 → avgBuyPrice a * asset_quantity a = totalCostBasis a).

(** The segments lie end to end from [from] to [to]. *)
Fixpoint tiles (from : Qc) (segs : list Segment) (to : Qc) : Prop :=
  match segs with
  | [] => from = to
  | seg :: segs' => seg_from seg = from ∧ tiles (seg_to seg) segs' to
  end.

(** The index the hover handler computes for a pointer at [clientX]. *)
Definition hoverIndexAt (chartData : list ChartDataPoint)
    (rectLeft rectWidth clientX : Qc) : Z :=
  hoverIndex chartData (clampRatio ((clientX - rectLeft) / rectWidth)).

(** The timestamps of a price history ascend strictly. *)
Fixpoint strictlyAscending (h : list (Qc * Qc)) : Prop :=
  match h with
  | a :: (b :: _) as h' => a.1 < b.1 ∧ strictlyAscending h'
  | _ => True
  end.

(** * Properties *)

(** ** Arithmetic on [Qc] through [Q] *)

Ltac qc_unfold :=
  unfold Qcle, Qclt, Qcminus, Qcplus, Qcmult, Qcopp, number, Qc_of_Z in *;
  cbn [this Q2Qc] in *;
  rewrite ?Qred_correct in *;
  unfold inject_Z in *.

Ltac qc_lra := qc_unfold; lra.

(** Equations between numbers, with division, decided in the field [Q]. *)
Ltac qc_field :=
  apply Qc_is_canon;
  unfold Qcdiv, Qcinv, Qcminus, Qcplus, Qcmult, Qcopp, number, Qc_of_Z in *;
  cbn [this Q2Qc] in *;
  rewrite ?Qred_correct in *;
  unfold inject_Z in *;
  field.

Lemma DAY_value : DAY = number 86400000.
Proof. reflexivity. Qed.


(** ** Ledger accumulation *)

Lemma ledger_foldl_shift t txs q c :
  foldl (ledgerStep t) (q, c) txs
  = (q + (foldl (ledgerStep t) (0, 0) txs).1,
     c + (foldl (ledgerStep t) (0, 0) txs).2).
Proof.
  revert q c. induction txs as [|tx txs IH]; intros q c; simpl.
  - by rewrite !Qcplus_0_r.
  - unfold ledgerStep at 2 4 6. simpl. case_decide.
    + rewrite IH. rewrite (IH (0 + _) (0 + _)). simpl.
      f_equal; ring.
    + apply IH.
Qed.

Lemma cumulativeAt_cons t tx txs :
  cumulativeAt (tx :: txs) t
  = if decide (getTime (date tx) ≤ t)
    then (quantity tx + (cumulativeAt txs t).1,
          totalCost tx + (cumulativeAt txs t).2)
    else cumulativeAt txs t.
Proof.
  unfold cumulativeAt. simpl. unfold ledgerStep at 2. simpl.
  case_decide; [|done].
  rewrite ledger_foldl_shift. f_equal; ring.
Qed.

Lemma cumulativeAt_sum txs t : cumulativeAt txs t = cumulativeAt_spec txs t.
Proof.
  unfold cumulativeAt_spec.
  induction txs as [|tx txs IH]; [done|].
  rewrite cumulativeAt_cons. unfold upTo in *. rewrite filter_cons.
  case_decide; [|done]. by rewrite IH.
Qed.

Lemma cumulativeAt_all_later txs t :
  Forall (λ tx, t < getTime (date tx)) txs → cumulativeAt txs t = (0, 0).
Proof.
  induction 1 as [|tx l Hlate _ IH]; [done|].
  rewrite cumulativeAt_cons, decide_False; [done|].
  by apply Qclt_not_le.
Qed.

(** C1.  The ledger accumulation of the synthesizer sums [quantity] and
    [totalCost] over exactly the transactions dated at or before [t]: a
    transaction dated after [t] can be struck from the ledger without changing
    the result, and when every transaction is dated after [t] the result is
    [(0, 0)]. *)
Theorem ledger_accumulation (txs : list Transaction) (t : Qc) :
  cumulativeAt txs t = cumulativeAt_spec txs t
  ∧ (∀ l1 tx l2, txs = l1 ++ tx :: l2 → t < getTime (date tx) →
       cumulativeAt txs t = cumulativeAt (l1 ++ l2) t)
  ∧ (Forall (λ tx, t < getTime (date tx)) txs → cumulativeAt txs t = (0, 0)).
Proof.
  split; [apply cumulativeAt_sum|]. split.
  - intros l1 tx l2 -> Hlate. rewrite !cumulativeAt_sum.
    unfold cumulativeAt_spec, upTo.
    rewrite !filter_app, filter_cons. rewrite decide_False; [done|].
    by apply Qclt_not_le.
  - apply cumulativeAt_all_later.
Qed.

(** ** Time window *)

Lemma timeWindow_max timeRange customStart customEnd now assets :
  (timeWindow timeRange customStart customEnd now assets).2
  = match timeRange with
    | RCUSTOM =>
        if truthy customStart
        then (if truthy customEnd then getTime customEnd else now)
        else now
    | _ => now
    end.
Proof.
  unfold timeWindow. destruct timeRange; try done.
  by destruct (truthy customStart).
Qed.

(** Over finite timestamps (every date string that is read parses, so
    [getTime] is a number): whatever the selector, the custom bounds, the
    assets and the clock, the resolved window has [minTime < maxTime]; where
    the custom start is not before the custom end, the last rule puts
    [minTime] one day (86400000 ms) before [maxTime]; and this is the window
    the chart works with.  [timeWindowNaN] below has the strings that are not
    dates. *)
Theorem window_strictly_positive (timeRange : TimeRange)
    (customStart customEnd : string) (now : Qc) (assets : list Asset) :
  let w := timeWindow timeRange customStart customEnd now assets in
  w.1 < w.2
  ∧ DAY = number 86400000
  ∧ (timeRange = RCUSTOM → truthy customStart = true → truthy customEnd = true →
     getTime customEnd ≤ getTime customStart →
     w = (getTime customEnd - DAY, getTime customEnd))
  ∧ (∀ r, chart assets timeRange customStart customEnd now = Some r →
       chart_minTime r = w.1 ∧ chart_maxTime r = w.2).
Proof.
  simpl. split; [|split; [done|split]].
  2:{ intros -> Hs He Hle. unfold timeWindow. rewrite Hs, He.
      by rewrite decide_True. }
  - unfold timeWindow.
    match goal with |- context [match timeRange with R24H => ?a | _ => _ end] =>
      destruct (match timeRange with R24H => a | R1W => _ | R1M => _
                | RALL => _ | RCUSTOM => _ end) as [mn mx] end.
    simpl. case_decide as Hle.
    + rewrite DAY_value. qc_lra.
    + by apply Qcnot_le_lt.
  - intros r Hr. unfold chart in Hr.
    destruct (timeWindow _ _ _ _ _) as [mn mx].
    destruct (buildPriceAnchors now assets); [|done]. simpl in Hr.
    destruct (generateData _ _ _ _); [|done]. simpl in Hr.
    by injection Hr as <-.
Qed.

(** The minimum over the ledger, as computed by [firstTx]. *)
Lemma firstTx_inner_le first txs :
  foldl firstTxStep first txs ≤ first
  ∧ Forall (λ tx, foldl firstTxStep first txs ≤ getTime (date tx)) txs.
Proof.
  revert first. induction txs as [|tx txs IH]; intros first; simpl.
  - split; [apply Qcle_refl | constructor].
  - destruct (IH (firstTxStep first tx)) as [H1 H2].
    assert (firstTxStep first tx ≤ first ∧ firstTxStep first tx ≤ getTime (date tx))
      as [Ha Hb].
    { unfold firstTxStep. case_decide as Hd; split; try apply Qcle_refl.
      - by apply Qclt_le_weak.
      - by apply Qcnot_lt_le. }
    split; [by etrans|]. constructor; [by etrans | done].
Qed.

Lemma firstTx_inner_in first txs :
  foldl firstTxStep first txs = first
  ∨ Exists (λ tx, foldl firstTxStep first txs = getTime (date tx)) txs.
Proof.
  revert first. induction txs as [|tx txs IH]; intros first; simpl; [by left|].
  destruct (IH (firstTxStep first tx)) as [H|H].
  - rewrite H. unfold firstTxStep. case_decide.
    + right. by left.
    + by left.
  - right. by right.
Qed.

Lemma firstTx_le now assets :
  firstTx now assets ≤ now
  ∧ Forall (λ a, Forall (λ tx, firstTx now assets ≤ getTime (date tx))
                        (transactions a)) assets.
Proof.
  unfold firstTx. revert now. induction assets as [|a assets IH]; intros now; simpl.
  - split; [apply Qcle_refl | constructor].
  - destruct (IH (foldl firstTxStep now (transactions a))) as [H1 H2].
    destruct (firstTx_inner_le now (transactions a)) as [H3 H4].
    split; [by etrans|]. constructor; [|done].
    eapply Forall_impl; [exact H4|]. intros tx Htx. simpl in Htx. by etrans.
Qed.

Lemma firstTx_in now assets :
  firstTx now assets = now
  ∨ Exists (λ a, Exists (λ tx, firstTx now assets = getTime (date tx))
                        (transactions a)) assets.
Proof.
  unfold firstTx. revert now. induction assets as [|a assets IH]; intros now; simpl;
    [by left|].
  destruct (IH (foldl firstTxStep now (transactions a))) as [H|H].
  - rewrite H. destruct (firstTx_inner_in now (transactions a)) as [H'|H'].
    + by left.
    + right. by left.
  - right. by right.
Qed.

Lemma firstTx_earliest now assets T0 :
  earliest T0 assets → T0 < now → firstTx now assets = T0.
Proof.
  intros [Hex Hall] Hnow. apply Qcle_antisym.
  - destruct (firstTx_le now assets) as [_ H].
    apply Exists_exists in Hex as (a & Ha & Hex).
    apply Exists_exists in Hex as (tx & Htx & <-).
    rewrite Forall_forall in H. specialize (H a Ha).
    rewrite Forall_forall in H. by apply H.
  - destruct (firstTx_in now assets) as [->|H]; [by apply Qclt_le_weak|].
    apply Exists_exists in H as (a & Ha & H).
    apply Exists_exists in H as (tx & Htx & ->).
    rewrite Forall_forall in Hall. specialize (Hall a Ha).
    rewrite Forall_forall in Hall. by apply Hall.
Qed.

(** For a first transaction after the epoch the bias of the ALL range does
    put [minTime] before it. *)
Lemma all_range_after_epoch customStart customEnd now assets T0 :
  earliest T0 assets → T0 < now → 0 < T0 →
  let w := timeWindow RALL customStart customEnd now assets in
  w.1 < T0 ∧ w.2 = now.
Proof.
  intros He Hnow Hpos. cbv zeta. rewrite timeWindow_max. split; [|done].
  unfold timeWindow. rewrite (firstTx_earliest _ _ _ He Hnow).
  rewrite (decide_False (P := _ ∨ _)).
  2:{ intros [Hlen| ->]; [|by apply Qclt_not_eq in Hnow].
      destruct He as [He _]. destruct assets; [by apply Exists_nil in He|done]. }
  simpl. assert (T0 - T0 * EPSILON < T0) as Hlt by (unfold EPSILON; qc_lra).
  rewrite decide_False; [done|].
  apply Qclt_not_le. by etrans.
Qed.

(** ** Point query *)

Lemma clampRatio_bounds (r : Qc) : 0 ≤ clampRatio r ≤ 1.
Proof.
  unfold clampRatio, Math_max, Math_min.
  repeat case_decide; split; try done; try apply Qcle_refl; qc_lra.
Qed.

Lemma clampRatio_cases (r : Qc) :
  clampRatio r = if decide (r < 0) then 0 else if decide (1 < r) then 1 else r.
Proof.
  unfold clampRatio, Math_max, Math_min.
  repeat case_decide; try done; try (exfalso; qc_lra).
  all: apply Qcle_antisym; qc_lra.
Qed.

Lemma number_le (a b : Z) : (a ≤ b)%Z → number a ≤ number b.
Proof. intros H. unfold Qcle, number. simpl. by rewrite <-Zle_Qle. Qed.

Lemma Math_floor_number (z : Z) : Math_floor (number z) = z.
Proof. unfold Math_floor, number. simpl. apply Qfloor_Z. Qed.

Lemma Math_floor_mono (a b : Qc) : a ≤ b → (Math_floor a ≤ Math_floor b)%Z.
Proof. intros. unfold Math_floor. by apply Qfloor_resp_le. Qed.

Lemma hoverIndex_bounds (chartData : list ChartDataPoint) (ratio : Qc) :
  chartData ≠ [] → 0 ≤ ratio ≤ 1 →
  (0 ≤ hoverIndex chartData ratio ≤ Z.of_nat (length chartData) - 1)%Z.
Proof.
  intros Hne [H0 H1]. unfold hoverIndex.
  set (m := (Z.of_nat (length chartData) - 1)%Z).
  assert (0 ≤ m)%Z as Hm by (destruct chartData; [done|simpl in *; lia]).
  assert (0 ≤ number m) as Hm' by (by apply (number_le 0 m)).
  split.
  - rewrite <-(Math_floor_number 0). apply Math_floor_mono.
    by apply Qcmult_nonneg_nonneg.
  - rewrite <-(Math_floor_number m) at 2. apply Math_floor_mono.
    rewrite <-(Qcmult_1_l (number m)) at 2.
    by apply Qcmult_le_compat_r.
Qed.

(** C9.  On a non-empty point list, for every raw ratio [r]: the ratio is
    clamped to [[0, 1]], the index is [floor (ratio * (length - 1))], it lies
    in [[0, length - 1]], and the handler reports the point stored at that
    index, as it is. *)
Theorem point_query_in_bounds (chartData : list ChartDataPoint) (r : Qc) :
  chartData ≠ [] →
  let ratio := clampRatio r in
  let index := hoverIndex chartData ratio in
  0 ≤ ratio ≤ 1
  ∧ ratio = (if decide (r < 0) then 0 else if decide (1 < r) then 1 else r)
  ∧ index = Math_floor (ratio * number (Z.of_nat (length chartData) - 1))
  ∧ (0 ≤ index ≤ Z.of_nat (length chartData) - 1)%Z
  ∧ ∃ dataPoint, chartData !! Z.to_nat index = Some dataPoint
      ∧ ∀ maxY rectLeft rectWidth rectHeight clientX,
          rectWidth ≠ 0 → (clientX - rectLeft) / rectWidth = r →
          data <$> handleMouseMove chartData maxY rectLeft rectWidth rectHeight clientX
          = Some dataPoint.
Proof.
  intros Hne ratio index.
  pose proof (clampRatio_bounds r) as Hr.
  pose proof (hoverIndex_bounds chartData ratio Hne Hr) as Hi.
  split; [done|]. split; [apply clampRatio_cases|]. split; [done|].
  split; [done|].
  destruct (lookup_lt_is_Some_2 chartData (Z.to_nat index)) as [dp Hdp]; [lia|].
  exists dp. split; [done|].
  intros maxY rectLeft rectWidth rectHeight clientX Hw Hx.
  unfold handleMouseMove.
  rewrite decide_False by (by destruct chartData).
  rewrite decide_False by done. rewrite Hx. fold ratio. fold index.
  unfold at_index. rewrite decide_True by lia. by rewrite Hdp.
Qed.

(** ** Price from history *)

Lemma interpolate_right (t1 v1 t2 v2 : Qc) :
  t1 < t2 → interpolate t2 t1 v1 t2 v2 = v2.
Proof.
  intros Hlt. unfold interpolate.
  assert (0 < t2 - t1) as Hspan by qc_lra.
  rewrite decide_True by done.
  field. intros Heq. rewrite Heq in Hspan. by apply Qclt_not_eq in Hspan.
Qed.

Lemma ascending_head (a : Qc * Qc) (h : list (Qc * Qc)) :
  strictlyAscending (a :: h) → ∀ j b, h !! j = Some b → a.1 < b.1.
Proof.
  revert a. induction h as [|x h IH]; intros a Hasc j b Hb; [done|].
  destruct Hasc as [Hax Hasc]. destruct j as [|j]; simpl in Hb.
  - by injection Hb as ->.
  - etrans; [exact Hax|]. by eapply IH.
Qed.

Lemma ascending_tail (a : Qc * Qc) (h : list (Qc * Qc)) :
  strictlyAscending (a :: h) → strictlyAscending h.
Proof. destruct h; [done|]. by intros [_ ?]. Qed.

Lemma ascending_lookup (h : list (Qc * Qc)) (i j : nat) (a b : Qc * Qc) :
  strictlyAscending h → h !! i = Some a → h !! j = Some b → (i < j)%nat →
  a.1 < b.1.
Proof.
  revert i j. induction h as [|x h IH]; intros i j Hasc Ha Hb Hij; [done|].
  destruct j as [|j]; [lia|]. destruct i as [|i]; simpl in *.
  - injection Ha as ->. by eapply ascending_head.
  - eapply (IH i j); eauto using ascending_tail. lia.
Qed.

Lemma findIndex_sample (h : list (Qc * Qc)) (i : nat) (ts p : Qc) :
  strictlyAscending h → h !! i = Some (ts, p) →
  findIndex (λ q, ts ≤ q.1) h = Some i.
Proof.
  intros Hasc Hi. unfold findIndex.
  assert (list_find (λ q : Qc * Qc, ts ≤ q.1) h = Some (i, (ts, p))) as ->; [|done].
  apply list_find_Some. split; [done|]. split; [apply Qcle_refl|].
  intros j y Hj Hlt. apply Qclt_not_le.
  by apply (ascending_lookup h j i y (ts, p)).
Qed.

Lemma historyPrice_sample (h : list (Qc * Qc)) (i : nat) (ts p : Qc) :
  strictlyAscending h → h !! i = Some (ts, p) → historyPrice h ts = Some p.
Proof.
  intros Hasc Hi. unfold historyPrice.
  rewrite (findIndex_sample h i ts p Hasc Hi).
  destruct i as [|i]; [by rewrite Hi|].
  replace (S i - 1)%nat with i by lia.
  destruct (lookup_lt_is_Some_2 h i) as [[t1 v1] H1];
    [apply lookup_lt_Some in Hi; lia|].
  rewrite H1, Hi. simpl. f_equal. apply interpolate_right.
  apply (ascending_lookup h i (S i) (t1, v1) (ts, p)); auto.
Qed.

(** C2.  For an asset whose price history is non-empty with strictly
    ascending timestamps, the estimate at the timestamp of any sample is that
    sample's price; the first sample is served by the left clamp, the others
    by the interpolation formula at its right end, and past the last sample
    the right clamp gives the last price. *)
Theorem history_exact_at_samples (priceAnchors : gmap string (list Anchor))
    (asset : Asset) (h : list (Qc * Qc)) (i : nat) (ts p : Qc) :
  priceHistory asset = Some h → strictlyAscending h → h !! i = Some (ts, p) →
  historyPrice h ts = Some p
  ∧ estimatePrice priceAnchors asset ts = Some p
  ∧ (i = 0%nat → ∀ t, t ≤ ts → historyPrice h t = Some p)
  ∧ (i = (length h - 1)%nat → ∀ t, ts < t → historyPrice h t = Some p)
  ∧ (∀ t1 v1, h !! (i - 1)%nat = Some (t1, v1) → (0 < i)%nat →
       historyPrice h ts = Some (v1 + (p - v1) * ((ts - t1) / (ts - t1)))).
Proof.
  intros Hh Hasc Hi.
  pose proof (historyPrice_sample h i ts p Hasc Hi) as Hs.
  split; [done|]. split; [|split; [|split]].
  - unfold estimatePrice, hasHistory. rewrite Hh. simpl.
    rewrite bool_decide_true; [done|]. apply lookup_lt_Some in Hi. lia.
  - intros -> t Ht. unfold historyPrice, findIndex.
    assert (list_find (λ q : Qc * Qc, t ≤ q.1) h = Some (0%nat, (ts, p))) as ->.
    { apply list_find_Some. split; [done|]. split; [done|]. intros; lia. }
    simpl. by rewrite Hi.
  - intros -> t Ht. unfold historyPrice, findIndex.
    assert (list_find (λ q : Qc * Qc, t ≤ q.1) h = None) as ->.
    { apply list_find_None. apply Forall_lookup. intros j [tj vj] Hj. simpl.
      apply Qclt_not_le.
      destruct (decide (j = length h - 1)%nat) as [->|Hne].
      - rewrite Hi in Hj. by injection Hj as -> ->.
      - etrans; [|exact Ht].
        apply (ascending_lookup h j (length h - 1) (tj, vj) (ts, p)); auto.
        apply lookup_lt_Some in Hj. lia. }
    simpl. by rewrite Hi.
  - intros t1 v1 H1 Hpos. unfold historyPrice.
    rewrite (findIndex_sample h i ts p Hasc Hi).
    destruct i as [|i]; [lia|]. rewrite H1, Hi. simpl. f_equal.
    unfold interpolate. rewrite decide_True; [done|].
    assert (t1 < ts) as Hlt.
    { apply (ascending_lookup h (S i - 1) (S i) (t1, v1) (ts, p)); auto. lia. }
    qc_lra.
Qed.

(** ** Price from anchors *)

(** C3.  One transaction of quantity 1 at price 100 on [day0], current price
    150, no price history, the clock ten days after [day0]: the anchors are
    exactly [(day0, 100)] and [(now, 150)], in this order, and the estimate
    five days after [day0] is 125 (so the holding is worth 125 there). *)
Theorem anchor_fallback_scenario (asset : Asset) (tx : Transaction) :
  transactions asset = [tx] →
  quantity tx = number 1 → pricePerCoin tx = number 100 →
  currentPrice asset = number 150 → hasHistory asset = false →
  let day0 := getTime (date tx) in
  let now := day0 + number 10 * DAY in
  let t := day0 + number 5 * DAY in
  let anchors := [mkAnchor day0 (number 100); mkAnchor now (number 150)] in
  sortAnchors (rawAnchors now asset) = anchors
  ∧ uniqueAnchorsOf (sortAnchors (rawAnchors now asset)) = Some anchors
  ∧ buildPriceAnchors now [asset] = Some {[ id asset := anchors ]}
  ∧ estimatePrice {[ id asset := anchors ]} asset t = Some (number 125)
  ∧ stack <$> pointAt {[ id asset := anchors ]} [asset] t
    = Some {[ id asset := number 125 ]}.
Proof.
  intros Htxs Hq Hp Hcur Hhist day0 now t anchors.
  assert (day0 < now) as Hnow by (unfold now; rewrite DAY_value; qc_lra).
  assert (day0 < t) as Ht0 by (unfold t; rewrite DAY_value; qc_lra).
  assert (t < now) as Ht1 by (unfold t, now; rewrite DAY_value; qc_lra).
  assert (sortAnchors (rawAnchors now asset) = anchors) as Hsort.
  { unfold rawAnchors. rewrite Htxs. simpl. rewrite Hp, Hcur.
    rewrite decide_True; [done|]. by apply Qclt_le_weak. }
  assert (uniqueAnchorsOf (sortAnchors (rawAnchors now asset)) = Some anchors)
    as Huniq.
  { rewrite Hsort. unfold uniqueAnchorsOf. simpl. by rewrite decide_True. }
  assert (estimatePrice {[ id asset := anchors ]} asset t = Some (number 125))
    as Hest.
  { unfold estimatePrice. rewrite Hhist, lookup_singleton_eq. simpl.
    unfold anchorPrice. simpl.
    rewrite (decide_False (P := t ≤ day0)) by (by apply Qclt_not_le).
    rewrite (decide_False (P := now ≤ t)) by (by apply Qclt_not_le).
    rewrite (decide_True (P := day0 ≤ t)) by (by apply Qclt_le_weak).
    rewrite (decide_True (P := t ≤ now)) by (by apply Qclt_le_weak).
    f_equal. unfold interpolate.
    rewrite decide_True by qc_lra.
    unfold t, now. rewrite DAY_value. qc_field. lra. }
  split; [done|]. split; [done|]. split; [|split; [done|]].
  - unfold buildPriceAnchors. simpl. unfold anchorsStep.
    rewrite Hhist, Huniq. simpl. by rewrite insert_empty.
  - unfold pointAt. simpl. unfold assetStep.
    rewrite Htxs. unfold cumulativeAt. simpl. unfold ledgerStep. simpl.
    rewrite (decide_True (P := day0 ≤ t)) by (by apply Qclt_le_weak).
    simpl. rewrite Hq.
    rewrite decide_False by (by apply Qclt_not_le).
    rewrite Hest. simpl. rewrite insert_empty. do 2 f_equal.
    by apply Qc_is_canon.
Qed.

(** ** Series synthesis *)

Lemma forEachM_app {S A} (body : S → A → option S) (l1 l2 : list A) (s : S) :
  forEachM body (l1 ++ l2) s = forEachM body l1 s ≫= forEachM body l2.
Proof.
  revert s. induction l1 as [|a l1 IH]; intros s; simpl; [done|].
  destruct (body s a); simpl; [apply IH | done].
Qed.

Lemma forEachM_cons {S A} (body : S → A → option S) (a : A) (l : list A) (s : S) :
  forEachM body (a :: l) s = body s a ≫= forEachM body l.
Proof. done. Qed.

Lemma assetStep_not_owned priceAnchors t asset totalCost totalVal stack :
  (cumulativeAt (transactions asset) t).1 ≤ 0 →
  assetStep priceAnchors t (totalCost, totalVal, stack) asset
  = Some (totalCost, totalVal, <[id asset := 0]> stack).
Proof.
  intros Hq. unfold assetStep.
  destruct (cumulativeAt (transactions asset) t) as [q c]. simpl in Hq.
  by rewrite decide_True.
Qed.

Lemma assetStep_totals priceAnchors t asset c v st st' :
  totals <$> assetStep priceAnchors t (c, v, st) asset
  = totals <$> assetStep priceAnchors t (c, v, st') asset.
Proof.
  unfold assetStep. destruct (cumulativeAt (transactions asset) t) as [q k].
  case_decide; [done|]. by destruct (estimatePrice priceAnchors asset t).
Qed.

Lemma forEachM_totals priceAnchors t assets c v st st' :
  totals <$> forEachM (assetStep priceAnchors t) assets (c, v, st)
  = totals <$> forEachM (assetStep priceAnchors t) assets (c, v, st').
Proof.
  revert c v st st'. induction assets as [|a assets IH]; intros c v st st'; [done|].
  rewrite !forEachM_cons.
  pose proof (assetStep_totals priceAnchors t a c v st st') as Hstep.
  destruct (assetStep priceAnchors t (c, v, st) a) as [[[c1 v1] s1]|],
           (assetStep priceAnchors t (c, v, st') a) as [[[c2 v2] s2]|];
    simpl in *; try done.
  injection Hstep as -> ->. apply IH.
Qed.

Lemma assetStep_stack priceAnchors t asset s s' k :
  assetStep priceAnchors t s asset = Some s' → id asset ≠ k →
  s'.2 !! k = s.2 !! k.
Proof.
  destruct s as [[c v] st]. unfold assetStep.
  destruct (cumulativeAt (transactions asset) t) as [q c0].
  case_decide.
  - intros [= <-] Hne. simpl. by rewrite lookup_insert_ne.
  - destruct (estimatePrice priceAnchors asset t); [|done].
    intros [= <-] Hne. simpl. by rewrite lookup_insert_ne.
Qed.

Lemma forEachM_stack priceAnchors t assets s s' k :
  forEachM (assetStep priceAnchors t) assets s = Some s' →
  Forall (λ a, id a ≠ k) assets → s'.2 !! k = s.2 !! k.
Proof.
  revert s. induction assets as [|a assets IH]; intros s Hrun Hall.
  - by injection Hrun as <-.
  - apply Forall_cons in Hall as [Ha Hall]. rewrite forEachM_cons in Hrun.
    destruct (assetStep priceAnchors t s a) as [s1|] eqn:Hstep; [|done].
    simpl in Hrun. rewrite (IH s1 Hrun Hall).
    by eapply assetStep_stack.
Qed.

Lemma pointAt_totals priceAnchors assets t :
  (λ d, (costBasis d, marketValue d)) <$> pointAt priceAnchors assets t
  = totals <$> forEachM (assetStep priceAnchors t) assets (0, 0, ∅).
Proof.
  unfold pointAt.
  by destruct (forEachM _ assets _) as [[[c v] st]|].
Qed.

(** C4.  Before its first transaction an asset has quantity 0; and wherever
    its accumulated quantity is at most 0, its pass through the loop writes 0
    as its value and leaves both running totals as they were, whatever the
    price data: the point has the [costBasis] and [marketValue] it would have
    without the asset, and the asset's entry of the breakdown is 0. *)
Theorem not_owned_contributes_nothing (priceAnchors : gmap string (list Anchor))
    (asset : Asset) (t : Qc) :
  (Forall (λ tx, t < getTime (date tx)) (transactions asset) →
     (cumulativeAt (transactions asset) t).1 = 0)
  ∧ ((cumulativeAt (transactions asset) t).1 ≤ 0 →
     (∀ totalCost totalVal stack,
        assetStep priceAnchors t (totalCost, totalVal, stack) asset
        = Some (totalCost, totalVal, <[id asset := 0]> stack))
     ∧ (∀ before after,
          (λ d, (costBasis d, marketValue d))
            <$> pointAt priceAnchors (before ++ asset :: after) t
          = (λ d, (costBasis d, marketValue d))
            <$> pointAt priceAnchors (before ++ after) t)
     ∧ (∀ before after d,
          pointAt priceAnchors (before ++ asset :: after) t = Some d →
          Forall (λ a, id a ≠ id asset) after →
          stack d !! id asset = Some 0)).
Proof.
  split.
  { intros Hall. by rewrite cumulativeAt_all_later. }
  intros Hq. split; [|split].
  - intros. by apply assetStep_not_owned.
  - intros before after. rewrite !pointAt_totals, !forEachM_app.
    destruct (forEachM _ before _) as [[[c v] st]|]; [|done].
    cbn [mbind option_bind]. rewrite forEachM_cons.
    rewrite assetStep_not_owned by done. cbn [mbind option_bind].
    apply forEachM_totals.
  - intros before after d Hd Hids. unfold pointAt in Hd.
    rewrite forEachM_app in Hd.
    destruct (forEachM _ before _) as [[[c v] st]|]; [|done].
    cbn [mbind option_bind] in Hd. rewrite forEachM_cons in Hd.
    rewrite assetStep_not_owned in Hd by done. cbn [mbind option_bind] in Hd.
    destruct (forEachM _ after _) as [[[c' v'] st']|] eqn:Hafter; [|done].
    simpl in Hd. injection Hd as <-. simpl.
    pose proof (forEachM_stack _ _ _ _ _ _ Hafter Hids) as Hst. simpl in Hst.
    by rewrite Hst, lookup_insert_eq.
Qed.

(** ** Stack geometry *)

Section StackProperties.

Variables (minTime maxTime computedMaxY : Qc).
Variable generatedData : list ChartDataPoint.

#[local] Abbreviation topPointsOf := (topPointsOf minTime maxTime computedMaxY generatedData).
#[local] Abbreviation bottomPointsOf := (bottomPointsOf minTime maxTime computedMaxY generatedData).
#[local] Abbreviation stackStep := (stackStep minTime maxTime computedMaxY generatedData).
#[local] Abbreviation buildStack := (buildStack minTime maxTime computedMaxY generatedData).
#[local] Abbreviation sitsOn := (sitsOn minTime maxTime computedMaxY generatedData).
#[local] Abbreviation stackInv := (stackInv minTime maxTime computedMaxY generatedData).

Lemma updateBaselines_prefix (currentBaselines : list Qc) (topPoints : list TopPoint) :
  (length topPoints ≤ length currentBaselines)%nat →
  updateBaselines currentBaselines topPoints
  = (val <$> topPoints) ++ drop (length topPoints) currentBaselines.
Proof.
  unfold updateBaselines.
  induction topPoints as [|p tps IH] using rev_ind; intros Hlen; [done|].
  rewrite length_app in Hlen. simpl in Hlen.
  rewrite imap_app, foldl_app. simpl. rewrite Nat.add_0_r.
  rewrite IH by lia. rewrite fmap_app, length_app. simpl.
  rewrite insert_app_r_alt by (rewrite length_fmap; lia).
  rewrite length_fmap, Nat.sub_diag.
  destruct (drop (length tps) currentBaselines) as [|b rest] eqn:Hdrop.
  { apply (f_equal length) in Hdrop. rewrite length_drop in Hdrop.
    simpl in Hdrop. lia. }
  simpl. rewrite <-app_assoc. simpl. do 2 f_equal.
  by rewrite <-drop_drop, Hdrop.
Qed.

(** After the update the baselines are the values of the top line. *)
Lemma updateBaselines_vals (currentBaselines : list Qc) (topPoints : list TopPoint) :
  length topPoints = length currentBaselines →
  updateBaselines currentBaselines topPoints = val <$> topPoints.
Proof.
  intros Hlen. rewrite updateBaselines_prefix by lia.
  rewrite Hlen, drop_all. apply app_nil_r.
Qed.

Lemma length_topPointsOf b a : length (topPointsOf b a) = length generatedData.
Proof. apply length_imap. Qed.

Lemma sitsOn_mono assets assets' lower upper :
  assets ⊆ assets' → sitsOn assets lower upper → sitsOn assets' lower upper.
Proof. intros Hsub (a & Ha & H). exists a. split; [by apply Hsub | done]. Qed.

Lemma stackInv_step (seen : list Asset) st idx asset :
  stackInv seen st → stackInv (seen ++ [asset]) (stackStep st (idx, asset)).
Proof.
  destruct st as [paths b]. intros (Hlen & Hshort & Hlens & Hlast & Hchain).
  simpl in *.
  assert (seen ⊆ seen ++ [asset]) as Hsub by (intros x; set_solver).
  unfold stackStep.
  destruct (negb _).
  { repeat split; simpl; eauto using sitsOn_mono. }
  pose proof (length_topPointsOf b asset) as Htop.
  rewrite updateBaselines_vals by congruence.
  case_decide as Hlong; simpl.
  - repeat split; simpl.
    + by rewrite length_fmap.
    + rewrite Htop in Hlong. lia.
    + apply Forall_app. split; [done|]. by repeat constructor.
    + intros p. rewrite last_snoc. by intros [= <-].
    + intros k lower upper Hlo Hup.
      destruct (decide (S k < length paths)%nat) as [Hin|Hout].
      * rewrite lookup_app_l in Hlo by lia. rewrite lookup_app_l in Hup by lia.
        eauto using sitsOn_mono.
      * assert (S k = length paths) as Hk.
        { apply lookup_lt_Some in Hup. rewrite length_app in Hup.
          simpl in Hup. lia. }
        rewrite lookup_app_l in Hlo by lia.
        rewrite Hk, lookup_app_r, Nat.sub_diag in Hup by lia.
        injection Hup as <-.
        assert (last paths = Some lower) as Hl.
        { rewrite last_lookup, <-Hk. done. }
        specialize (Hlast lower Hl). exists asset. simpl.
        rewrite Hlast. split; [set_solver | done].
  - assert (paths = []) as -> by (apply Hshort; rewrite Htop in Hlong; lia).
    repeat split; simpl; try done.
    by rewrite length_fmap.
Qed.

Lemma stackInv_fold (ias : list (nat * Asset)) (seen : list Asset) st :
  stackInv seen st → stackInv (seen ++ ias.*2) (foldl stackStep st ias).
Proof.
  revert seen st. induction ias as [|[idx a] ias IH]; intros seen st Hinv; simpl.
  - by rewrite app_nil_r.
  - rewrite cons_middle, app_assoc. apply IH. by apply stackInv_step.
Qed.

Lemma imap_pair_snd {A} (l : list A) : (imap pair l).*2 = l.
Proof.
  induction l as [|x l IH] using rev_ind; [done|].
  rewrite imap_app, fmap_app, IH. done.
Qed.

Lemma stackInv_buildStack (assets : list Asset) : stackInv assets (buildStack assets).
Proof.
  unfold buildStack.
  rewrite <-(imap_pair_snd assets) at 1.
  apply (stackInv_fold (imap pair assets) []).
  repeat split; simpl; try done.
  apply length_replicate.
Qed.

End StackProperties.

(** C7.  In the geometry built from any series, two regions emitted one after
    the other share a line: the later one was built from the baseline array
    holding exactly the values of the earlier one's top line, so at every
    point index its bottom point is the earlier region's top value and its own
    top is that value plus the asset's value there. *)
Theorem baseline_continuity (minTime maxTime computedMaxY : Qc)
    (generatedData : list ChartDataPoint) (assets : list Asset)
    (k : nat) (lower upper : StackedPath) :
  let paths := (buildStack minTime maxTime computedMaxY generatedData assets).1 in
  paths !! k = Some lower → paths !! S k = Some upper →
  ∃ asset, asset ∈ assets ∧ key upper = id asset
    ∧ bottomPoints upper
      = bottomPointsOf minTime maxTime computedMaxY generatedData
          (val <$> topPoints lower)
    ∧ topPoints upper
      = topPointsOf minTime maxTime computedMaxY generatedData
          (val <$> topPoints lower) asset
    ∧ ∀ i d, generatedData !! i = Some d →
        ∃ p, topPoints lower !! i = Some p
          ∧ reverse (bottomPoints upper) !! i
            = Some (mkPt (getX minTime maxTime (timestamp d))
                         (getY computedMaxY (val p)))
          ∧ topPoints upper !! i
            = Some (mkTop (getX minTime maxTime (timestamp d))
                          (getY computedMaxY (val p + stackValue d asset))
                          (val p + stackValue d asset)).
Proof.
  intros paths Hlo Hup.
  pose proof (stackInv_buildStack minTime maxTime computedMaxY generatedData assets)
    as (_ & _ & Hlens & _ & Hchain).
  destruct (Hchain k lower upper Hlo Hup) as (asset & Hin & Hkey & Htop & Hbot).
  exists asset. repeat (split; [done|]).
  intros i d Hd.
  rewrite Forall_forall in Hlens.
  assert (length (topPoints lower) = length generatedData) as Hl.
  { apply Hlens. apply list_elem_of_lookup. eauto. }
  destruct (lookup_lt_is_Some_2 (topPoints lower) i) as [p Hp].
  { rewrite Hl. by eapply lookup_lt_Some. }
  exists p. split; [done|].
  assert ((val <$> topPoints lower) !!! i = val p) as Hv.
  { apply list_lookup_total_correct. by rewrite list_lookup_fmap, Hp. }
  split.
  - rewrite Hbot. unfold bottomPointsOf. rewrite reverse_involutive.
    by rewrite list_lookup_imap, Hd, Hv.
  - rewrite Htop. unfold topPointsOf.
    by rewrite list_lookup_imap, Hd, Hv.
Qed.

(** ** No exception *)

Lemma forEachM_is_Some {S A} (body : S → A → option S) (l : list A) (s : S) :
  (∀ s a, a ∈ l → is_Some (body s a)) → is_Some (forEachM body l s).
Proof.
  revert s. induction l as [|a l IH]; intros s Hbody; [by eexists|].
  rewrite forEachM_cons.
  destruct (Hbody s a) as [s' ->]; [set_solver|]. simpl.
  apply IH. intros s0 a0 Ha0. apply Hbody. set_solver.
Qed.

Lemma dedupLoop_is_Some (anchors : list Anchor) (n i : nat) (acc : list Anchor) :
  (1 ≤ i)%nat → (i + n ≤ length anchors)%nat →
  is_Some (dedupLoop anchors n i acc).
Proof.
  revert i acc. induction n as [|n IH]; intros i acc Hi Hlen; [by eexists|].
  simpl.
  destruct (lookup_lt_is_Some_2 anchors i) as [ai ->]; [lia|].
  destruct (lookup_lt_is_Some_2 anchors (i - 1)) as [ap ->]; [lia|].
  simpl. apply IH; lia.
Qed.

Lemma uniqueAnchorsOf_is_Some (anchors : list Anchor) :
  is_Some (uniqueAnchorsOf anchors).
Proof.
  unfold uniqueAnchorsOf. case_decide as Hlen; [|by eexists].
  destruct (lookup_lt_is_Some_2 anchors 0) as [a0 ->]; [lia|]. simpl.
  apply dedupLoop_is_Some; lia.
Qed.

Lemma buildPriceAnchors_is_Some now assets : is_Some (buildPriceAnchors now assets).
Proof.
  apply forEachM_is_Some. intros m a _. unfold anchorsStep.
  destruct (hasHistory a); [by eexists|].
  destruct (uniqueAnchorsOf_is_Some (sortAnchors (rawAnchors now a))) as [u ->].
  by eexists.
Qed.

Lemma historyPrice_is_Some (h : list (Qc * Qc)) (t : Qc) :
  (0 < length h)%nat → is_Some (historyPrice h t).
Proof.
  intros Hlen. unfold historyPrice, findIndex.
  destruct (list_find _ h) as [[idx x]|] eqn:Hfind; simpl.
  - apply list_find_Some in Hfind as (Hidx & _ & _).
    destruct idx as [|idx].
    + rewrite Hidx. by eexists.
    + destruct (lookup_lt_is_Some_2 h (S idx - 1)) as [p1 ->].
      { apply lookup_lt_Some in Hidx. lia. }
      rewrite Hidx. by eexists.
  - destruct (lookup_lt_is_Some_2 h (length h - 1)) as [p ->]; [lia|].
    by eexists.
Qed.

Lemma anchorLoop_is_Some (anchors : list Anchor) (cur t : Qc) (n k : nat) :
  (k + n < length anchors)%nat → is_Some (anchorLoop anchors cur t n k).
Proof.
  revert k. induction n as [|n IH]; intros k Hlen; [by eexists|].
  simpl.
  destruct (lookup_lt_is_Some_2 anchors k) as [prev ->]; [lia|]. simpl.
  case_decide; [|apply IH; lia].
  destruct (lookup_lt_is_Some_2 anchors (k + 1)) as [next ->]; [lia|]. simpl.
  case_decide; [by eexists | apply IH; lia].
Qed.

Lemma anchorPrice_is_Some (anchors : list Anchor) (cur t : Qc) :
  is_Some (anchorPrice anchors cur t).
Proof.
  unfold anchorPrice. case_decide as Hlen; [|by eexists].
  destruct (lookup_lt_is_Some_2 anchors 0) as [first ->]; [lia|]. simpl.
  case_decide; [by eexists|].
  destruct (lookup_lt_is_Some_2 anchors (length anchors - 1)) as [last ->]; [lia|].
  simpl. case_decide; [by eexists|].
  apply anchorLoop_is_Some. lia.
Qed.

Lemma estimatePrice_is_Some priceAnchors asset t :
  is_Some (estimatePrice priceAnchors asset t).
Proof.
  unfold estimatePrice, hasHistory.
  destruct (priceHistory asset) as [h|]; simpl; [|apply anchorPrice_is_Some].
  case_bool_decide; [by apply historyPrice_is_Some | apply anchorPrice_is_Some].
Qed.

Lemma pointAt_is_Some priceAnchors assets t : is_Some (pointAt priceAnchors assets t).
Proof.
  unfold pointAt.
  destruct (forEachM_is_Some (assetStep priceAnchors t) assets (0, 0, ∅))
    as [[[c v] st] ->]; [|by eexists].
  intros [[c v] st] a _. unfold assetStep.
  destruct (cumulativeAt (transactions a) t) as [q k].
  case_decide; [by eexists|].
  destruct (estimatePrice_is_Some priceAnchors a t) as [e ->]. by eexists.
Qed.

Lemma generateData_is_Some priceAnchors assets minTime maxTime :
  is_Some (generateData priceAnchors assets minTime maxTime).
Proof.
  unfold generateData. apply mapM_is_Some_2, Forall_forall.
  intros i _. apply pointAt_is_Some.
Qed.

Lemma chart_is_Some assets timeRange customStart customEnd now :
  is_Some (chart assets timeRange customStart customEnd now).
Proof.
  unfold chart. destruct (timeWindow _ _ _ _ _) as [mn mx].
  destruct (buildPriceAnchors_is_Some now assets) as [pa ->]. simpl.
  destruct (generateData_is_Some pa assets mn mx) as [gd ->]. by eexists.
Qed.

(** ** The empty portfolio *)

Lemma mapM_total {A B} (f : A → option B) (g : A → B) (l : list A) :
  (∀ x, f x = Some (g x)) → mapM f l = Some (g <$> l).
Proof.
  intros Hf. apply mapM_Some. induction l; constructor; auto.
Qed.

Lemma foldl_maxYStep_zero (l : list ChartDataPoint) :
  Forall (λ d, marketValue d = 0 ∧ costBasis d = 0) l → foldl maxYStep 0 l = 0.
Proof.
  induction 1 as [|d l [Hm Hc] _ IH]; [done|].
  simpl. unfold maxYStep at 2. by rewrite Hm, Hc.
Qed.

Lemma getY_zero (computedMaxY : Qc) : getY computedMaxY 0 = height.
Proof. unfold getY, Qcdiv. ring. Qed.

Lemma stackStep_no_value mn mx my gd st idx asset :
  Forall (λ d, stackValue d asset = 0) gd → stackStep mn mx my gd st (idx, asset) = st.
Proof.
  intros Hzero. destruct st as [paths b]. unfold stackStep.
  assert (existsb (λ d, bool_decide (0 < stackValue d asset)) gd = false) as ->;
    [|done].
  induction Hzero as [|d l Hd _ IH]; [done|].
  simpl. rewrite IH, Hd. done.
Qed.

(** C8.  With no asset the chart has [steps + 1 = 151] points, each with
    [marketValue = 0], [costBasis = 0] and an empty breakdown; no region is
    emitted; the cost-basis line has 151 points, all at the ordinate of value
    0.  An asset whose value is 0 at every point passes through the stack
    loop without a region and without touching the baselines.  And for every
    asset list, selector, custom bounds and clock the computation ends with a
    result: no read of a missing array element is ever reached. *)
Theorem empty_portfolio_and_totality :
  (∀ timeRange customStart customEnd now,
     ∃ r, chart [] timeRange customStart customEnd now = Some r
       ∧ length (chartData r) = (steps + 1)%nat ∧ (steps + 1)%nat = 151%nat
       ∧ Forall (λ d, marketValue d = 0 ∧ costBasis d = 0 ∧ stack d = ∅)
                (chartData r)
       ∧ stackedPaths r = []
       ∧ maxY r = number 110
       ∧ length (costPathPoints r) = 151%nat
       ∧ Forall (λ p, pt_y p = getY (maxY r) 0 ∧ pt_y p = height)
                (costPathPoints r))
  ∧ (∀ minTime maxTime computedMaxY generatedData st idx asset,
       Forall (λ d, stackValue d asset = 0) generatedData →
       stackStep minTime maxTime computedMaxY generatedData st (idx, asset) = st)
  ∧ (∀ assets timeRange customStart customEnd now,
       is_Some (chart assets timeRange customStart customEnd now)).
Proof.
  split; [|split; [apply stackStep_no_value | apply chart_is_Some]].
  intros timeRange customStart customEnd now. unfold chart.
  destruct (timeWindow _ _ _ _ _) as [mn mx].
  change (buildPriceAnchors now []) with (Some (∅ : gmap string (list Anchor))).
  cbn [mbind option_bind]. unfold generateData.
  rewrite (mapM_total _ (λ i : nat,
    mkPoint (mn + (mx - mn) / number (Z.of_nat steps) * number (Z.of_nat i)) 0 0 ∅))
    by done.
  cbn [mbind option_bind]. eexists. split; [done|]. cbn [chartData stackedPaths
    costPathPoints maxY].
  split; [by rewrite length_fmap, length_seq|]. split; [done|].
  split; [apply Forall_fmap, Forall_forall; by intros|].
  split; [done|].
  split.
  { unfold computeMaxY. rewrite foldl_maxYStep_zero.
    - by apply Qc_is_canon.
    - apply Forall_fmap, Forall_forall. by intros. }
  split; [unfold costPathPointsOf; by rewrite !length_fmap, length_seq|].
  unfold costPathPointsOf. apply Forall_fmap, Forall_fmap, Forall_forall.
  intros i _. simpl. by rewrite getY_zero.
Qed.

(** ** Independence from the transaction type *)

Lemma foldl_Forall2 {S A} (R : A → A → Prop) (f g : S → A → S) (l l' : list A) (s : S) :
  (∀ s a a', R a a' → f s a = g s a') → Forall2 R l l' →
  foldl f s l = foldl g s l'.
Proof.
  intros Hf Hl. revert s. induction Hl as [|a a' l l' Ha _ IH]; intros s; [done|].
  simpl. rewrite (Hf s a a' Ha). apply IH.
Qed.

Lemma forEachM_Forall2 {S A} (R : A → A → Prop) (f g : S → A → option S)
    (l l' : list A) (s : S) :
  (∀ s a a', R a a' → f s a = g s a') → Forall2 R l l' →
  forEachM f l s = forEachM g l' s.
Proof.
  intros Hf Hl. revert s. induction Hl as [|a a' l l' Ha _ IH]; intros s; [done|].
  rewrite !forEachM_cons, (Hf s a a' Ha).
  destruct (g s a'); [apply IH | done].
Qed.

Lemma cumulativeAt_retyped txs txs' t :
  Forall2 sameButType txs txs' → cumulativeAt txs t = cumulativeAt txs' t.
Proof.
  intros H. unfold cumulativeAt. eapply foldl_Forall2; [|exact H].
  intros acc a a' (_ & Hq & _ & Hd & Hc). unfold ledgerStep.
  by rewrite Hq, Hd, Hc.
Qed.

Lemma firstTx_retyped now assets assets' :
  Forall2 sameButTxTypes assets assets' → firstTx now assets = firstTx now assets'.
Proof.
  intros H. unfold firstTx. eapply foldl_Forall2; [|exact H].
  intros first a a' Ha. destruct Ha as (_ & _ & _ & _ & _ & _ & _ & Htx).
  eapply foldl_Forall2; [|exact Htx].
  intros s x x' (_ & _ & _ & Hd & _). unfold firstTxStep. by rewrite Hd.
Qed.

Lemma timeWindow_retyped timeRange customStart customEnd now assets assets' :
  Forall2 sameButTxTypes assets assets' →
  timeWindow timeRange customStart customEnd now assets
  = timeWindow timeRange customStart customEnd now assets'.
Proof.
  intros H. unfold timeWindow.
  by rewrite (firstTx_retyped now _ _ H), (Forall2_length _ _ _ H).
Qed.

Lemma hasHistory_retyped a a' : sameButTxTypes a a' → hasHistory a = hasHistory a'.
Proof.
  intros (_ & _ & _ & _ & _ & _ & Hh & _). unfold hasHistory. by rewrite Hh.
Qed.

Lemma rawAnchors_retyped now a a' :
  sameButTxTypes a a' → rawAnchors now a = rawAnchors now a'.
Proof.
  intros (_ & _ & _ & Hcur & _ & _ & _ & Htx). unfold rawAnchors.
  rewrite Hcur. f_equal.
  induction Htx as [|x x' l l' (_ & _ & Hp & Hd & _) _ IH]; [done|].
  rewrite !fmap_cons. by rewrite Hp, Hd, IH.
Qed.

Lemma buildPriceAnchors_retyped now assets assets' :
  Forall2 sameButTxTypes assets assets' →
  buildPriceAnchors now assets = buildPriceAnchors now assets'.
Proof.
  intros H. unfold buildPriceAnchors. eapply forEachM_Forall2; [|exact H].
  intros m a a' Ha. unfold anchorsStep.
  rewrite (hasHistory_retyped _ _ Ha), (rawAnchors_retyped now _ _ Ha).
  by destruct Ha as (-> & _).
Qed.

Lemma estimatePrice_retyped priceAnchors a a' t :
  sameButTxTypes a a' → estimatePrice priceAnchors a t = estimatePrice priceAnchors a' t.
Proof.
  intros Ha. unfold estimatePrice. rewrite (hasHistory_retyped _ _ Ha).
  destruct Ha as (-> & _ & _ & -> & _ & _ & -> & _). done.
Qed.

Lemma pointAt_retyped priceAnchors assets assets' t :
  Forall2 sameButTxTypes assets assets' →
  pointAt priceAnchors assets t = pointAt priceAnchors assets' t.
Proof.
  intros H. unfold pointAt. f_equal. eapply forEachM_Forall2; [|exact H].
  intros [[c v] st] a a' Ha. unfold assetStep.
  rewrite (estimatePrice_retyped priceAnchors _ _ t Ha).
  destruct Ha as (-> & _ & _ & _ & _ & _ & _ & Htx).
  by rewrite (cumulativeAt_retyped _ _ t Htx).
Qed.

Lemma stackStep_same_id mn mx my gd st idx a a' :
  id a = id a' → stackStep mn mx my gd st (idx, a) = stackStep mn mx my gd st (idx, a').
Proof.
  intros Hid. destruct st as [paths b].
  unfold stackStep, topPointsOf, stackValue. by rewrite Hid.
Qed.

Lemma foldl_stackStep_retyped mn mx my gd (g : nat → nat) st assets assets' :
  Forall2 sameButTxTypes assets assets' →
  foldl (stackStep mn mx my gd) st (imap (λ i a, (g i, a)) assets)
  = foldl (stackStep mn mx my gd) st (imap (λ i a, (g i, a)) assets').
Proof.
  intros H. revert g st. induction H as [|a a' l l' Ha _ IH]; intros g st; [done|].
  simpl. destruct Ha as (Hid & _).
  rewrite (stackStep_same_id mn mx my gd st (g 0%nat) a a' Hid).
  apply (IH (g ∘ S)).
Qed.

Lemma buildStack_retyped mn mx my gd assets assets' :
  Forall2 sameButTxTypes assets assets' →
  buildStack mn mx my gd assets = buildStack mn mx my gd assets'.
Proof. intros H. by apply (foldl_stackStep_retyped mn mx my gd (λ i, i)). Qed.

(** C10.  The chart never reads [type]: two ledgers that differ only in the
    types of their transactions accumulate to the same quantity and cost at
    every time, two portfolios that differ only there have the same chart
    (series and regions), and a transaction dated at or before [t] has its
    quantity and cost added whether it is a BUY or a SELL, so that with
    quantities that are not negative the held quantity never goes down. *)
Theorem type_is_never_read :
  (∀ txs txs' t, Forall2 sameButType txs txs' →
     cumulativeAt txs t = cumulativeAt txs' t)
  ∧ (∀ assets assets' timeRange customStart customEnd now,
       Forall2 sameButTxTypes assets assets' →
       chart assets timeRange customStart customEnd now
       = chart assets' timeRange customStart customEnd now)
  ∧ (∀ t acc tx, getTime (date tx) ≤ t →
       ledgerStep t acc tx = (acc.1 + quantity tx, acc.2 + totalCost tx)
       ∧ (0 ≤ quantity tx → acc.1 ≤ (ledgerStep t acc tx).1)).
Proof.
  split; [apply cumulativeAt_retyped|]. split.
  - intros assets assets' timeRange customStart customEnd now H.
    unfold chart. rewrite (timeWindow_retyped _ _ _ _ _ _ H).
    destruct (timeWindow _ _ _ _ _) as [mn mx].
    rewrite (buildPriceAnchors_retyped _ _ _ H).
    destruct (buildPriceAnchors now assets') as [pa|]; [|done].
    cbn [mbind option_bind].
    assert (generateData pa assets mn mx = generateData pa assets' mn mx) as ->.
    { unfold generateData. apply mapM_ext. intros i. by apply pointAt_retyped. }
    destruct (generateData pa assets' mn mx) as [gd|]; [|done].
    cbn [mbind option_bind]. by rewrite (buildStack_retyped _ _ _ _ _ _ H).
  - intros t acc tx Hd. unfold ledgerStep. rewrite decide_True by done.
    split; [done|]. simpl. intros Hq. qc_lra.
Qed.


(** * Further properties of the chart *)

(** ** The window, selector by selector *)

(** X1.  The three fixed lookbacks give [now - 86400000], [now - 604800000]
    and [now - 2592000000] up to [now], whatever the assets and the custom
    bounds. *)
Theorem fixed_lookback_windows (customStart customEnd : string) (now : Qc)
    (assets : list Asset) :
  timeWindow R24H customStart customEnd now assets = (now - number 86400000, now)
  ∧ timeWindow R1W customStart customEnd now assets = (now - number 604800000, now)
  ∧ timeWindow R1M customStart customEnd now assets = (now - number 2592000000, now).
Proof.
  unfold timeWindow. rewrite DAY_value.
  change (7 * 24 * 60 * 60 * 1000)%Z with 604800000%Z.
  change (30 * 24 * 60 * 60 * 1000)%Z with 2592000000%Z.
  repeat split; cbv zeta; (rewrite decide_False; [done|]);
    apply Qclt_not_le; qc_lra.
Qed.

(** X2.  The custom selector.  With an empty start the end is not read and the
    window is the last day; with a start before the clock and no end it runs
    from the start to the clock; with a start before the end it is the two
    bounds. *)
Theorem custom_window_cases (customStart customEnd : string) (now : Qc)
    (assets : list Asset) :
  timeWindow RCUSTOM "" customEnd now assets = (now - DAY, now)
  ∧ (truthy customStart = true → getTime customStart < now →
     timeWindow RCUSTOM customStart "" now assets = (getTime customStart, now))
  ∧ (truthy customStart = true → truthy customEnd = true →
     getTime customStart < getTime customEnd →
     timeWindow RCUSTOM customStart customEnd now assets
     = (getTime customStart, getTime customEnd)).
Proof.
  unfold timeWindow. split; [|split].
  - cbn [truthy String.eqb negb]. cbv zeta. by rewrite decide_True.
  - intros -> Hlt. cbn [truthy String.eqb negb]. cbv zeta.
    rewrite decide_False; [done|]. by apply Qclt_not_le.
  - intros -> -> Hlt. cbv zeta.
    rewrite decide_False; [done|]. by apply Qclt_not_le.
Qed.

(** X3.  [firstTxTimestamp] is the least of the clock and of all transaction
    dates: it is below each of them and is one of them.  When no transaction
    is dated before the clock (none at all, or only later ones) and the clock
    is not before the epoch, the ALL range starts at
    [(now - DAY) - (now - DAY) * 0.00001]. *)
Theorem first_transaction_is_minimum (now : Qc) (assets : list Asset) :
  (firstTx now assets ≤ now
   ∧ Forall (λ a, Forall (λ tx, firstTx now assets ≤ getTime (date tx))
                         (transactions a)) assets)
  ∧ (firstTx now assets = now
     ∨ Exists (λ a, Exists (λ tx, firstTx now assets = getTime (date tx))
                           (transactions a)) assets)
  ∧ (Forall (λ a, Forall (λ tx, now ≤ getTime (date tx)) (transactions a)) assets →
     0 ≤ now →
     ∀ customStart customEnd,
       timeWindow RALL customStart customEnd now assets
       = ((now - DAY) - (now - DAY) * EPSILON, now)).
Proof.
  split; [apply firstTx_le|]. split; [apply firstTx_in|].
  intros Hlate Hnow customStart customEnd.
  assert (firstTx now assets = now) as Hfirst.
  { destruct (firstTx_in now assets) as [H|H]; [done|].
    apply Qcle_antisym; [apply firstTx_le|].
    apply Exists_exists in H as (a & Ha & H).
    apply Exists_exists in H as (tx & Htx & ->).
    rewrite Forall_forall in Hlate. specialize (Hlate a Ha).
    rewrite Forall_forall in Hlate. by apply Hlate. }
  unfold timeWindow. rewrite Hfirst.
  rewrite (decide_True (P := _ ∨ _)) by (by right).
  cbv zeta. rewrite decide_False; [done|].
  apply Qclt_not_le. rewrite DAY_value. unfold EPSILON. qc_lra.
Qed.

(** ** The anchors *)

Lemma insertAnchor_perm a l : insertAnchor a l ≡ₚ a :: l.
Proof.
  induction l as [|b l IH]; [done|]. simpl. case_decide; [done|].
  by rewrite IH, Permutation_swap.
Qed.

Lemma insertAnchor_sorted a l :
  StronglySorted (λ x y, time x ≤ time y) l →
  StronglySorted (λ x y, time x ≤ time y) (insertAnchor a l).
Proof.
  induction 1 as [|b l Hs IH Hb]; simpl; [by repeat constructor|].
  case_decide as Hab.
  - constructor; [by constructor|]. constructor; [done|].
    eapply Forall_impl; [exact Hb|]. intros c Hc. simpl in *. by etrans.
  - constructor; [done|].
    rewrite insertAnchor_perm. constructor; [|done].
    apply Qclt_le_weak. by apply Qcnot_le_lt.
Qed.

Lemma insertAnchor_filter a l τ :
  filter (λ x, time x = τ) (insertAnchor a l)
  = filter (λ x, time x = τ) (a :: l).
Proof.
  induction l as [|b l IH]; [done|]. simpl. case_decide as Hab; [done|].
  rewrite (filter_cons _ b), IH, !filter_cons.
  destruct (decide (time a = τ)) as [Ha|Ha], (decide (time b = τ)) as [Hb|Hb];
    try done.
  exfalso. apply Hab. rewrite Ha, Hb. apply Qcle_refl.
Qed.

Lemma sortAnchors_perm (l : list Anchor) : sortAnchors l ≡ₚ l.
Proof.
  unfold sortAnchors. induction l as [|a l IH]; [done|]. simpl.
  by rewrite insertAnchor_perm, IH.
Qed.

Lemma sortAnchors_sorted (l : list Anchor) :
  StronglySorted (λ x y, time x ≤ time y) (sortAnchors l).
Proof.
  unfold sortAnchors. induction l as [|a l IH]; [constructor|]. simpl.
  by apply insertAnchor_sorted.
Qed.

Lemma sortAnchors_filter (l : list Anchor) (τ : Qc) :
  filter (λ x, time x = τ) (sortAnchors l) = filter (λ x, time x = τ) l.
Proof.
  unfold sortAnchors. induction l as [|a l IH]; [done|]. simpl.
  by rewrite insertAnchor_filter, !filter_cons, IH.
Qed.

(** X4.  The sort of the anchors: the same anchors, in ascending order of
    time, and anchors of one time stay in the order they had (the price of a
    transaction dated at the clock stays before the current price). *)
Theorem sortAnchors_sorted_stable (l : list Anchor) :
  sortAnchors l ≡ₚ l
  ∧ StronglySorted (λ x y, time x ≤ time y) (sortAnchors l)
  ∧ ∀ τ, filter (λ x, time x = τ) (sortAnchors l) = filter (λ x, time x = τ) l.
Proof.
  split; [apply sortAnchors_perm|].
  split; [apply sortAnchors_sorted|].
  intros τ. apply sortAnchors_filter.
Qed.

Lemma dedupLoop_dedupFrom (anchors : list Anchor) (n i : nat)
    (acc : list Anchor) (prev : Anchor) (rest : list Anchor) :
  (1 ≤ i)%nat → anchors !! (i - 1)%nat = Some prev → drop i anchors = rest →
  length rest = n →
  dedupLoop anchors n i acc = Some (acc ++ dedupFrom prev rest).
Proof.
  revert i acc prev rest.
  induction n as [|n IH]; intros i acc prev rest Hi Hprev Hdrop Hlen.
  { destruct rest; [|done]. simpl. by rewrite app_nil_r. }
  destruct rest as [|a rest]; [done|]. simpl.
  assert (anchors !! i = Some a) as Ha.
  { rewrite <-(Nat.add_0_r i), <-lookup_drop, Hdrop. done. }
  rewrite Ha, Hprev. cbn [mbind option_bind].
  rewrite (IH (S i) _ a rest); try done.
  - case_decide; [|done]. by rewrite <-app_assoc.
  - lia.
  - by replace (S i - 1)%nat with i by lia.
  - replace (S i) with (i + 1)%nat by lia.
    by rewrite <-drop_drop, Hdrop.
  - by injection Hlen.
Qed.

Lemma uniqueAnchorsOf_cons (a0 : Anchor) (rest : list Anchor) :
  uniqueAnchorsOf (a0 :: rest) = Some (a0 :: dedupFrom a0 rest).
Proof.
  unfold uniqueAnchorsOf. rewrite decide_True by (simpl; lia).
  cbn [lookup list_lookup mbind option_bind].
  by rewrite (dedupLoop_dedupFrom (a0 :: rest) _ 1 [a0] a0 rest)
    by (simpl; try done; lia).
Qed.

Lemma dedupFrom_sublist prev l : dedupFrom prev l `sublist_of` l.
Proof.
  revert prev. induction l as [|a l IH]; intros prev; simpl; [done|].
  case_decide; [by apply sublist_skip | by apply sublist_cons].
Qed.

Lemma dedupFrom_above prev l :
  StronglySorted (λ x y, time x ≤ time y) (prev :: l) →
  Forall (λ b, time prev < time b) (dedupFrom prev l).
Proof.
  revert prev. induction l as [|a l IH]; intros prev Hs; simpl; [constructor|].
  apply StronglySorted_inv in Hs as [Hs Hprev].
  apply Forall_cons in Hprev as [Hpa _].
  case_decide as Hlt.
  - constructor; [done|]. eapply Forall_impl; [by apply IH|].
    intros b Hb. simpl in *. by etrans.
  - eapply Forall_impl; [by apply IH|].
    intros b Hb. simpl in *. eapply Qcle_lt_trans; [exact Hpa | exact Hb].
Qed.

Lemma dedupFrom_ascending prev l :
  StronglySorted (λ x y, time x ≤ time y) (prev :: l) →
  StronglySorted (λ x y, time x < time y) (dedupFrom prev l).
Proof.
  revert prev. induction l as [|a l IH]; intros prev Hs; simpl; [constructor|].
  pose proof (proj1 (StronglySorted_inv Hs)) as Hs'.
  case_decide; [|by apply IH].
  constructor; [by apply IH | by apply dedupFrom_above].
Qed.

Lemma filter_time_above (τ : Qc) (l : list Anchor) :
  Forall (λ b, τ < time b) l → filter (λ x, time x = τ) l = [].
Proof.
  induction 1 as [|b l Hb _ IH]; [done|].
  rewrite filter_cons, decide_False, IH; [done|].
  intros Heq. rewrite Heq in Hb. by apply Qclt_not_eq in Hb.
Qed.

Lemma dedupFrom_filter prev l τ :
  StronglySorted (λ x y, time x ≤ time y) (prev :: l) →
  filter (λ x, time x = τ) (dedupFrom prev l)
  = if decide (time prev = τ) then [] else take 1 (filter (λ x, time x = τ) l).
Proof.
  revert prev. induction l as [|a l IH]; intros prev Hs; simpl.
  { by case_decide. }
  pose proof (StronglySorted_inv Hs) as [Hs' Hprev].
  pose proof (StronglySorted_inv Hs') as [_ Ha].
  apply Forall_cons in Hprev as [Hpa Hpl].
  rewrite (filter_cons _ a l).
  destruct (decide (time prev < time a)) as [Hlt|Hnlt].
  - rewrite filter_cons, (IH a Hs').
    destruct (decide (time a = τ)) as [Haτ|Haτ].
    + rewrite decide_False; [done|].
      intros Heq. rewrite Heq, Haτ in Hlt. by apply Qclt_not_eq in Hlt.
    + case_decide as Hpτ; [|done].
      rewrite filter_time_above; [done|].
      eapply Forall_impl; [exact Ha|]. intros b Hb. simpl in *.
      rewrite <-Hpτ. by eapply Qclt_le_trans.
  - assert (time a = time prev) as Heq.
    { apply Qcle_antisym; [by apply Qcnot_lt_le | done]. }
    rewrite (IH a Hs'), Heq. by case_decide.
Qed.

(** X5.  On anchors in ascending order the deduplication never throws and
    keeps, of the anchors of each time, exactly the first: the result is a
    sublist with strictly ascending times that starts with the first
    anchor. *)
Theorem uniqueAnchors_of_sorted (anchors : list Anchor) :
  StronglySorted (λ x y, time x ≤ time y) anchors →
  ∃ uniqueAnchors, uniqueAnchorsOf anchors = Some uniqueAnchors
    ∧ uniqueAnchors `sublist_of` anchors
    ∧ StronglySorted (λ x y, time x < time y) uniqueAnchors
    ∧ head uniqueAnchors = head anchors
    ∧ ∀ τ, filter (λ x, time x = τ) uniqueAnchors
           = take 1 (filter (λ x, time x = τ) anchors).
Proof.
  intros Hs. destruct anchors as [|a0 rest].
  { exists []. repeat split; try done. constructor. }
  exists (a0 :: dedupFrom a0 rest). split; [apply uniqueAnchorsOf_cons|].
  split; [apply sublist_skip, dedupFrom_sublist|].
  split; [constructor; [by apply dedupFrom_ascending | by apply dedupFrom_above]|].
  split; [done|].
  intros τ. rewrite !filter_cons, dedupFrom_filter by done.
  case_decide; [done|]. done.
Qed.

(** ** The price estimate *)

Lemma progress_bounds (t t1 t2 : Qc) :
  t1 ≤ t → t ≤ t2 → 0 < t2 - t1 → 0 ≤ (t - t1) / (t2 - t1) ≤ 1.
Proof.
  intros H1 H2 Hspan. unfold Qcdiv.
  pose proof (Qcinv_pos _ Hspan) as Hinv. split.
  - apply Qcmult_nonneg_nonneg; [qc_lra | by apply Qclt_le_weak].
  - rewrite <-(Qcmult_inv_r (t2 - t1)).
    + apply Qcmult_le_compat_r; [qc_lra | by apply Qclt_le_weak].
    + intros Heq. rewrite Heq in Hspan. by apply Qclt_not_eq in Hspan.
Qed.

Lemma convex_bounds (lo hi v1 v2 p : Qc) :
  lo ≤ v1 ≤ hi → lo ≤ v2 ≤ hi → 0 ≤ p ≤ 1 → lo ≤ v1 + (v2 - v1) * p ≤ hi.
Proof. intros [??] [??] [??]. qc_unfold. nra. Qed.

Lemma interpolate_between (lo hi t t1 v1 t2 v2 : Qc) :
  t1 ≤ t → t ≤ t2 → lo ≤ v1 ≤ hi → lo ≤ v2 ≤ hi →
  lo ≤ interpolate t t1 v1 t2 v2 ≤ hi.
Proof.
  intros H1 H2 Hv1 Hv2. unfold interpolate. case_decide as Hspan; [|done].
  apply convex_bounds; try done. by apply progress_bounds.
Qed.

(** The three ways the history strategy produces its result. *)
Lemma historyPrice_cases (h : list (Qc * Qc)) (t v : Qc) :
  historyPrice h t = Some v →
  (∃ p, h !! 0%nat = Some p ∧ t ≤ p.1 ∧ v = p.2)
  ∨ (∃ p, last h = Some p ∧ Forall (λ q, q.1 < t) h ∧ v = p.2)
  ∨ (∃ idx p1 p2, h !! idx = Some p1 ∧ h !! S idx = Some p2
       ∧ p1.1 < t ∧ t ≤ p2.1 ∧ Forall (λ q, q.1 < t) (take (S idx) h)
       ∧ v = p1.2 + (p2.2 - p1.2) * ((t - p1.1) / (p2.1 - p1.1))).
Proof.
  unfold historyPrice, findIndex.
  destruct (list_find _ h) as [[idx x]|] eqn:Hfind; simpl.
  - apply list_find_Some in Hfind as (Hidx & Hx & Hbefore).
    destruct idx as [|idx].
    + rewrite Hidx. intros [= <-]. left. eauto.
    + replace (S idx - 1)%nat with idx by lia.
      destruct (h !! idx) as [p1|] eqn:Hp1; [|done]. rewrite Hidx. simpl.
      intros [= <-]. right. right. exists idx, p1, x.
      assert (p1.1 < t) as Hlt.
      { apply Qcnot_le_lt. apply (Hbefore idx p1 Hp1). lia. }
      repeat (split; [done|]). split.
      * apply Forall_lookup. intros j q Hj. apply lookup_take_Some in Hj as [Hj Hlt'].
        apply Qcnot_le_lt. apply (Hbefore j q Hj). lia.
      * unfold interpolate. rewrite decide_True; [done|]. qc_lra.
  - apply list_find_None in Hfind.
    replace (length h - 1)%nat with (pred (length h)) by lia.
    rewrite <-last_lookup. destruct (last h) as [p|] eqn:Hlast; [|done].
    simpl. intros [= <-]. right. left. exists p. split; [done|]. split; [|done].
    eapply Forall_impl; [exact Hfind|]. intros q Hq. by apply Qcnot_le_lt.
Qed.

(** X6.  The estimate from a price history lies within the range of the
    recorded prices, for every time and every non-empty history, in whatever
    order its samples come: the code interpolates only between a sample dated
    before [t] and the next one, dated at or after [t]. *)
Theorem history_estimate_in_range (h : list (Qc * Qc)) (lo hi t : Qc) :
  h ≠ [] → Forall (λ p, lo ≤ p.2 ≤ hi) h →
  ∃ v, historyPrice h t = Some v ∧ lo ≤ v ≤ hi.
Proof.
  intros Hne Hall.
  destruct (historyPrice_is_Some h t) as [v Hv].
  { destruct h; [done | simpl; lia]. }
  exists v. split; [done|].
  rewrite Forall_lookup in Hall.
  destruct (historyPrice_cases h t v Hv)
    as [(p & Hp & _ & ->)|[(p & Hp & _ & ->)|(i & p1 & p2 & H1 & H2 & Hlt & Hle & _ & ->)]].
  - by apply (Hall 0%nat).
  - rewrite last_lookup in Hp. by apply (Hall _ _ Hp).
  - apply convex_bounds; [by apply (Hall i) | by apply (Hall (S i)) |].
    apply progress_bounds; [by apply Qclt_le_weak | done | qc_lra].
Qed.

Lemma anchorLoop_segment (anchors : list Anchor) (cur t : Qc) (n k : nat)
    (prev last : Anchor) :
  anchors !! k = Some prev → time prev < t →
  (k + n = length anchors - 1)%nat →
  anchors !! (length anchors - 1)%nat = Some last → t < time last →
  ∃ j a b, (k ≤ j)%nat ∧ anchors !! j = Some a ∧ anchors !! S j = Some b
    ∧ time a < t ∧ t ≤ time b
    ∧ (∀ i c, (k ≤ i ≤ j)%nat → anchors !! i = Some c → time c < t)
    ∧ anchorLoop anchors cur t n k
      = Some (price a + (price b - price a) * ((t - time a) / (time b - time a))).
Proof.
  revert k prev. induction n as [|n IH]; intros k prev Hk Hprev Hlen Hlast Ht.
  { exfalso. rewrite Nat.add_0_r in Hlen. rewrite <-Hlen, Hk in Hlast.
    injection Hlast as <-. apply (irreflexivity Qclt t). by etrans. }
  simpl. rewrite Hk. cbn [mbind option_bind].
  rewrite decide_True by (by apply Qclt_le_weak).
  destruct (lookup_lt_is_Some_2 anchors (k + 1)) as [next Hnext]; [lia|].
  rewrite Hnext. cbn [mbind option_bind].
  case_decide as Hle.
  - exists k, prev, next. split; [lia|]. split; [done|].
    split; [by replace (S k) with (k + 1)%nat by lia|].
    split; [done|]. split; [done|]. split.
    + intros i c Hi Hc. assert (i = k) as -> by lia. by simplify_eq.
    + unfold interpolate. rewrite decide_True; [done|]. qc_lra.
  - apply Qcnot_le_lt in Hle.
    replace (k + 1)%nat with (S k) in Hnext by lia.
    destruct (IH (S k) next Hnext Hle) as (j & a & b & Hj & Ha & Hb & Hat & Htb & Hall & Hrun);
      [lia | done | done |].
    exists j, a, b. split; [lia|]. repeat (split; [done|]). split; [|done].
    intros i c Hi Hc. destruct (decide (i = k)) as [->|Hne].
    + by simplify_eq.
    + apply (Hall i c); [lia | done].
Qed.

(** X7.  With at least one anchor the fallback estimate is the first anchor's
    price (at or before it), the last anchor's price (at or after it), or the
    interpolation inside a pair of neighbouring anchors that holds [t], the
    earlier one dated strictly before [t].  So the default ([currentPrice]) is
    never the result, and the estimate lies within the range of the anchors'
    prices; the anchors need not be sorted for this. *)
Theorem anchor_estimate_cases (anchors : list Anchor) (cur lo hi t : Qc) :
  anchors ≠ [] →
  ∃ v first last, anchorPrice anchors cur t = Some v
    ∧ head anchors = Some first ∧ list.last anchors = Some last
    ∧ ((t ≤ time first ∧ v = price first)
       ∨ (time first < t ∧ time last ≤ t ∧ v = price last)
       ∨ (time first < t ∧ t < time last
          ∧ ∃ j a b, anchors !! j = Some a ∧ anchors !! S j = Some b
              ∧ time a < t ∧ t ≤ time b
              ∧ v = price a + (price b - price a) * ((t - time a) / (time b - time a))))
    ∧ (Forall (λ a, lo ≤ price a ≤ hi) anchors → lo ≤ v ≤ hi).
Proof.
  intros Hne. unfold anchorPrice.
  rewrite decide_True by (destruct anchors; [done | simpl; lia]).
  destruct (lookup_lt_is_Some_2 anchors 0) as [first Hfirst];
    [destruct anchors; [done | simpl; lia]|].
  destruct (lookup_lt_is_Some_2 anchors (length anchors - 1)) as [last Hlast];
    [destruct anchors; [done | simpl; lia]|].
  rewrite Hfirst. cbn [mbind option_bind].
  assert (head anchors = Some first) as Hhead by (by rewrite head_lookup).
  assert (list.last anchors = Some last) as Hl.
  { rewrite last_lookup. by replace (pred (length anchors)) with (length anchors - 1)%nat by lia. }
  case_decide as H1.
  { exists (price first), first, last. repeat (split; [done|]).
    split; [by left|]. intros Hall. rewrite Forall_lookup in Hall.
    by apply (Hall 0%nat). }
  apply Qcnot_le_lt in H1. rewrite Hlast. cbn [mbind option_bind].
  case_decide as H2.
  { exists (price last), first, last. repeat (split; [done|]).
    split; [right; by left|]. intros Hall. rewrite Forall_lookup in Hall.
    by apply (Hall _ _ Hlast). }
  apply Qcnot_le_lt in H2.
  destruct (anchorLoop_segment anchors cur t (length anchors - 1) 0 first last)
    as (j & a & b & _ & Ha & Hb & Hat & Htb & _ & ->); try done.
  eexists _, first, last. repeat (split; [done|]). split.
  - right. right. split; [done|]. split; [done|]. exists j, a, b. done.
  - intros Hall. rewrite Forall_lookup in Hall.
    apply convex_bounds; [by apply (Hall j) | by apply (Hall (S j)) |].
    apply progress_bounds; [by apply Qclt_le_weak | done | qc_lra].
Qed.

Lemma strictly_sorted_lookup (anchors : list Anchor) (i j : nat) (a b : Anchor) :
  StronglySorted (λ x y, time x < time y) anchors →
  anchors !! i = Some a → anchors !! j = Some b → (i < j)%nat → time a < time b.
Proof.
  intros Hs. revert i j. induction Hs as [|x l Hs IH Hx]; intros i j Ha Hb Hij;
    [done|].
  destruct j as [|j]; [lia|]. destruct i as [|i]; simpl in *.
  - injection Ha as ->. rewrite Forall_lookup in Hx. by apply (Hx j).
  - apply (IH i j); [done | done | lia].
Qed.

(** X8.  On anchors with strictly ascending times the fallback estimate at
    the time of an anchor is that anchor's price. *)
Theorem anchor_estimate_exact_at_anchors (anchors : list Anchor) (cur : Qc)
    (m : nat) (a : Anchor) :
  StronglySorted (λ x y, time x < time y) anchors → anchors !! m = Some a →
  anchorPrice anchors cur (time a) = Some (price a).
Proof.
  intros Hs Hm. pose proof (lookup_lt_Some _ _ _ Hm) as Hlen.
  unfold anchorPrice. rewrite decide_True by lia.
  destruct (lookup_lt_is_Some_2 anchors 0) as [first Hfirst]; [lia|].
  destruct (lookup_lt_is_Some_2 anchors (length anchors - 1)) as [last Hlast];
    [lia|].
  rewrite Hfirst. cbn [mbind option_bind]. case_decide as H1.
  { destruct (decide (m = 0%nat)) as [->|Hne]; [by simplify_eq|].
    exfalso. apply (Qcle_not_lt _ _ H1).
    apply (strictly_sorted_lookup anchors 0 m); [done | done | done | lia]. }
  apply Qcnot_le_lt in H1. rewrite Hlast. cbn [mbind option_bind].
  case_decide as H2.
  { destruct (decide (m = length anchors - 1)%nat) as [->|Hne]; [by simplify_eq|].
    exfalso. apply (Qcle_not_lt _ _ H2).
    apply (strictly_sorted_lookup anchors m (length anchors - 1));
      [done | done | done | lia]. }
  apply Qcnot_le_lt in H2.
  destruct (anchorLoop_segment anchors cur (time a) (length anchors - 1) 0 first last)
    as (j & x & b & _ & Hx & Hb & Hxt & Htb & Hall & ->); try done.
  assert (m = S j) as ->.
  { destruct (decide (m ≤ j)%nat) as [Hle|Hgt].
    - exfalso. apply (irreflexivity Qclt (time a)). apply (Hall m a); [lia | done].
    - destruct (decide (m = S j)) as [->|Hne]; [done|].
      exfalso. apply (Qcle_not_lt _ _ Htb).
      apply (strictly_sorted_lookup anchors (S j) m); [done | done | done | lia]. }
  simplify_eq. f_equal.
  assert (time a - time x ≠ 0) as Hspan.
  { intros Heq. assert (time a = time x) as Heq'.
    { rewrite <-(Qcplus_0_l (time x)), <-Heq. ring. }
    rewrite Heq' in Hxt. by apply (irreflexivity Qclt (time x)). }
  by field.
Qed.

Lemma anchorsStep_entries now (pa pa' : gmap string (list Anchor)) (a : Asset)
    (P : string → list Anchor → Prop) :
  anchorsStep now pa a = Some pa' →
  (∀ u, hasHistory a = false →
        uniqueAnchorsOf (sortAnchors (rawAnchors now a)) = Some u → P (id a) u) →
  (∀ k u, pa !! k = Some u → P k u) → ∀ k u, pa' !! k = Some u → P k u.
Proof.
  unfold anchorsStep. intros Hstep Hnew Hold k u Hk.
  destruct (hasHistory a) eqn:Hh; [by simplify_eq; eauto|].
  destruct (uniqueAnchorsOf _) as [u'|] eqn:Hu; [|done].
  simpl in Hstep. injection Hstep as <-.
  destruct (decide (id a = k)) as [<-|Hne].
  - rewrite lookup_insert_eq in Hk. injection Hk as <-. by apply Hnew.
  - rewrite lookup_insert_ne in Hk by done. by apply Hold.
Qed.

Lemma buildPriceAnchors_entries now (assets : list Asset)
    (pa : gmap string (list Anchor)) (P : string → list Anchor → Prop) :
  buildPriceAnchors now assets = Some pa →
  (∀ a u, a ∈ assets → hasHistory a = false →
          uniqueAnchorsOf (sortAnchors (rawAnchors now a)) = Some u → P (id a) u) →
  ∀ k u, pa !! k = Some u → P k u.
Proof.
  unfold buildPriceAnchors.
  assert (∀ k u, (∅ : gmap string (list Anchor)) !! k = Some u → P k u) as Hinit
    by (intros k u; by rewrite lookup_empty).
  revert Hinit. generalize (∅ : gmap string (list Anchor)) as pa0.
  induction assets as [|a assets IH]; intros pa0 Hinit Hrun Hnew.
  { by injection Hrun as <-. }
  rewrite forEachM_cons in Hrun.
  destruct (anchorsStep now pa0 a) as [pa1|] eqn:Hstep; [|done].
  cbn [mbind option_bind] in Hrun.
  apply (IH pa1); [|done|].
  - apply (anchorsStep_entries now pa0 pa1 a P Hstep); [|done].
    intros u Hh Hu. apply Hnew; [set_solver | done | done].
  - intros a' u Ha'. apply Hnew. set_solver.
Qed.

Lemma buildPriceAnchors_covers now (assets : list Asset)
    (pa0 pa : gmap string (list Anchor)) :
  forEachM (anchorsStep now) assets pa0 = Some pa →
  (∀ k, is_Some (pa0 !! k) → is_Some (pa !! k))
  ∧ (∀ a, a ∈ assets → hasHistory a = false → is_Some (pa !! id a)).
Proof.
  revert pa0. induction assets as [|a assets IH]; intros pa0 Hrun.
  { injection Hrun as <-. split; [done|]. intros a Ha. by apply elem_of_nil in Ha. }
  rewrite forEachM_cons in Hrun.
  destruct (anchorsStep now pa0 a) as [pa1|] eqn:Hstep; [|done].
  cbn [mbind option_bind] in Hrun. destruct (IH pa1 Hrun) as [Hmono Hcov].
  assert (∀ k, is_Some (pa0 !! k) → is_Some (pa1 !! k)) as Hmono1.
  { unfold anchorsStep in Hstep. destruct (hasHistory a); [by simplify_eq|].
    destruct (uniqueAnchorsOf _); [|done]. simpl in Hstep. injection Hstep as <-.
    intros k Hk. destruct (decide (id a = k)) as [<-|Hne].
    - rewrite lookup_insert_eq. by eexists.
    - by rewrite lookup_insert_ne. }
  split; [by eauto|].
  intros a' Ha' Hh. apply elem_of_cons in Ha' as [->|Ha']; [|by apply Hcov].
  apply Hmono. unfold anchorsStep in Hstep. rewrite Hh in Hstep.
  destruct (uniqueAnchorsOf _); [|done]. simpl in Hstep. injection Hstep as <-.
  rewrite lookup_insert_eq. by eexists.
Qed.

Lemma uniqueAnchors_of_raw now (a : Asset) (u : list Anchor) :
  uniqueAnchorsOf (sortAnchors (rawAnchors now a)) = Some u →
  u ≠ [] ∧ StronglySorted (λ x y, time x < time y) u
  ∧ u `sublist_of` sortAnchors (rawAnchors now a)
  ∧ ∀ τ, filter (λ x, time x = τ) u
         = take 1 (filter (λ x, time x = τ) (rawAnchors now a)).
Proof.
  pose proof (sortAnchors_sorted (rawAnchors now a)) as Hs.
  pose proof (sortAnchors_perm (rawAnchors now a)) as Hp.
  destruct (sortAnchors (rawAnchors now a)) as [|a0 rest] eqn:Hsort.
  { apply Permutation_nil_l in Hp. unfold rawAnchors in Hp.
    by destruct (_ <$> transactions a). }
  rewrite uniqueAnchorsOf_cons. intros [= <-]. split; [done|].
  split; [constructor; [by apply dedupFrom_ascending | by apply dedupFrom_above]|].
  split; [apply sublist_skip, dedupFrom_sublist|].
  intros τ. rewrite <-(sortAnchors_filter (rawAnchors now a)), Hsort.
  rewrite !filter_cons, dedupFrom_filter by done. by case_decide.
Qed.

(** X9.  The anchors kept for the chart.  Every asset without price history
    has an entry under its id, and every entry is the anchor list of such an
    asset: it is not empty, its times ascend strictly, and they are exactly
    the clock and the dates of that asset's transactions. *)
Theorem stored_anchors_well_formed (now : Qc) (assets : list Asset)
    (priceAnchors : gmap string (list Anchor)) :
  buildPriceAnchors now assets = Some priceAnchors →
  (∀ a, a ∈ assets → hasHistory a = false → is_Some (priceAnchors !! id a))
  ∧ (∀ k u, priceAnchors !! k = Some u →
       u ≠ [] ∧ StronglySorted (λ x y, time x < time y) u
       ∧ ∃ a, a ∈ assets ∧ id a = k ∧ hasHistory a = false
           ∧ ∀ τ, (∃ b, b ∈ u ∧ time b = τ)
                  ↔ (τ = now ∨ ∃ tx, tx ∈ transactions a ∧ getTime (date tx) = τ)).
Proof.
  intros Hrun. split; [by apply (buildPriceAnchors_covers now assets ∅)|].
  apply (buildPriceAnchors_entries now assets priceAnchors); [done|].
  intros a u Ha Hh Hu.
  destruct (uniqueAnchors_of_raw now a u Hu) as (Hne & Hs & _ & Hf).
  split; [done|]. split; [done|]. exists a. repeat (split; [done|]).
  intros τ.
  assert ((∃ b, b ∈ u ∧ time b = τ) ↔ (∃ b, b ∈ rawAnchors now a ∧ time b = τ))
    as ->.
  { specialize (Hf τ). split; intros (b & Hb & Hτ).
    - assert (b ∈ filter (λ x, time x = τ) u) as Hin
        by (by apply list_elem_of_filter).
      rewrite Hf in Hin. apply elem_of_take in Hin as (i & Hin & _).
      apply list_elem_of_lookup_2, list_elem_of_filter in Hin as [? ?]. eauto.
    - assert (b ∈ filter (λ x, time x = τ) (rawAnchors now a)) as Hin
        by (by apply list_elem_of_filter).
      destruct (filter (λ x, time x = τ) (rawAnchors now a)) as [|c l] eqn:Hraw;
        [by apply elem_of_nil in Hin|].
      assert (c ∈ filter (λ x, time x = τ) u) as Hc by (rewrite Hf; simpl; by left).
      apply list_elem_of_filter in Hc as [? ?]. eauto. }
  unfold rawAnchors. split.
  - intros (b & Hb & Hτ). apply elem_of_app in Hb as [Hb|Hb].
    + apply list_elem_of_fmap in Hb as (tx & -> & Htx). right. eauto.
    + apply list_elem_of_singleton in Hb as ->. by left.
  - intros [->|(tx & Htx & <-)].
    + eexists. split; [apply elem_of_app; right; by apply list_elem_of_singleton|done].
    + eexists. split; [apply elem_of_app; left;
                        apply list_elem_of_fmap; eexists; split; [done|exact Htx]|done].
Qed.

Lemma uniqueAnchors_prices now lo hi (a : Asset) (u : list Anchor) :
  pricesWithin lo hi a →
  uniqueAnchorsOf (sortAnchors (rawAnchors now a)) = Some u →
  Forall (λ b, lo ≤ price b ≤ hi) u.
Proof.
  intros (Hcur & Htx & _) Hu.
  destruct (uniqueAnchors_of_raw now a u Hu) as (_ & _ & Hsub & _).
  apply Forall_forall. intros b Hb.
  apply (elem_of_sublist _ _ _ Hb) in Hsub.
  rewrite sortAnchors_perm in Hsub. unfold rawAnchors in Hsub.
  apply elem_of_app in Hsub as [Hin|Hin].
  - apply list_elem_of_fmap in Hin as (tx & -> & Hin). simpl.
    rewrite Forall_forall in Htx. by apply Htx.
  - by apply list_elem_of_singleton in Hin as ->.
Qed.

Lemma estimatePrice_within (now lo hi : Qc) (assets : list Asset)
    (priceAnchors : gmap string (list Anchor)) (a : Asset) (t : Qc) :
  buildPriceAnchors now assets = Some priceAnchors →
  Forall (pricesWithin lo hi) assets → a ∈ assets →
  ∃ v, estimatePrice priceAnchors a t = Some v ∧ lo ≤ v ≤ hi.
Proof.
  intros Hrun Hall Ha. rewrite Forall_forall in Hall.
  destruct (Hall a Ha) as (Hcur & _ & Hhist).
  destruct (estimatePrice_is_Some priceAnchors a t) as [v Hv].
  exists v. split; [done|]. unfold estimatePrice in Hv.
  destruct (hasHistory a) eqn:Hh.
  - unfold hasHistory in Hh. destruct (priceHistory a) as [h|]; [|done].
    simpl in *. rewrite Forall_lookup in Hhist.
    destruct (historyPrice_cases h t v Hv)
      as [(p & Hp & _ & ->)|[(p & Hp & _ & ->)
          |(i & p1 & p2 & H1 & H2 & Hlt & Hle & _ & ->)]].
    + by apply (Hhist 0%nat).
    + rewrite last_lookup in Hp. by apply (Hhist _ _ Hp).
    + apply convex_bounds; [by apply (Hhist i) | by apply (Hhist (S i)) |].
      apply progress_bounds; [by apply Qclt_le_weak | done | qc_lra].
  - destruct (priceAnchors !! id a) as [u|] eqn:Hu; simpl in Hv.
    2:{ unfold anchorPrice in Hv. simpl in Hv. by injection Hv as <-. }
    assert (u ≠ [] ∧ Forall (λ b, lo ≤ price b ≤ hi) u) as [Hne Hbound].
    { revert Hu. apply (buildPriceAnchors_entries now assets priceAnchors
        (λ _ u, u ≠ [] ∧ Forall (λ b, lo ≤ price b ≤ hi) u)); [done|].
      intros a' u' Ha' _ Hu'.
      destruct (uniqueAnchors_of_raw now a' u' Hu') as (Hne & _).
      split; [done|]. apply (uniqueAnchors_prices now lo hi a'); [by apply Hall | done]. }
    rewrite Forall_lookup in Hbound.
    unfold anchorPrice in Hv.
    rewrite decide_True in Hv by (destruct u; [done | simpl; lia]).
    destruct (u !! 0%nat) as [first|] eqn:Hfirst; [|done].
    cbn [mbind option_bind] in Hv. case_decide as H1.
    { injection Hv as <-. by apply (Hbound 0%nat). }
    destruct (u !! (length u - 1)%nat) as [last|] eqn:Hlast; [|done].
    cbn [mbind option_bind] in Hv. case_decide as H2.
    { injection Hv as <-. by apply (Hbound _ _ Hlast). }
    apply Qcnot_le_lt in H1, H2.
    destruct (anchorLoop_segment u (currentPrice a) t (length u - 1) 0 first last)
      as (j & x & b & _ & Hx & Hb & Hxt & Htb & _ & Hrun'); try done.
    rewrite Hrun' in Hv. injection Hv as <-.
    apply convex_bounds; [by apply (Hbound j) | by apply (Hbound (S j)) |].
    apply progress_bounds; [by apply Qclt_le_weak | done | qc_lra].
Qed.

(** ** The series and its coordinates *)

Lemma timeWindow_lt timeRange customStart customEnd now assets :
  (timeWindow timeRange customStart customEnd now assets).1
  < (timeWindow timeRange customStart customEnd now assets).2.
Proof.
  unfold timeWindow.
  match goal with |- context [match timeRange with R24H => ?a | _ => _ end] =>
    destruct (match timeRange with R24H => a | R1W => _ | R1M => _
              | RALL => _ | RCUSTOM => _ end) as [mn mx] end.
  simpl. case_decide as Hle; [rewrite DAY_value; qc_lra | by apply Qcnot_le_lt].
Qed.

Lemma number_lt (a b : Z) : (a < b)%Z → number a < number b.
Proof. intros H. unfold Qclt, number. simpl. by rewrite <-Zlt_Qlt. Qed.

Lemma pointAt_timestamp priceAnchors assets t d :
  pointAt priceAnchors assets t = Some d → timestamp d = t.
Proof.
  unfold pointAt. destruct (forEachM _ _ _) as [[[c v] st]|]; [|done].
  by intros [= <-].
Qed.

Lemma generateData_lookup priceAnchors assets minTime maxTime gd :
  generateData priceAnchors assets minTime maxTime = Some gd →
  length gd = 151%nat
  ∧ ∀ i d, gd !! i = Some d →
      pointAt priceAnchors assets
        (minTime + (maxTime - minTime) / number (Z.of_nat steps) * number (Z.of_nat i))
      = Some d.
Proof.
  unfold generateData. intros Hgd. split.
  - apply length_mapM in Hgd. by rewrite <-Hgd, length_seq.
  - apply mapM_Some in Hgd. intros i d Hd.
    destruct (Forall2_lookup_r _ _ _ _ _ Hgd Hd) as (j & Hj & Hpt).
    apply lookup_seq in Hj as [-> _]. done.
Qed.

Lemma chart_inv assets timeRange customStart customEnd now r :
  chart assets timeRange customStart customEnd now = Some r →
  ∃ priceAnchors,
    buildPriceAnchors now assets = Some priceAnchors
    ∧ generateData priceAnchors assets (chart_minTime r) (chart_maxTime r)
      = Some (chartData r)
    ∧ (chart_minTime r, chart_maxTime r)
      = timeWindow timeRange customStart customEnd now assets
    ∧ maxY r = computeMaxY (chartData r)
    ∧ stackedPaths r
      = (buildStack (chart_minTime r) (chart_maxTime r) (maxY r) (chartData r)
           assets).1
    ∧ costPathPoints r
      = costPathPointsOf (chart_minTime r) (chart_maxTime r) (maxY r) (chartData r).
Proof.
  unfold chart. destruct (timeWindow _ _ _ _ _) as [mn mx].
  destruct (buildPriceAnchors now assets) as [pa|]; [|done].
  cbn [mbind option_bind].
  destruct (generateData pa assets mn mx) as [gd|] eqn:Hgd; [|done].
  cbn [mbind option_bind]. intros [= <-]. exists pa. done.
Qed.

(** X10.  The series of every chart: 151 points; point [i] stands at
    [minTime + i * (maxTime - minTime) / 150], the first at [minTime] and the
    last at [maxTime]; the timestamps ascend strictly; and point [i] of the
    cost-basis line has abscissa [i * (100 / 150)], whatever the window. *)
Theorem series_timestamps (assets : list Asset) (timeRange : TimeRange)
    (customStart customEnd : string) (now : Qc) (r : ChartResult) :
  chart assets timeRange customStart customEnd now = Some r →
  let stepSize := (chart_maxTime r - chart_minTime r) / number 150 in
  length (chartData r) = 151%nat ∧ length (costPathPoints r) = 151%nat
  ∧ (∀ i d, chartData r !! i = Some d →
       timestamp d = chart_minTime r + stepSize * number (Z.of_nat i))
  ∧ timestamp <$> head (chartData r) = Some (chart_minTime r)
  ∧ timestamp <$> last (chartData r) = Some (chart_maxTime r)
  ∧ (∀ i j d e, chartData r !! i = Some d → chartData r !! j = Some e →
       (i < j)%nat → timestamp d < timestamp e)
  ∧ (∀ i p, costPathPoints r !! i = Some p →
       pt_x p = number (Z.of_nat i) * (width / number 150)).
Proof.
  intros Hr stepSize.
  destruct (chart_inv _ _ _ _ _ _ Hr) as (pa & _ & Hgd & Hw & _ & _ & Hcost).
  destruct (generateData_lookup _ _ _ _ _ Hgd) as [Hlen Hpt].
  assert (chart_minTime r < chart_maxTime r) as Hlt.
  { pose proof (timeWindow_lt timeRange customStart customEnd now assets) as H.
    by rewrite <-Hw in H. }
  assert (∀ i d, chartData r !! i = Some d →
            timestamp d = chart_minTime r + stepSize * number (Z.of_nat i)) as Hts.
  { intros i d Hd. apply (pointAt_timestamp pa assets). by apply Hpt. }
  assert (0 < stepSize) as Hstep.
  { unfold stepSize, Qcdiv. apply Qcmult_pos_pos; [qc_lra | by apply Qcinv_pos]. }
  split; [done|]. split; [by rewrite Hcost; unfold costPathPointsOf; rewrite length_fmap|].
  split; [done|]. split; [|split; [|split]].
  - rewrite head_lookup.
    destruct (lookup_lt_is_Some_2 (chartData r) 0) as [d Hd]; [lia|].
    rewrite Hd. simpl. f_equal. rewrite (Hts 0%nat d Hd).
    change (Z.of_nat 0) with 0%Z.
    replace (number 0) with (0 : Qc) by (by apply Qc_is_canon).
    generalize stepSize. intros q. ring.
  - rewrite last_lookup, Hlen.
    destruct (lookup_lt_is_Some_2 (chartData r) (pred 151)) as [d Hd]; [lia|].
    rewrite Hd. simpl. f_equal. rewrite (Hts _ d Hd).
    change (Z.of_nat (pred 151)) with 150%Z.
    unfold stepSize. field. by intros H.
  - intros i j d e Hd He Hij. rewrite (Hts i d Hd), (Hts j e He).
    apply Qcplus_lt_mono_l, Qcmult_lt_mono_pos_l; [done|].
    apply number_lt. lia.
  - intros i p Hp. rewrite Hcost in Hp. unfold costPathPointsOf in Hp.
    rewrite list_lookup_fmap in Hp.
    destruct (chartData r !! i) as [d|] eqn:Hd; [|done].
    injection Hp as <-. simpl. rewrite (Hts i d Hd). unfold getX, stepSize.
    field. split; [by intros H|].
    intros Heq. assert (chart_maxTime r = chart_minTime r) as Heq'.
    { rewrite <-(Qcplus_0_l (chart_minTime r)), <-Heq. ring. }
    rewrite Heq' in Hlt. by apply (irreflexivity Qclt (chart_minTime r)).
Qed.

Lemma foldl_maxYStep_ge (l : list ChartDataPoint) (m : Qc) :
  m ≤ foldl maxYStep m l
  ∧ Forall (λ d, marketValue d ≤ foldl maxYStep m l
                 ∧ costBasis d ≤ foldl maxYStep m l) l.
Proof.
  revert m. induction l as [|d l IH]; intros m; simpl.
  { split; [apply Qcle_refl | constructor]. }
  destruct (IH (maxYStep m d)) as [Hm Hall].
  assert (m ≤ maxYStep m d ∧ marketValue d ≤ maxYStep m d
          ∧ costBasis d ≤ maxYStep m d) as (H1 & H2 & H3).
  { unfold maxYStep. repeat case_decide; repeat split; qc_lra. }
  split; [by etrans|]. constructor; [|done]. split; by etrans.
Qed.

Lemma Qc_div_bounds (v m c : Qc) :
  0 < m → 0 ≤ v → v ≤ c * m → 0 ≤ v / m ≤ c.
Proof.
  intros Hm Hv Hc. pose proof (Qcinv_pos _ Hm) as Hinv. split.
  - unfold Qcdiv. apply Qcmult_nonneg_nonneg; [done | by apply Qclt_le_weak].
  - apply (Qcmult_lt_0_le_reg_r _ _ m Hm). rewrite test_field; [done|].
    intros Heq. rewrite Heq in Hm. by apply (irreflexivity Qclt 0).
Qed.

(** X11.  The vertical scale.  [computedMaxY] is positive, so [getY] never
    divides by zero, and it is at least 1.1 times the market value and the
    cost basis of every point; a value [v] with [0 <= v] and
    [1.1 * v <= computedMaxY] is drawn between [height / 11] and [height]:
    inside the canvas, with the headroom above it. *)
Theorem vertical_scale_headroom (generatedData : list ChartDataPoint) :
  let computedMaxY := computeMaxY generatedData in
  0 < computedMaxY
  ∧ Forall (λ d, marketValue d * Q2Qc (11 # 10) ≤ computedMaxY
                 ∧ costBasis d * Q2Qc (11 # 10) ≤ computedMaxY) generatedData
  ∧ ∀ v, 0 ≤ v → v * Q2Qc (11 # 10) ≤ computedMaxY →
         height / number 11 ≤ getY computedMaxY v ≤ height.
Proof.
  intros computedMaxY.
  destruct (foldl_maxYStep_ge generatedData 0) as [H0 Hall].
  assert (0 < computedMaxY) as Hpos.
  { unfold computedMaxY, computeMaxY. case_decide as Hz; [done|].
    apply Qcmult_pos_pos; [|done].
    destruct (Qcle_lt_or_eq _ _ H0) as [?|Heq]; [done | by symmetry in Heq]. }
  split; [done|]. split.
  - eapply Forall_impl; [exact Hall|]. intros d [Hm Hc]. simpl in *.
    unfold computedMaxY, computeMaxY. case_decide as Hz.
    + rewrite Hz in Hm, Hc. split; qc_lra.
    + split; apply Qcmult_le_compat_r; done.
  - intros v Hv Hle.
    destruct (Qc_div_bounds v computedMaxY (Q2Qc (10 # 11)) Hpos Hv) as [Hq0 Hq1].
    { revert Hle. generalize computedMaxY. intros m Hle. qc_lra. }
    unfold getY. revert Hq0 Hq1. generalize (v / computedMaxY). intros q Hq0 Hq1.
    unfold height, Qcdiv.
    replace (/ number 11) with (Q2Qc (1 # 11)) by (by apply Qc_is_canon).
    split; qc_lra.
Qed.

(** ** The pointer *)

Lemma Qc_div_le_mono (x y w : Qc) : 0 < w → x ≤ y → x / w ≤ y / w.
Proof.
  intros Hw Hxy. unfold Qcdiv. apply Qcmult_le_compat_r; [done|].
  by apply Qclt_le_weak, Qcinv_pos.
Qed.

Lemma clampRatio_mono (r r' : Qc) : r ≤ r' → clampRatio r ≤ clampRatio r'.
Proof.
  intros H. unfold clampRatio, Math_max, Math_min.
  repeat case_decide; try done; try apply Qcle_refl; qc_lra.
Qed.

Lemma hoverIndex_mono (chartData : list ChartDataPoint) (r r' : Qc) :
  chartData ≠ [] → r ≤ r' → (hoverIndex chartData r ≤ hoverIndex chartData r')%Z.
Proof.
  intros Hne H. unfold hoverIndex. apply Math_floor_mono.
  apply Qcmult_le_compat_r; [done|].
  apply (number_le 0). destruct chartData; [done | simpl; lia].
Qed.

(** X12.  Where the pointer lands.  On a non-empty series and a container of
    positive width: at or left of the left edge the handler reports the first
    point, at or right of the right edge the last one, and moving the pointer
    to the right never moves the index to the left. *)
Theorem hover_edges_and_order (chartData : list ChartDataPoint)
    (maxY rectLeft rectWidth rectHeight : Qc) :
  chartData ≠ [] → 0 < rectWidth →
  (∀ clientX, clientX ≤ rectLeft →
     data <$> handleMouseMove chartData maxY rectLeft rectWidth rectHeight clientX
     = head chartData)
  ∧ (∀ clientX, rectLeft + rectWidth ≤ clientX →
       data <$> handleMouseMove chartData maxY rectLeft rectWidth rectHeight clientX
       = last chartData)
  ∧ (∀ clientX clientX', clientX ≤ clientX' →
       (hoverIndexAt chartData rectLeft rectWidth clientX
        ≤ hoverIndexAt chartData rectLeft rectWidth clientX')%Z)
  ∧ (∀ clientX,
       data <$> handleMouseMove chartData maxY rectLeft rectWidth rectHeight clientX
       = chartData !! Z.to_nat (hoverIndexAt chartData rectLeft rectWidth clientX)).
Proof.
  intros Hne Hw.
  assert (rectWidth ≠ 0) as Hw0.
  { intros Heq. rewrite Heq in Hw. by apply (irreflexivity Qclt 0). }
  assert (∀ clientX,
    data <$> handleMouseMove chartData maxY rectLeft rectWidth rectHeight clientX
    = chartData !! Z.to_nat (hoverIndexAt chartData rectLeft rectWidth clientX))
    as Hrun.
  { intros clientX. unfold handleMouseMove, hoverIndexAt.
    rewrite decide_False by (by destruct chartData).
    rewrite decide_False by done.
    pose proof (hoverIndex_bounds chartData _ Hne
      (clampRatio_bounds ((clientX - rectLeft) / rectWidth))) as Hb.
    unfold at_index. rewrite decide_True by lia.
    by destruct (chartData !! _). }
  split; [|split; [|split; [|done]]].
  - intros clientX Hx. rewrite Hrun. unfold hoverIndexAt.
    assert (clampRatio ((clientX - rectLeft) / rectWidth) = 0) as ->.
    { assert ((clientX - rectLeft) / rectWidth ≤ 0) as Hr.
      { replace (0 : Qc) with (0 / rectWidth) by (unfold Qcdiv; ring).
        apply Qc_div_le_mono; [done | qc_lra]. }
      revert Hr. generalize ((clientX - rectLeft) / rectWidth). intros q Hr.
      rewrite clampRatio_cases. repeat case_decide; try done.
      - exfalso. clear -Hr H0. qc_lra.
      - apply Qcle_antisym; [done | by apply Qcnot_lt_le]. }
    unfold hoverIndex. rewrite Qcmult_0_l. by rewrite head_lookup.
  - intros clientX Hx. rewrite Hrun. unfold hoverIndexAt.
    assert (clampRatio ((clientX - rectLeft) / rectWidth) = 1) as ->.
    { assert (1 ≤ (clientX - rectLeft) / rectWidth) as Hr.
      { rewrite <-(Qcmult_inv_r rectWidth) by done.
        apply (Qc_div_le_mono rectWidth); [done | qc_lra]. }
      revert Hr. generalize ((clientX - rectLeft) / rectWidth). intros q Hr.
      rewrite clampRatio_cases. repeat case_decide; try done.
      - exfalso. clear -Hr H. qc_lra.
      - apply Qcle_antisym; [by apply Qcnot_lt_le | done]. }
    unfold hoverIndex. rewrite Qcmult_1_l, Math_floor_number, last_lookup.
    f_equal. lia.
  - intros clientX clientX' Hx. unfold hoverIndexAt.
    apply hoverIndex_mono; [done|].
    apply clampRatio_mono, Qc_div_le_mono; [done | qc_lra].
Qed.

(** X13.  When every price the assets carry lies in [[lo, hi]], so does the
    estimate for every asset at every time, with the anchors built for these
    assets; with [0 <= lo] no asset ever has a negative value. *)
Theorem estimate_within_asset_prices (now lo hi : Qc) (assets : list Asset)
    (priceAnchors : gmap string (list Anchor)) (a : Asset) (t : Qc) :
  buildPriceAnchors now assets = Some priceAnchors →
  Forall (pricesWithin lo hi) assets → a ∈ assets →
  (∃ v, estimatePrice priceAnchors a t = Some v ∧ lo ≤ v ≤ hi)
  ∧ (0 ≤ lo → 0 ≤ valueAt priceAnchors t a).
Proof.
  intros Hrun Hall Ha.
  destruct (estimatePrice_within now lo hi assets priceAnchors a t Hrun Hall Ha)
    as (v & Hv & Hlo & Hhi).
  split; [by exists v|].
  intros H0. unfold valueAt. case_decide as Hq; [apply Qcle_refl|].
  rewrite Hv. simpl. apply Qcmult_nonneg_nonneg; [|by etrans].
  by apply Qclt_le_weak, Qcnot_le_lt.
Qed.

(** ** A point is the sum of its assets *)

Lemma assetStep_eq priceAnchors t c v st a :
  assetStep priceAnchors t (c, v, st) a
  = Some (c + costAt t a, v + valueAt priceAnchors t a,
          <[id a := valueAt priceAnchors t a]> st).
Proof.
  unfold assetStep, valueAt, costAt.
  destruct (cumulativeAt (transactions a) t) as [q k]. simpl.
  case_decide; [by rewrite !Qcplus_0_r|].
  by destruct (estimatePrice_is_Some priceAnchors a t) as [e ->].
Qed.

Lemma forEachM_assetStep_eq priceAnchors t assets c v st :
  forEachM (assetStep priceAnchors t) assets (c, v, st)
  = Some (c + sumQc (costAt t <$> assets),
          v + sumQc (valueAt priceAnchors t <$> assets),
          foldl (λ st a, <[id a := valueAt priceAnchors t a]> st) st assets).
Proof.
  revert c v st. induction assets as [|a assets IH]; intros c v st.
  { simpl. by rewrite !Qcplus_0_r. }
  rewrite forEachM_cons, assetStep_eq. cbn [mbind option_bind].
  rewrite IH. simpl. by rewrite !Qcplus_assoc.
Qed.

Lemma foldl_insert_other {V} (f : Asset → V) (assets : list Asset)
    (st : gmap string V) (k : string) :
  k ∉ id <$> assets →
  foldl (λ st a, <[id a := f a]> st) st assets !! k = st !! k.
Proof.
  revert st. induction assets as [|a assets IH]; intros st Hk; [done|].
  rewrite fmap_cons in Hk. apply not_elem_of_cons in Hk as [Hne Hk].
  simpl. rewrite IH by done. by apply lookup_insert_ne.
Qed.

Lemma foldl_insert_dom {V} (f : Asset → V) (assets : list Asset)
    (st : gmap string V) (k : string) :
  is_Some (foldl (λ st a, <[id a := f a]> st) st assets !! k)
  ↔ is_Some (st !! k) ∨ k ∈ id <$> assets.
Proof.
  revert st. induction assets as [|a assets IH]; intros st; simpl.
  { split; [by left | intros [?|H]; [done | by apply elem_of_nil in H]]. }
  rewrite IH, lookup_insert_is_Some, elem_of_cons. split.
  - intros [[Heq|[Hne Hk]]|Hin]; [right; by left | by left | right; by right].
  - intros [Hk|[Heq|Hin]]; [|left; by left | by right].
    destruct (decide (id a = k)); [left; by left | left; by right].
Qed.

Lemma foldl_insert_NoDup {V} (f : Asset → V) (assets : list Asset)
    (st : gmap string V) (a : Asset) :
  NoDup (id <$> assets) → a ∈ assets →
  foldl (λ st a, <[id a := f a]> st) st assets !! id a = Some (f a).
Proof.
  revert st. induction assets as [|b assets IH]; intros st Hnd Ha.
  { by apply elem_of_nil in Ha. }
  rewrite fmap_cons in Hnd. apply NoDup_cons in Hnd as [Hb Hnd]. simpl.
  apply elem_of_cons in Ha as [->|Ha]; [|by apply IH].
  rewrite foldl_insert_other by done. apply lookup_insert_eq.
Qed.

Lemma pointAt_eq priceAnchors assets t :
  pointAt priceAnchors assets t
  = Some (mkPoint t (sumQc (costAt t <$> assets))
            (sumQc (valueAt priceAnchors t <$> assets))
            (foldl (λ st a, <[id a := valueAt priceAnchors t a]> st) ∅ assets)).
Proof.
  unfold pointAt. rewrite forEachM_assetStep_eq. simpl. by rewrite !Qcplus_0_l.
Qed.

Lemma pointAt_NoDup priceAnchors assets t d :
  pointAt priceAnchors assets t = Some d → NoDup (id <$> assets) →
  (∀ a, a ∈ assets → stack d !! id a = Some (valueAt priceAnchors t a))
  ∧ marketValue d = sumQc (stackValue d <$> assets).
Proof.
  rewrite pointAt_eq. intros [= <-] Hnd. simpl.
  assert (∀ a, a ∈ assets →
    foldl (λ st a, <[id a := valueAt priceAnchors t a]> st) ∅ assets !! id a
    = Some (valueAt priceAnchors t a)) as Hentry
    by (intros a Ha; by apply foldl_insert_NoDup).
  split; [done|]. f_equal. apply list_fmap_ext.
  intros i a Ha. unfold stackValue. simpl.
  rewrite Hentry; [done|]. by eapply list_elem_of_lookup_2.
Qed.

(** X14.  A point of the series is the sum of its assets: [costBasis] is the
    sum of the assets' costs and [marketValue] the sum of their values (0 for
    an asset not owned yet); the breakdown has an entry for exactly the ids of
    the assets; and when the ids are distinct each entry is the asset's value,
    so that the market value is the sum of the entries. *)
Theorem point_is_sum_of_assets (priceAnchors : gmap string (list Anchor))
    (assets : list Asset) (t : Qc) (d : ChartDataPoint) :
  pointAt priceAnchors assets t = Some d →
  costBasis d = sumQc (costAt t <$> assets)
  ∧ marketValue d = sumQc (valueAt priceAnchors t <$> assets)
  ∧ (∀ k, is_Some (stack d !! k) ↔ k ∈ id <$> assets)
  ∧ (NoDup (id <$> assets) →
     (∀ a, a ∈ assets → stack d !! id a = Some (valueAt priceAnchors t a))
     ∧ marketValue d = sumQc (stackValue d <$> assets)).
Proof.
  intros Hd. split; [|split; [|split]].
  - rewrite pointAt_eq in Hd. by injection Hd as <-.
  - rewrite pointAt_eq in Hd. by injection Hd as <-.
  - rewrite pointAt_eq in Hd. injection Hd as <-. simpl.
    intros k. rewrite foldl_insert_dom, lookup_empty.
    split; [intros [[? ?]|?]; done | by right].
  - by apply pointAt_NoDup.
Qed.

(** ** The top of the stack *)

Section StackTotals.

Variables (minTime maxTime computedMaxY : Qc).
Variable generatedData : list ChartDataPoint.

#[local] Abbreviation stackStep' := (stackStep minTime maxTime computedMaxY generatedData).
#[local] Abbreviation topPointsOf' := (topPointsOf minTime maxTime computedMaxY generatedData).

Lemma no_value_zero (a : Asset) :
  existsb (λ d, bool_decide (0 < stackValue d a)) generatedData = false →
  (∀ d, d ∈ generatedData → 0 ≤ stackValue d a) →
  ∀ d, d ∈ generatedData → stackValue d a = 0.
Proof.
  intros Hno Hnn d Hd. apply Qcle_antisym; [|by apply Hnn].
  apply Qcnot_lt_le. intros Hpos.
  assert (existsb (λ d, bool_decide (0 < stackValue d a)) generatedData = true)
    as Hyes; [|by rewrite Hyes in Hno].
  apply existsb_exists. exists d. split; [by apply list_elem_of_In|].
  by apply bool_decide_eq_true.
Qed.

Lemma stackStep_baseline (st : list StackedPath * list Qc) (idx : nat) (a : Asset) :
  length st.2 = length generatedData →
  (∀ d, d ∈ generatedData → 0 ≤ stackValue d a) →
  length (stackStep' st (idx, a)).2 = length generatedData
  ∧ ∀ i d x, generatedData !! i = Some d → st.2 !! i = Some x →
      (stackStep' st (idx, a)).2 !! i = Some (x + stackValue d a).
Proof.
  destruct st as [paths b]. simpl. intros Hlen Hnn. unfold stackStep.
  destruct (existsb _ generatedData) eqn:Hv; simpl.
  - rewrite updateBaselines_vals
      by (by rewrite (length_topPointsOf minTime maxTime computedMaxY generatedData)).
    split; [by rewrite length_fmap, length_topPointsOf|].
    intros i d x Hd Hx. unfold topPointsOf.
    rewrite list_lookup_fmap, list_lookup_imap, Hd. simpl.
    by rewrite (list_lookup_total_correct _ _ _ Hx).
  - split; [done|]. intros i d x Hd Hx.
    rewrite (no_value_zero a Hv Hnn d) by (by eapply list_elem_of_lookup_2).
    by rewrite Qcplus_0_r.
Qed.

Lemma foldl_stackStep_baseline (f : nat → nat) (assets : list Asset)
    (st : list StackedPath * list Qc) :
  length st.2 = length generatedData →
  (∀ a d, a ∈ assets → d ∈ generatedData → 0 ≤ stackValue d a) →
  length (foldl stackStep' st (imap (λ i a, (f i, a)) assets)).2
  = length generatedData
  ∧ ∀ i d x, generatedData !! i = Some d → st.2 !! i = Some x →
      (foldl stackStep' st (imap (λ i a, (f i, a)) assets)).2 !! i
      = Some (x + sumQc ((stackValue d) <$> assets)).
Proof.
  revert f st. induction assets as [|a assets IH]; intros f st Hlen Hnn.
  { split; [done|]. intros i d x _ Hx. simpl. by rewrite Qcplus_0_r. }
  simpl.
  destruct (stackStep_baseline st (f 0%nat) a Hlen) as [Hlen1 Hstep].
  { intros d Hd. apply Hnn; [by left | done]. }
  destruct (IH (f ∘ S) (stackStep' st (f 0%nat, a)) Hlen1) as [Hlen2 Hrest].
  { intros a' d Ha' Hd. apply Hnn; [by right | done]. }
  split; [exact Hlen2|]. intros i d x Hd Hx.
  pose proof (Hrest i d _ Hd (Hstep i d x Hd Hx)) as G.
  rewrite <-Qcplus_assoc in G. exact G.
Qed.

Lemma foldl_stackStep_no_path (ias : list (nat * Asset))
    (st : list StackedPath * list Qc) (b0 : list Qc) :
  (1 < length generatedData)%nat →
  (st.1 = [] → st.2 = b0) →
  (foldl stackStep' st ias).1 = [] → (foldl stackStep' st ias).2 = b0.
Proof.
  intros Hlong. revert st. induction ias as [|[idx a] ias IH]; intros st Hst; [done|].
  simpl. apply IH. destruct st as [paths b]. unfold stackStep.
  destruct (existsb _ generatedData); simpl; [|done].
  rewrite decide_True by (by rewrite length_topPointsOf).
  intros Hnil. by apply app_nil in Hnil as [_ ?].
Qed.

End StackTotals.

(** X15.  The outline of the stack is the market value.  When the asset ids
    are distinct and every price the assets carry lies between 0 and some
    bound, the top line of the last region of a chart carries, point by
    point, the [marketValue] of the series; and a chart without any region
    has a series that is 0 throughout. *)
Theorem stack_top_is_market_value (assets : list Asset) (timeRange : TimeRange)
    (customStart customEnd : string) (now hi : Qc) (r : ChartResult) :
  chart assets timeRange customStart customEnd now = Some r →
  NoDup (id <$> assets) → Forall (pricesWithin 0 hi) assets →
  (∀ p, last (stackedPaths r) = Some p →
        val <$> topPoints p = marketValue <$> chartData r)
  ∧ (stackedPaths r = [] → Forall (λ d, marketValue d = 0) (chartData r)).
Proof.
  intros Hr Hnd Hprices.
  destruct (chart_inv _ _ _ _ _ _ Hr) as (pa & Hpa & Hgd & _ & _ & Hpaths & _).
  destruct (generateData_lookup _ _ _ _ _ Hgd) as [Hlen Hpt].
  set (mn := chart_minTime r) in *. set (mx := chart_maxTime r) in *.
  set (gd := chartData r) in *.
  assert (∀ i d, gd !! i = Some d →
            (∀ a, a ∈ assets → 0 ≤ stackValue d a)
            ∧ marketValue d = sumQc ((stackValue d) <$> assets)) as Hpoint.
  { intros i d Hd. specialize (Hpt i d Hd).
    destruct (pointAt_NoDup _ _ _ _ Hpt Hnd) as [Hentry Hsum].
    split; [|done]. intros a Ha. unfold stackValue.
    rewrite (Hentry a Ha). simpl. unfold valueAt.
    case_decide as Hq; [apply Qcle_refl|].
    destruct (estimatePrice_within now 0 hi assets pa a
      (mn + (mx - mn) / number (Z.of_nat steps) * number (Z.of_nat i))
      Hpa Hprices Ha) as (v & -> & Hv0 & _).
    simpl. apply Qcmult_nonneg_nonneg; [|done].
    by apply Qclt_le_weak, Qcnot_le_lt. }
  set (final := buildStack mn mx (maxY r) gd assets) in *.
  assert (final.2 = marketValue <$> gd) as Hfinal.
  { destruct (foldl_stackStep_baseline mn mx (maxY r) gd (λ i, i) assets
               ([], replicate (length gd) 0)) as [Hflen Hfl].
    { simpl. apply length_replicate. }
    { intros a d Ha Hd. apply list_elem_of_lookup in Hd as [i Hd].
      by apply (Hpoint i d Hd). }
    assert (length final.2 = length gd) as Hflen' by exact Hflen.
    assert (∀ i d, gd !! i = Some d →
              final.2 !! i = Some (0 + sumQc ((stackValue d) <$> assets))) as Hfl'.
    { intros i d Hd. apply (Hfl i d 0 Hd). simpl.
      apply lookup_replicate_2. by eapply lookup_lt_Some. }
    apply list_eq. intros i. rewrite list_lookup_fmap.
    destruct (gd !! i) as [d|] eqn:Hd; simpl.
    - rewrite (Hfl' i d Hd), Qcplus_0_l. f_equal. symmetry.
      by apply (Hpoint i d Hd).
    - apply lookup_ge_None. apply lookup_ge_None in Hd. by rewrite Hflen'. }
  split.
  - intros p Hp. rewrite Hpaths in Hp. rewrite <-Hfinal.
    pose proof (stackInv_buildStack mn mx (maxY r) gd assets)
      as (_ & _ & _ & Hlast & _).
    by apply Hlast.
  - intros Hnil. rewrite Hpaths in Hnil.
    assert (final.2 = replicate (length gd) 0) as Hzero.
    { apply (foldl_stackStep_no_path mn mx (maxY r) gd (imap pair assets)
               ([], replicate (length gd) 0)); [lia | done | done]. }
    rewrite Hfinal in Hzero. apply Forall_lookup. intros i d Hd.
    assert ((marketValue <$> gd) !! i = Some (marketValue d)) as Hm
      by (by rewrite list_lookup_fmap, Hd).
    rewrite Hzero in Hm. apply lookup_replicate in Hm as [Hm _]. done.
Qed.

(** * The summary, the ring and the state *)

(** ** Summary *)

Lemma foldl_summaryStep (assets : list AssetEntry) (acc : PortfolioSummary) :
  let s := foldl summaryStep acc assets in
  totalValue s = totalValue acc + sumQc ((currentTotalValue ∘ asset) <$> assets)
  ∧ summaryCostBasis s
    = summaryCostBasis acc + sumQc ((totalCostBasis ∘ asset) <$> assets)
  ∧ totalPnL s = totalPnL acc + sumQc ((profitLoss ∘ asset) <$> assets)
  ∧ assetCount s = (assetCount acc + length assets)%nat
  ∧ (totalPnLPercent acc = 0 → totalPnLPercent s = 0).
Proof.
  revert acc. induction assets as [|e assets IH]; intros acc.
  { simpl. rewrite !Qcplus_0_r. repeat split; try done; lia. }
  cbn [foldl]. cbv zeta.
  destruct (IH (summaryStep acc e)) as (H1 & H2 & H3 & H4 & H5).
  rewrite H1, H2, H3, H4, !fmap_cons.
  unfold sumQc. cbn [foldr summaryStep totalValue summaryCostBasis totalPnL
    assetCount compose length].
  unfold profitLoss, currentTotalValue.
  split; [ring|]. split; [ring|]. split; [ring|]. split; [lia|].
  intros _. by apply H5.
Qed.

Lemma sum_profitLoss (assets : list AssetEntry) :
  sumQc ((profitLoss ∘ asset) <$> assets)
  = sumQc ((currentTotalValue ∘ asset) <$> assets)
    - sumQc ((totalCostBasis ∘ asset) <$> assets).
Proof.
  induction assets as [|e assets IH]; [done|].
  rewrite !fmap_cons. unfold sumQc in *. cbn [foldr compose].
  rewrite IH. unfold profitLoss. ring.
Qed.

(** X16.  The summary line: the total value and the total cost basis are the
    sums over the assets, the total P&L is their difference and the sum of the
    assets' P&L, the count is the number of assets; the percentage is
    [totalPnL / totalCostBasis * 100] when the cost basis is positive and 0
    otherwise, so no division by a zero cost basis takes place. *)
Theorem summary_totals (assets : list AssetEntry) :
  let s := summarize assets in
  totalValue s = sumQc ((currentTotalValue ∘ asset) <$> assets)
  ∧ summaryCostBasis s = sumQc ((totalCostBasis ∘ asset) <$> assets)
  ∧ totalPnL s = totalValue s - summaryCostBasis s
  ∧ totalPnL s = sumQc ((profitLoss ∘ asset) <$> assets)
  ∧ assetCount s = length assets
  ∧ totalPnLPercent s
    = (if decide (0 < summaryCostBasis s)
       then (totalPnL s / summaryCostBasis s) * number 100 else 0)
  ∧ (0 < summaryCostBasis s →
     totalPnLPercent s * summaryCostBasis s = totalPnL s * number 100).
Proof.
  intros s.
  destruct (foldl_summaryStep assets (mkSummary 0 0 0 0 0 None))
    as (H1 & H2 & H3 & H4 & H5).
  cbn [totalValue summaryCostBasis totalPnL assetCount totalPnLPercent] in *.
  rewrite Qcplus_0_l in H1, H2, H3. specialize (H5 eq_refl).
  pose proof (sum_profitLoss assets) as Hsum.
  unfold s, summarize. case_decide as Hpos;
    cbn [totalValue summaryCostBasis totalPnL assetCount totalPnLPercent].
  - rewrite decide_True by done.
    split; [done|]. split; [done|]. split; [by rewrite H1, H2, H3|].
    split; [done|]. split; [done|]. split; [done|].
    intros _. field.
    intros Heq. rewrite Heq in Hpos. by apply (irreflexivity Qclt 0).
  - rewrite decide_False by done.
    split; [done|]. split; [done|]. split; [by rewrite H1, H2, H3|].
    split; [done|]. split; [done|]. split; [done|].
    intros H. by destruct Hpos.
Qed.

(** ** The allocation ring *)

Lemma sumQc_app (l k : list Qc) : sumQc (l ++ k) = sumQc l + sumQc k.
Proof.
  induction l as [|x l IH]; simpl; [by rewrite Qcplus_0_l|].
  unfold sumQc in *. simpl. rewrite IH. ring.
Qed.

Lemma sumQc_perm (l k : list Qc) : l ≡ₚ k → sumQc l = sumQc k.
Proof.
  unfold sumQc. induction 1 as [|x l k _ IH|x y l|l k m _ IH1 _ IH2]; simpl.
  - done.
  - by rewrite IH.
  - ring.
  - by rewrite IH1.
Qed.

Lemma sumQc_scale {A} (g : A → Qc) (k : Qc) (l : list A) :
  sumQc ((λ a, g a * k) <$> l) = sumQc (g <$> l) * k.
Proof.
  induction l as [|x l IH]; [unfold sumQc; simpl; ring|].
  rewrite !fmap_cons. unfold sumQc in *. cbn [foldr]. rewrite IH. ring.
Qed.

Lemma insertByValue_perm x l : insertByValue x l ≡ₚ x :: l.
Proof.
  induction l as [|y l IH]; [done|]. simpl. case_decide; [|done].
  by rewrite IH, Permutation_swap.
Qed.

Lemma insertByValue_sorted x l :
  StronglySorted (λ a b, value b ≤ value a) l →
  StronglySorted (λ a b, value b ≤ value a) (insertByValue x l).
Proof.
  induction 1 as [|y l Hs IH Hy]; simpl; [by repeat constructor|].
  case_decide as Hxy.
  - constructor; [done|]. rewrite insertByValue_perm.
    constructor; [by apply Qclt_le_weak | done].
  - constructor; [by constructor|]. apply Qcnot_lt_le in Hxy.
    constructor; [done|].
    eapply Forall_impl; [exact Hy|]. intros z Hz. simpl in *. by etrans.
Qed.

Lemma sortByValue_perm l : sortByValue l ≡ₚ l.
Proof.
  unfold sortByValue. induction l as [|x l IH]; [done|]. simpl.
  by rewrite insertByValue_perm, IH.
Qed.

Lemma sortByValue_sorted l :
  StronglySorted (λ a b, value b ≤ value a) (sortByValue l).
Proof.
  unfold sortByValue. induction l as [|x l IH]; [constructor|]. simpl.
  by apply insertByValue_sorted.
Qed.

Lemma tiles_snoc (c0 c c' : Qc) (segs : list Segment) (color : string) :
  tiles c0 segs c → tiles c0 (segs ++ [mkSeg color c c']) c'.
Proof.
  revert c0. induction segs as [|seg segs IH]; intros c0; simpl.
  - by intros ->.
  - intros [? ?]. split; [done|]. by apply IH.
Qed.

Lemma foldl_segmentStep (total : Qc) (sorted : list PieAsset) :
  let r := foldl (segmentStep total) (0, []) (imap pair sorted) in
  tiles 0 r.2 r.1
  ∧ r.1 = sumQc ((λ a, value a / total * number 100) <$> sorted)
  ∧ length r.2 = length sorted
  ∧ ∀ i seg, r.2 !! i = Some seg →
      ∃ a, sorted !! i = Some a
        ∧ seg_to seg = seg_from seg + value a / total * number 100
        ∧ seg_color seg = CHART_COLORS !!! (i mod length CHART_COLORS)%nat.
Proof.
  induction sorted as [|a sorted IH] using rev_ind.
  { simpl. repeat split; try done. }
  rewrite imap_app, foldl_app. cbn [imap foldl]. rewrite Nat.add_0_r.
  destruct (foldl (segmentStep total) (0, []) (imap pair sorted)) as [c segs].
  cbn [segmentStep fst snd] in *. destruct IH as (Ht & Hc & Hlen & Hseg).
  split; [by apply tiles_snoc|]. split; [|split].
  - rewrite fmap_app, sumQc_app, <-Hc. unfold sumQc. simpl. ring.
  - rewrite !length_app. simpl. lia.
  - intros i seg Hi. destruct (decide (i < length segs)%nat) as [Hlt|Hge].
    + rewrite lookup_app_l in Hi by done.
      destruct (Hseg i seg Hi) as (b & Hb & ?). exists b.
      split; [|done]. rewrite lookup_app_l; [done|]. lia.
    + assert (i = length segs) as ->.
      { apply lookup_lt_Some in Hi. rewrite length_app in Hi. simpl in Hi. lia. }
      rewrite lookup_app_r, Nat.sub_diag in Hi by lia. injection Hi as <-.
      exists a. rewrite Hlen, lookup_app_r, Nat.sub_diag by lia. done.
Qed.

Lemma summarize_totalValue (assets : list AssetEntry) :
  totalValue (summarize assets) = sumQc ((currentTotalValue ∘ asset) <$> assets).
Proof.
  destruct (foldl_summaryStep assets (mkSummary 0 0 0 0 0 None)) as (H1 & _).
  cbn [totalValue] in H1. rewrite Qcplus_0_l in H1.
  unfold summarize. by case_decide.
Qed.

(** X17.  The ring closes.  With the total value of the summary, when it is
    not 0, the gradient has one segment per asset; the segments lie end to
    end from 0 to 100; segment [i] spans [value / totalValue * 100] of the
    [i]-th asset by descending value and has colour [i mod 8]. *)
Theorem pie_segments_tile (entries : list AssetEntry) :
  let total := totalValue (summarize entries) in
  let pie := pieChartData total (asset <$> entries) in
  total ≠ 0 →
  tiles 0 pie.1 (number 100)
  ∧ length pie.1 = length entries
  ∧ ∀ i seg, pie.1 !! i = Some seg →
      ∃ a, pie.2 !! i = Some a
        ∧ seg_to seg = seg_from seg + value a / total * number 100
        ∧ seg_color seg = CHART_COLORS !!! (i mod length CHART_COLORS)%nat.
Proof.
  intros total pie Hne. unfold pie, pieChartData. rewrite decide_False by done.
  set (sorted := sortByValue _).
  destruct (foldl_segmentStep total sorted) as (Ht & Hc & Hlen & Hseg).
  cbn [fst snd].
  assert (sumQc ((λ a, value a / total * number 100) <$> sorted) = number 100)
    as H100.
  { assert (sumQc (value <$> sorted) = total) as Hsum.
    { unfold sorted. rewrite (sumQc_perm _ _ (fmap_Permutation value _ _
        (sortByValue_perm _))).
      unfold total. rewrite summarize_totalValue, <-!list_fmap_compose. done. }
    assert ((λ a, value a / total * number 100) <$> sorted
            = (λ a, value a * (/ total * number 100)) <$> sorted) as ->
      by (apply list_fmap_ext; intros; unfold Qcdiv; ring).
    rewrite sumQc_scale, Hsum. by field. }
  split; [by rewrite <-H100, <-Hc|]. split; [|done].
  rewrite Hlen. unfold sorted.
  by rewrite (Permutation_length (sortByValue_perm _)), !length_fmap.
Qed.

(** X18.  The legend of the ring: [sortedAssets] holds the assets with their
    values [quantity * currentPrice] in descending order of value; and when
    the total value is 0 there is the single grey segment from 0 to 100 and an
    empty legend, whatever the assets. *)
Theorem pie_sorted_by_value (total : Qc) (assets : list Asset) :
  (total ≠ 0 →
   (pieChartData total assets).2
     ≡ₚ (λ a, mkPieAsset a (asset_quantity a * currentPrice a)) <$> assets
   ∧ StronglySorted (λ a b, value b ≤ value a) (pieChartData total assets).2)
  ∧ pieChartData 0 assets = ([mkSeg "#334155" 0 (number 100)], []).
Proof.
  split; [|done]. intros Hne. unfold pieChartData. rewrite decide_False by done.
  cbn [snd]. split; [apply sortByValue_perm | apply sortByValue_sorted].
Qed.

(** ** The history of snapshots *)

Lemma foldl_plus {A} (g : A → Qc) (l : list A) (c : Qc) :
  foldl (λ sum a, sum + g a) c l = c + sumQc (g <$> l).
Proof.
  revert c. induction l as [|x l IH]; intros c.
  { unfold sumQc. simpl. ring. }
  cbn [foldl]. rewrite IH, fmap_cons. unfold sumQc. cbn [foldr]. ring.
Qed.

(** X19.  The snapshot history.  When the assets are worth something the new
    history ends with a snapshot taken at [now] carrying that worth, it is
    the last [min 50 (n + 1)] entries of the old history followed by the
    snapshot, and a history of at most 50 entries stays at most 50 long; when
    they are worth 0 the history is left as it is. *)
Theorem history_snapshot_cap (now : Qc) (currentAssets : list AssetEntry)
    (prev : list HistorySnapshot) :
  let worth := sumQc ((currentTotalValue ∘ asset) <$> currentAssets) in
  let history := recordHistorySnapshot now currentAssets prev in
  ((length prev ≤ 50)%nat → (length history ≤ 50)%nat)
  ∧ (worth = 0 → history = prev)
  ∧ (worth ≠ 0 →
     ∃ snapshot, last history = Some snapshot
       ∧ snapshot_timestamp snapshot = now ∧ snapshot_totalValue snapshot = worth
       ∧ history `suffix_of` prev ++ [snapshot]
       ∧ length history = (length prev + 1) `min` 50).
Proof.
  intros worth history. unfold history, recordHistorySnapshot.
  rewrite (foldl_plus (λ a, asset_quantity (asset a) * currentPrice (asset a))),
    Qcplus_0_l.
  change (sumQc ((λ a, asset_quantity (asset a) * currentPrice (asset a))
                 <$> currentAssets)) with worth.
  split; [|split].
  - intros Hprev. repeat case_decide; try done.
    + rewrite length_drop, length_app. simpl. lia.
    + rewrite length_app in *. simpl in *. lia.
  - intros Hz. by rewrite decide_True.
  - intros Hnz. rewrite decide_False by done. cbv zeta.
    exists (mkSnapshot now worth
              (foldl (λ acc a,
                        <[ticker (asset a)
                          := asset_quantity (asset a) * currentPrice (asset a)]> acc)
                     ∅ currentAssets)).
    split; [|split; [done|split; [done|]]].
    + case_decide as Hlong; [|apply last_snoc].
      rewrite length_app in Hlong |- *. simpl in Hlong |- *.
      rewrite drop_app_le by lia. apply last_snoc.
    + case_decide as Hlong.
      * split; [apply suffix_drop|].
        rewrite length_drop, length_app in *. simpl in *. lia.
      * split; [done|]. rewrite length_app in *. simpl in *. lia.
Qed.

(** ** Adding and removing assets *)

Lemma ledgerConsistent_append (a : Asset) (qty price : Qc) (txId txDate : string)
    (i tk : string) (cur : Qc) (h : option (list (Qc * Qc))) :
  ledgerConsistent a →
  ledgerConsistent
    (mkAsset i tk (asset_quantity a + qty) cur
       (transactions a ++ [mkTransaction txId BUY qty price txDate (qty * price)])
       ((totalCostBasis a + qty * price) / (asset_quantity a + qty))
       (totalCostBasis a + qty * price) h).
Proof.
  intros (Hq & Hc & Htx & _). unfold ledgerConsistent. simpl.
  rewrite !fmap_app, !sumQc_app, <-Hq, <-Hc. unfold sumQc. simpl.
  split; [ring|]. split; [ring|]. split.
  - apply Forall_app. split; [done|]. by repeat constructor.
  - intros Hne. by field.
Qed.

(** X20.  Adding a purchase keeps the books: if the cached totals of every
    asset agree with its ledger before, they do after; the list keeps its
    length when the ticker is known and grows by one asset otherwise; and
    some asset with that ticker then has the new BUY transaction, of cost
    [quantity * price], as the last of its ledger. *)
Theorem add_asset_keeps_ledgers (assets : list AssetEntry) (newTicker : string)
    (qty price : Qc) (txDate txId newId nowIso : string) :
  Forall (ledgerConsistent ∘ asset) assets →
  let assets' := handleAddAsset assets newTicker qty price txDate txId newId nowIso in
  let newTx := mkTransaction txId BUY qty price txDate (qty * price) in
  Forall (ledgerConsistent ∘ asset) assets'
  ∧ length assets'
    = (if decide (Exists (λ a, ticker (asset a) = newTicker) assets)
       then length assets else S (length assets))
  ∧ Exists (λ a, ticker (asset a) = newTicker
                 ∧ last (transactions (asset a)) = Some newTx) assets'.
Proof.
  intros Hall assets' newTx. unfold assets', handleAddAsset.
  destruct (list_find _ assets) as [[i existing]|] eqn:Hfind; simpl.
  - apply list_find_Some in Hfind as (Hi & Htk & _).
    assert (ledgerConsistent (asset existing)) as Hex.
    { rewrite Forall_lookup in Hall. apply (Hall i existing Hi). }
    split; [|split].
    + apply Forall_fmap. eapply Forall_impl; [exact Hall|].
      intros a Ha. simpl. case_decide; [|done]. simpl.
      by apply ledgerConsistent_append.
    + rewrite length_fmap, decide_True; [done|].
      apply Exists_exists. exists existing. split; [|done].
      by eapply list_elem_of_lookup_2.
    + apply Exists_exists. eexists. split.
      * apply list_elem_of_fmap. exists existing.
        split; [done | by eapply list_elem_of_lookup_2].
      * rewrite decide_True by done. simpl. split; [done | apply last_snoc].
  - apply list_find_None in Hfind. split; [|split].
    + apply Forall_app. split; [done|]. repeat constructor; simpl.
      * unfold sumQc. simpl. ring.
      * unfold sumQc. simpl. ring.
      * intros _. ring.
    + rewrite length_app, decide_False; [simpl; lia|].
      intros Hex. apply Exists_exists in Hex as (a & Ha & Htk).
      rewrite Forall_forall in Hfind. by apply (Hfind a Ha).
    + apply Exists_app. right. by repeat constructor.
Qed.

Lemma filter_all {A} (P : A → Prop) `{!∀ x, Decision (P x)} (l : list A) :
  Forall P l → filter P l = l.
Proof.
  induction 1 as [|x l Hx _ IH]; [done|].
  by rewrite filter_cons, decide_True, IH.
Qed.

(** X21.  Adding an asset under a ticker that no asset has and an id that no
    asset has, and removing that id again, gives back the list of assets. *)
Theorem add_then_remove (assets : list AssetEntry) (newTicker : string)
    (qty price : Qc) (txDate txId newId nowIso : string) :
  Forall (λ a, ticker (asset a) ≠ newTicker) assets →
  Forall (λ a, id (asset a) ≠ newId) assets →
  handleRemoveAsset
    (handleAddAsset assets newTicker qty price txDate txId newId nowIso) newId
  = assets.
Proof.
  intros Htk Hid. unfold handleAddAsset, handleRemoveAsset.
  assert (list_find (λ a, ticker (asset a) = newTicker) assets = None) as ->
    by (by apply list_find_None).
  simpl. rewrite filter_app, filter_all by done.
  rewrite filter_cons, decide_False by (simpl; by intros H; apply H).
  by rewrite filter_nil, app_nil_r.
Qed.

(** ** The asset card *)

(** X22.  The rows of an asset card add up: when the cached totals agree with
    the ledger, the current values of the transactions sum to the asset's
    current value and their P&L to the asset's P&L; and the asset's percentage
    is 0 unless its cost basis is positive. *)
Theorem asset_card_rows_add_up (a : Asset) :
  ledgerConsistent a →
  sumQc (txCurrentVal a <$> transactions a) = currentTotalValue a
  ∧ sumQc (txPnL a <$> transactions a) = profitLoss a
  ∧ (totalCostBasis a ≤ 0 → profitLossPercent a = 0)
  ∧ (0 < totalCostBasis a →
     profitLossPercent a * totalCostBasis a = profitLoss a * number 100).
Proof.
  intros (Hq & Hc & _). unfold profitLoss, currentTotalValue.
  assert (sumQc (txCurrentVal a <$> transactions a)
          = sumQc (quantity <$> transactions a) * currentPrice a) as Hval.
  { unfold txCurrentVal. apply (sumQc_scale quantity). }
  assert (sumQc (txPnL a <$> transactions a)
          = sumQc (txCurrentVal a <$> transactions a)
            - sumQc (totalCost <$> transactions a)) as Hpnl.
  { generalize (transactions a). intros l.
    induction l as [|tx l IH]; [done|].
    rewrite !fmap_cons. unfold sumQc in *. cbn [foldr]. rewrite IH.
    unfold txPnL. ring. }
  split; [by rewrite Hval, Hq|]. split; [by rewrite Hpnl, Hval, Hq, Hc|].
  unfold profitLossPercent, profitLoss, currentTotalValue. split.
  - intros Hle. rewrite decide_False; [done|]. by apply Qcle_not_lt.
  - intros Hpos. rewrite decide_True by done. field.
    intros Heq. rewrite Heq in Hpos. by apply (irreflexivity Qclt 0).
Qed.

(** ** The chart against the summary *)

Lemma chart_last_point assets timeRange customStart customEnd now r :
  chart assets timeRange customStart customEnd now = Some r →
  ∃ d priceAnchors,
    last (chartData r) = Some d
    ∧ pointAt priceAnchors assets (chart_maxTime r) = Some d.
Proof.
  intros Hr.
  destruct (chart_inv _ _ _ _ _ _ Hr) as (pa & _ & Hgd & _).
  destruct (generateData_lookup _ _ _ _ _ Hgd) as [Hlen Hpt].
  destruct (lookup_lt_is_Some_2 (chartData r) 150) as [d Hd]; [lia|].
  exists d, pa. split.
  - rewrite last_lookup, Hlen. exact Hd.
  - specialize (Hpt 150%nat d Hd).
    replace (chart_minTime r
             + (chart_maxTime r - chart_minTime r) / number (Z.of_nat steps)
               * number (Z.of_nat 150)) with (chart_maxTime r) in Hpt; [done|].
    change (Z.of_nat steps) with 150%Z. change (Z.of_nat 150) with 150%Z.
    field. by intros H.
Qed.

Lemma cumulativeAt_all_dated (txs : list Transaction) (t : Qc) :
  Forall (λ tx, getTime (date tx) ≤ t) txs →
  cumulativeAt txs t = (sumQc (quantity <$> txs), sumQc (totalCost <$> txs)).
Proof.
  intros Hall. rewrite cumulativeAt_sum. unfold cumulativeAt_spec, upTo.
  by rewrite filter_all.
Qed.

(** X23.  The right edge of the chart meets the summary.  When the cached
    totals of every asset agree with its ledger, every asset is held in a
    positive quantity and no transaction is dated after the end of the
    window, the last point of the series has the summary's total cost basis
    as its [costBasis]. *)
Theorem chart_ends_at_summary_cost (entries : list AssetEntry)
    (timeRange : TimeRange) (customStart customEnd : string) (now : Qc)
    (r : ChartResult) :
  chart (asset <$> entries) timeRange customStart customEnd now = Some r →
  Forall (ledgerConsistent ∘ asset) entries →
  Forall (λ e, 0 < asset_quantity (asset e)) entries →
  Forall (λ e, Forall (λ tx, getTime (date tx) ≤ chart_maxTime r)
                      (transactions (asset e))) entries →
  ∃ d, last (chartData r) = Some d
    ∧ timestamp d = chart_maxTime r
    ∧ costBasis d = summaryCostBasis (summarize entries).
Proof.
  intros Hr Hcons Hpos Hdates.
  destruct (chart_last_point _ _ _ _ _ _ Hr) as (d & pa & Hlast & Hpt).
  exists d. split; [done|]. split; [by apply (pointAt_timestamp pa (asset <$> entries))|].
  rewrite pointAt_eq in Hpt. injection Hpt as <-. simpl.
  assert (summaryCostBasis (summarize entries)
          = sumQc ((totalCostBasis ∘ asset) <$> entries)) as ->.
  { destruct (foldl_summaryStep entries (mkSummary 0 0 0 0 0 None))
      as (_ & H2 & _).
    cbn [summaryCostBasis] in H2. rewrite Qcplus_0_l in H2.
    unfold summarize. by case_decide. }
  rewrite <-list_fmap_compose. f_equal. apply list_fmap_ext.
  intros i e He. simpl.
  rewrite Forall_lookup in Hcons, Hpos, Hdates.
  destruct (Hcons i e He) as (Hq & Hc & _). simpl in Hq, Hc.
  unfold costAt.
  rewrite (cumulativeAt_all_dated _ _ (Hdates i e He)). simpl.
  rewrite <-Hq, <-Hc, decide_False; [done|].
  apply Qclt_not_le. by apply (Hpos i e He).
Qed.

(** ** History from CryptoCompare *)

Lemma strongly_sorted_ascending (h : list (Qc * Qc)) :
  StronglySorted (λ a b, a.1 < b.1) h → strictlyAscending h.
Proof.
  induction 1 as [|a h Hs IH Ha]; [done|].
  destruct h as [|b h]; [done|]. split; [|done].
  by apply Forall_cons in Ha as [? _].
Qed.

Lemma strongly_sorted_filter {A} (R : relation A) (P : A → Prop)
    `{!∀ x, Decision (P x)} (l : list A) :
  StronglySorted R l → StronglySorted R (filter P l).
Proof.
  induction 1 as [|x l Hs IH Hx]; [constructor|].
  rewrite filter_cons. case_decide; [|done].
  constructor; [done|]. apply Forall_forall. intros y Hy.
  apply list_elem_of_filter in Hy as [_ Hy].
  rewrite Forall_forall in Hx. by apply Hx.
Qed.

Lemma filter_positive_fmap (rows : list (Qc * Qc)) :
  filter (λ p : Qc * Qc, 0 < p.2) ((λ d, (d.1 * number 1000, d.2)) <$> rows)
  = (λ d, (d.1 * number 1000, d.2)) <$> filter (λ d : Qc * Qc, 0 < d.2) rows.
Proof.
  induction rows as [|d rows IH]; [done|].
  rewrite fmap_cons, !filter_cons. simpl.
  case_decide; [by rewrite fmap_cons, IH | done].
Qed.

(** X24.  A history accepted from CryptoCompare has more than ten samples,
    only positive prices, and is the rows with a positive close, in their
    order, with the time in milliseconds.  When the rows come with strictly
    ascending times the history has strictly ascending timestamps, and its
    price estimate at the timestamp of each sample is that sample's price. *)
Theorem cryptoCompare_history_valid (rows h : list (Qc * Qc)) :
  cryptoCompareHistory rows = Some h →
  (10 < length h)%nat
  ∧ Forall (λ p, 0 < p.2) h
  ∧ h = (λ d, (d.1 * number 1000, d.2)) <$> filter (λ d : Qc * Qc, 0 < d.2) rows
  ∧ (StronglySorted (λ a b, a.1 < b.1) rows →
     strictlyAscending h
     ∧ ∀ i ts p, h !! i = Some (ts, p) → historyPrice h ts = Some p).
Proof.
  unfold cryptoCompareHistory. case_decide as Hlen; [|done]. intros [= <-].
  split; [done|]. split; [|split; [apply filter_positive_fmap|]].
  - apply Forall_forall. intros p Hp. by apply list_elem_of_filter in Hp as [? _].
  - intros Hs.
    assert (strictlyAscending
              (filter (λ p : Qc * Qc, 0 < p.2)
                 ((λ d, (d.1 * number 1000, d.2)) <$> rows))) as Hasc.
    { apply strongly_sorted_ascending, strongly_sorted_filter.
      eapply StronglySorted_fmap; [|exact Hs].
      intros x y Hxy. simpl. by apply Qcmult_lt_compat_r. }
    split; [done|]. intros i ts p Hi. by eapply historyPrice_sample.
Qed.

(** * The window and dates that do not parse *)

Lemma firstTxNaN_finite (parse : string → option Qc) now assets :
  is_Some (firstTxNaN parse now assets).
Proof.
  unfold firstTxNaN.
  assert (∀ txs first, is_Some first →
            is_Some (foldl (firstTxStepNaN parse) first txs)) as Hinner.
  { induction txs as [|tx txs IH]; intros first Hf; [done|].
    simpl. apply IH. unfold firstTxStepNaN.
    destruct (parse (date tx)) as [t|], first as [f|]; simpl; try done.
    by case_bool_decide. }
  generalize (Some now) (mk_is_Some _ _ (eq_refl (Some now))).
  induction assets as [|a assets IH]; intros first Hf; [done|].
  simpl. by apply IH, Hinner.
Qed.

Lemma firstTxNaN_parsed (parse : string → option Qc) now assets :
  Forall (λ a, Forall (λ tx, parse (date tx) = Some (getTime (date tx)))
                      (transactions a)) assets →
  firstTxNaN parse now assets = Some (firstTx now assets).
Proof.
  unfold firstTxNaN, firstTx. generalize now.
  assert (∀ txs first,
            Forall (λ tx, parse (date tx) = Some (getTime (date tx))) txs →
            foldl (firstTxStepNaN parse) (Some first) txs
            = Some (foldl firstTxStep first txs)) as Hinner.
  { induction txs as [|tx txs IH]; intros first Htxs; [done|].
    apply Forall_cons in Htxs as [Htx Htxs]. simpl. rewrite <-IH by done.
    f_equal. unfold firstTxStepNaN, firstTxStep. rewrite Htx. simpl.
    by case_bool_decide; case_decide. }
  induction assets as [|a assets IH]; intros first Hall; [done|].
  apply Forall_cons in Hall as [Ha Hall]. simpl.
  rewrite Hinner by done. by apply IH.
Qed.

(** The last rule on two numbers: a finite window of positive length. *)
Lemma last_rule_finite (mn mx : Qc) :
  ∃ mn', (if geNaN (Some mn) (Some mx) then subNaN (Some mx) (Some DAY)
          else Some mn) = Some mn'
    ∧ mn' < mx
    ∧ mn' = if decide (mx ≤ mn) then mx - DAY else mn.
Proof.
  simpl. case_bool_decide as Hle.
  - exists (mx - DAY). rewrite decide_True by done.
    split; [done|]. split; [|done]. rewrite DAY_value. qc_lra.
  - exists mn. rewrite decide_False by done.
    split; [done|]. split; [|done]. by apply Qcnot_le_lt.
Qed.

(** On dates that parse, the window with [NaN] is the window over finite
    timestamps. *)
Lemma timeWindowNaN_parsed (parse : string → option Qc) timeRange
    customStart customEnd now assets :
  Forall (λ a, Forall (λ tx, parse (date tx) = Some (getTime (date tx)))
                      (transactions a)) assets →
  parse customStart = Some (getTime customStart) →
  parse customEnd = Some (getTime customEnd) →
  timeWindowNaN parse timeRange customStart customEnd now assets
  = (Some (timeWindow timeRange customStart customEnd now assets).1,
     Some (timeWindow timeRange customStart customEnd now assets).2).
Proof.
  intros Hall Hs He. unfold timeWindowNaN, timeWindow.
  rewrite (firstTxNaN_parsed parse now assets Hall), Hs, He.
  assert ((if bool_decide (length assets = 0%nat)
              || eqNaN (Some (firstTx now assets)) (Some now)
           then Some (now - DAY) else Some (firstTx now assets))
          = Some (if decide (length assets = 0%nat ∨ firstTx now assets = now)
                  then now - DAY else firstTx now assets)) as ->.
  { simpl. case_bool_decide; case_bool_decide; case_decide; simpl;
      try done; tauto. }
  assert (∀ mn mx : Qc,
            ((if geNaN (Some mn) (Some mx) then subNaN (Some mx) (Some DAY)
              else Some mn), Some mx)
            = (Some (if decide (mx ≤ mn) then mx - DAY else mn), Some mx))
    as Hrule.
  { intros mn mx. destruct (last_rule_finite mn mx) as (mn' & -> & _ & ->).
    done. }
  destruct timeRange; simpl subNaN; cbn [mbind option_bind]; try apply Hrule.
  destruct (truthy customStart); [|apply Hrule].
  destruct (truthy customEnd); apply Hrule.
Qed.

(** X25.  The window has a positive length exactly when the custom bounds it
    reads are dates.  Whatever the dates of the transactions (a transaction whose
    date does not parse is passed over by [t < firstTxTimestamp]), the fixed
    selectors and ALL give two finite bounds with [minTime < maxTime], and so
    does CUSTOM when its bounds parse; a custom start or end that is not a
    date is a [NaN] bound, which the last rule leaves in place, and then
    [minTime < maxTime] is false. *)
Theorem window_positive_when_dates_parse (parse : string → option Qc)
    (timeRange : TimeRange) (customStart customEnd : string) (now : Qc)
    (assets : list Asset) :
  let w := timeWindowNaN parse timeRange customStart customEnd now assets in
  (customDatesParse parse timeRange customStart customEnd →
   ∃ minTime maxTime, w = (Some minTime, Some maxTime) ∧ minTime < maxTime)
  ∧ (timeRange = RCUSTOM → truthy customStart = true →
     parse customStart = None → w.1 = None ∧ ltNaN w.1 w.2 = false)
  ∧ (timeRange = RCUSTOM → truthy customStart = true →
     truthy customEnd = true → parse customEnd = None →
     w.2 = None ∧ ltNaN w.1 w.2 = false).
Proof.
  assert (∀ mn mx : Qc, ∃ minTime maxTime,
            ((if geNaN (Some mn) (Some mx) then subNaN (Some mx) (Some DAY)
              else Some mn), Some mx) = (Some minTime, Some maxTime)
            ∧ minTime < maxTime) as Hrule.
  { intros mn mx. destruct (last_rule_finite mn mx) as (mn' & -> & Hlt & _).
    by exists mn', mx. }
  simpl. split; [|split].
  - intros Hparse. unfold timeWindowNaN.
    destruct (firstTxNaN_finite parse now assets) as [f ->].
    destruct timeRange; try apply Hrule.
    + destruct (bool_decide (length assets = 0%nat) || eqNaN (Some f) (Some now));
        apply Hrule.
    + destruct (truthy customStart) eqn:Hs; [|apply Hrule].
      destruct (Hparse eq_refl Hs) as [[s ->] He].
      destruct (truthy customEnd) eqn:Hce; [|apply Hrule].
      destruct (He eq_refl) as [e ->]. apply Hrule.
  - intros -> Hs Hnan. unfold timeWindowNaN. rewrite Hs, Hnan. done.
  - intros -> Hs He Hnan. unfold timeWindowNaN. rewrite Hs, He, Hnan.
    simpl. by destruct (parse customStart).
Qed.

End Chart.

(** * Concrete runs *)

(** C6.  With the earliest transaction dated 1970-01-01 ([T0 = 0]) the ALL
    range resolves to [minTime = T0]: the bias [minTime * 0.00001] is zero
    there, so [minTime] is not strictly before [T0]. *)
Theorem all_range_epoch_no_bias :
  let assets := [coin "BTC" 150 [buy "1970-01-01" 1 100] None] in
  let now := number 1704067200000 in
  let T0 := sampleClock "1970-01-01" in
  let w := timeWindow sampleClock RALL "" "" now assets in
  earliest sampleClock T0 assets ∧ T0 < now
  ∧ w = (T0, now) ∧ ¬ (w.1 < T0).
Proof.
  intros assets now T0 w.
  assert (w = (T0, now)) as ->.
  { apply injective_projections; apply Qc_is_canon; by vm_compute. }
  repeat split; try done.
  - by repeat constructor.
  - repeat constructor. apply Qcle_refl.
Qed.

(** A first transaction before the epoch: the bias has the wrong sign and the
    window opens 864 ms after that transaction. *)
Example all_range_before_epoch_starts_late :
  let assets := [coin "BTC" 150 [buy "1969-12-31" 1 100] None] in
  let now := number 1704067200000 in
  let T0 := sampleClock "1969-12-31" in
  timeWindow sampleClock RALL "" "" now assets = (T0 + number 864, now)
  ∧ T0 < T0 + number 864.
Proof.
  split; [|done].
  apply injective_projections; apply Qc_is_canon; by vm_compute.
Qed.


(** ** The theorems at sample inputs *)

Lemma ledger_accumulation_witness :
  let txs := [buy "2024-01-01" 2 100; sell "2024-01-11" 1 120] in
  let t := sampleClock "2024-01-06" in
  cumulativeAt sampleClock txs t = (sumQc [number 2], sumQc [number 200])
  ∧ cumulativeAt sampleClock txs t
    = cumulativeAt sampleClock [buy "2024-01-01" 2 100] t
  ∧ cumulativeAt sampleClock txs (number 1000) = (0, 0).
Proof.
  intros txs t.
  destruct (ledger_accumulation sampleClock txs t) as (H1 & H2 & _).
  destruct (ledger_accumulation sampleClock txs (number 1000)) as (_ & _ & H3).
  split; [exact H1|]. split.
  - apply (H2 [buy "2024-01-01" 2 100] (sell "2024-01-11" 1 120) []);
      reflexivity.
  - apply H3. repeat (constructor; [reflexivity|]). constructor.
Defined.

Lemma history_exact_at_samples_witness :
  priceHistory sol = Some sampleHistory ∧ strictlyAscending sampleHistory
  ∧ sampleHistory !! 1%nat = Some (number 1704499200000, number 100)
  ∧ estimatePrice ∅ sol (number 1704499200000) = Some (number 100).
Proof.
  assert (strictlyAscending sampleHistory) as Hasc by (repeat split; reflexivity).
  split; [reflexivity|]. split; [exact Hasc|]. split; [reflexivity|].
  destruct (history_exact_at_samples ∅ sol sampleHistory 1
              (number 1704499200000) (number 100) eq_refl Hasc eq_refl)
    as (_ & H & _).
  exact H.
Defined.

Lemma anchor_fallback_scenario_witness :
  let day0 := sampleClock "2024-01-01" in
  let anchors := [mkAnchor day0 (number 100);
                  mkAnchor (day0 + number 10 * DAY) (number 150)] in
  hasHistory btc = false
  ∧ buildPriceAnchors sampleClock (day0 + number 10 * DAY) [btc]
    = Some {[ "BTC"%string := anchors ]}
  ∧ estimatePrice {[ "BTC"%string := anchors ]} btc (day0 + number 5 * DAY)
    = Some (number 125).
Proof.
  intros day0 anchors.
  destruct (anchor_fallback_scenario sampleClock btc (buy "2024-01-01" 1 100)
              eq_refl eq_refl eq_refl eq_refl eq_refl) as (_ & _ & H3 & H4 & _).
  split; [reflexivity|]. split; [exact H3 | exact H4].
Defined.

Lemma not_owned_contributes_nothing_witness :
  let t := sampleClock "2024-01-06" in
  Forall (λ tx, t < sampleClock (date tx)) (transactions eth)
  ∧ (cumulativeAt sampleClock (transactions eth) t).1 = 0
  ∧ (λ d, (costBasis d, marketValue d)) <$> pointAt sampleClock ∅ [btc; eth] t
    = (λ d, (costBasis d, marketValue d)) <$> pointAt sampleClock ∅ [btc] t.
Proof.
  intros t.
  assert (Forall (λ tx, t < sampleClock (date tx)) (transactions eth)) as Hall
    by (repeat (constructor; [reflexivity|]); constructor).
  destruct (not_owned_contributes_nothing sampleClock ∅ eth t) as [H1 H2].
  split; [exact Hall|]. split; [exact (H1 Hall)|].
  assert ((cumulativeAt sampleClock (transactions eth) t).1 ≤ 0) as Hq
    by (vm_compute; discriminate).
  destruct (H2 Hq) as (_ & H & _).
  exact (H [btc] []).
Defined.

Lemma window_strictly_positive_witness :
  sampleClock "2024-01-01" ≤ sampleClock "2024-01-11"
  ∧ timeWindow sampleClock RCUSTOM "2024-01-11" "2024-01-01"
               (number 1704931200000) [btc]
    = (sampleClock "2024-01-01" - DAY, sampleClock "2024-01-01")
  ∧ ∃ r, chart sampleClock [btc] RCUSTOM "2024-01-11" "2024-01-01"
               (number 1704931200000) = Some r
      ∧ chart_minTime r < chart_maxTime r.
Proof.
  assert (sampleClock "2024-01-01" ≤ sampleClock "2024-01-11") as Hle
    by (vm_compute; discriminate).
  destruct (window_strictly_positive sampleClock RCUSTOM "2024-01-11" "2024-01-01"
              (number 1704931200000) [btc]) as (Hlt & _ & Hrule & Hw).
  split; [exact Hle|]. split; [exact (Hrule eq_refl eq_refl eq_refl Hle)|].
  destruct (chart sampleClock [btc] RCUSTOM "2024-01-11" "2024-01-01"
              (number 1704931200000)) as [r|] eqn:Hr;
    [|vm_compute in Hr; discriminate Hr].
  exists r. split; [reflexivity|].
  destruct (Hw r eq_refl) as [Hmin Hmax]. rewrite Hmin, Hmax. exact Hlt.
Defined.

Lemma baseline_continuity_witness :
  let paths := (buildStack 0 (number 10) (number 385) samplePoints [btc; eth]).1 in
  ∃ lower upper, paths !! 0%nat = Some lower ∧ paths !! 1%nat = Some upper
    ∧ key lower = "BTC"%string ∧ key upper = "ETH"%string
    ∧ bottomPoints upper
      = bottomPointsOf 0 (number 10) (number 385) samplePoints
          (val <$> topPoints lower).
Proof.
  intros paths.
  destruct (paths !! 0%nat) as [lower|] eqn:Hlo;
    [|vm_compute in Hlo; discriminate Hlo].
  destruct (paths !! 1%nat) as [upper|] eqn:Hup;
    [|vm_compute in Hup; discriminate Hup].
  exists lower, upper. split; [reflexivity|]. split; [reflexivity|].
  destruct (baseline_continuity 0 (number 10) (number 385) samplePoints [btc; eth]
              0 lower upper Hlo Hup) as (a & _ & _ & Hb & _).
  split; [|split; [|exact Hb]].
  - vm_compute in Hlo. injection Hlo as <-. reflexivity.
  - vm_compute in Hup. injection Hup as <-. reflexivity.
Defined.

Lemma empty_portfolio_and_totality_witness :
  Forall (λ d, stackValue d sol = 0) samplePoints
  ∧ (buildStack 0 (number 10) (number 385) samplePoints [sol]).1 = [].
Proof.
  assert (Forall (λ d, stackValue d sol = 0) samplePoints) as Hzero
    by (repeat (constructor; [reflexivity|]); constructor).
  destruct (empty_portfolio_and_totality sampleClock) as (_ & Hstep & _).
  split; [exact Hzero|].
  unfold buildStack.
  change (imap pair [sol]) with [(0%nat, sol)]. cbn [foldl].
  by rewrite (Hstep _ _ _ _ _ _ _ Hzero).
Defined.

Lemma point_query_in_bounds_witness :
  samplePoints ≠ []
  ∧ (0 ≤ hoverIndex samplePoints (clampRatio (Q2Qc (7 # 4))) ≤ 3 - 1)%Z
  ∧ hoverIndex samplePoints (clampRatio (Q2Qc (7 # 4))) = 2%Z.
Proof.
  assert (samplePoints ≠ []) as Hne by discriminate.
  destruct (point_query_in_bounds samplePoints (Q2Qc (7 # 4)) Hne)
    as (_ & _ & _ & Hi & _).
  split; [exact Hne|]. split; [exact Hi | reflexivity].
Defined.

Lemma type_is_never_read_witness :
  Forall2 sameButTxTypes [btc; eth] [btcSold; eth]
  ∧ cumulativeAt sampleClock (transactions btc) (number 1704499200000)
    = cumulativeAt sampleClock (transactions btcSold) (number 1704499200000)
  ∧ chart sampleClock [btc; eth] RALL "" "" (number 1704931200000)
    = chart sampleClock [btcSold; eth] RALL "" "" (number 1704931200000).
Proof.
  assert (Forall2 sameButType (transactions btc) (transactions btcSold)) as Htx
    by (repeat constructor).
  assert (Forall2 sameButType (transactions eth) (transactions eth)) as Htx'
    by (repeat constructor).
  assert (Forall2 sameButTxTypes [btc; eth] [btcSold; eth]) as Has.
  { constructor; [|constructor; [|constructor]];
      repeat (split; [reflexivity|]); assumption. }
  destruct (type_is_never_read sampleClock) as (H1 & H2 & _).
  split; [exact Has|]. split; [by apply H1 | by apply H2].
Defined.

(** ** The further properties at sample inputs *)

(** Closed facts about the samples, by evaluation. *)
Ltac sample_facts := repeat first [ compute_done | constructor ].

Lemma custom_window_cases_witness :
  let now := number 1704931200000 in
  timeWindow sampleClock RCUSTOM "2024-01-01" "" now [btc]
  = (sampleClock "2024-01-01", now)
  ∧ timeWindow sampleClock RCUSTOM "2024-01-01" "2024-01-06" now [btc]
    = (sampleClock "2024-01-01", sampleClock "2024-01-06").
Proof.
  intros now.
  destruct (custom_window_cases sampleClock "2024-01-01" "2024-01-06" now [btc])
    as (_ & H2 & H3).
  split; [apply H2; reflexivity | apply H3; reflexivity].
Defined.

Lemma first_transaction_is_minimum_witness :
  let now := sampleClock "2024-01-06" in
  Forall (λ a, Forall (λ tx, now ≤ sampleClock (date tx)) (transactions a)) [eth]
  ∧ 0 ≤ now
  ∧ timeWindow sampleClock RALL "" "" now [eth]
    = ((now - DAY) - (now - DAY) * EPSILON, now).
Proof.
  intros now.
  assert (Forall (λ a, Forall (λ tx, now ≤ sampleClock (date tx)) (transactions a))
                 [eth]) as Hall by sample_facts.
  assert (0 ≤ now) as Hnow by compute_done.
  destruct (first_transaction_is_minimum sampleClock now [eth]) as (_ & _ & H).
  split; [exact Hall|]. split; [exact Hnow|]. exact (H Hall Hnow "" "").
Defined.

Lemma uniqueAnchors_of_sorted_witness :
  StronglySorted (λ x y, time x ≤ time y) sampleAnchors
  ∧ ∃ uniqueAnchors, uniqueAnchorsOf sampleAnchors = Some uniqueAnchors
      ∧ StronglySorted (λ x y, time x < time y) uniqueAnchors
      ∧ head uniqueAnchors = head sampleAnchors.
Proof.
  assert (StronglySorted (λ x y, time x ≤ time y) sampleAnchors) as Hs
    by sample_facts.
  split; [exact Hs|].
  destruct (uniqueAnchors_of_sorted sampleAnchors Hs) as (u & H1 & _ & H3 & H4 & _).
  exists u. split; [exact H1|]. split; [exact H3 | exact H4].
Defined.

Lemma history_estimate_in_range_witness :
  sampleHistory ≠ []
  ∧ Forall (λ p, number 80 ≤ p.2 ≤ number 100) sampleHistory
  ∧ ∃ v, historyPrice sampleHistory (number 1704283200000) = Some v
      ∧ number 80 ≤ v ≤ number 100.
Proof.
  assert (sampleHistory ≠ []) as Hne by discriminate.
  assert (Forall (λ p, number 80 ≤ p.2 ≤ number 100) sampleHistory) as Hall
    by sample_facts.
  split; [exact Hne|]. split; [exact Hall|].
  exact (history_estimate_in_range sampleHistory (number 80) (number 100)
           (number 1704283200000) Hne Hall).
Defined.

Lemma anchor_estimate_cases_witness :
  sampleAnchors ≠ []
  ∧ Forall (λ a, number 100 ≤ price a ≤ number 150) sampleAnchors
  ∧ ∃ v, anchorPrice sampleAnchors (number 999) (number 1704499200000) = Some v
      ∧ number 100 ≤ v ≤ number 150.
Proof.
  assert (sampleAnchors ≠ []) as Hne by discriminate.
  assert (Forall (λ a, number 100 ≤ price a ≤ number 150) sampleAnchors) as Hall
    by sample_facts.
  split; [exact Hne|]. split; [exact Hall|].
  destruct (anchor_estimate_cases sampleAnchors (number 999) (number 100)
              (number 150) (number 1704499200000) Hne)
    as (v & first & last & Hv & _ & _ & _ & Hr).
  exists v. split; [exact Hv | exact (Hr Hall)].
Defined.

Lemma anchor_estimate_exact_at_anchors_witness :
  let anchors := [mkAnchor (number 1704067200000) (number 100);
                  mkAnchor (number 1704931200000) (number 150)] in
  StronglySorted (λ x y, time x < time y) anchors
  ∧ anchorPrice anchors (number 999) (number 1704931200000) = Some (number 150).
Proof.
  intros anchors.
  assert (StronglySorted (λ x y, time x < time y) anchors) as Hs by sample_facts.
  split; [exact Hs|].
  exact (anchor_estimate_exact_at_anchors anchors (number 999) 1
           (mkAnchor (number 1704931200000) (number 150)) Hs eq_refl).
Defined.

Lemma stored_anchors_well_formed_witness :
  ∃ priceAnchors,
    buildPriceAnchors sampleClock (number 1704931200000) [btc; sol]
    = Some priceAnchors
    ∧ is_Some (priceAnchors !! "BTC"%string)
    ∧ ∀ k u, priceAnchors !! k = Some u →
        u ≠ [] ∧ StronglySorted (λ x y, time x < time y) u.
Proof.
  destruct (buildPriceAnchors sampleClock (number 1704931200000) [btc; sol])
    as [pa|] eqn:Hpa; [|vm_compute in Hpa; discriminate Hpa].
  exists pa. split; [reflexivity|].
  destruct (stored_anchors_well_formed sampleClock (number 1704931200000)
              [btc; sol] pa Hpa) as [H1 H2].
  split.
  - apply (H1 btc); [left | reflexivity].
  - intros k u Hk. destruct (H2 k u Hk) as (Hne & Hs & _). split; assumption.
Defined.

Lemma estimate_within_asset_prices_witness :
  let now := number 1704931200000 in
  Forall (pricesWithin (number 80) (number 150)) [btc; sol]
  ∧ ∃ priceAnchors, buildPriceAnchors sampleClock now [btc; sol] = Some priceAnchors
      ∧ (∃ v, estimatePrice priceAnchors btc (number 1704499200000) = Some v
              ∧ number 80 ≤ v ≤ number 150)
      ∧ 0 ≤ valueAt sampleClock priceAnchors (number 1704499200000) btc.
Proof.
  intros now.
  assert (Forall (pricesWithin (number 80) (number 150)) [btc; sol]) as Hall.
  { constructor; [|constructor; [|constructor]];
      (split; [|split]); sample_facts. }
  split; [exact Hall|].
  destruct (buildPriceAnchors sampleClock now [btc; sol])
    as [pa|] eqn:Hpa; [|vm_compute in Hpa; discriminate Hpa].
  exists pa. split; [reflexivity|].
  destruct (estimate_within_asset_prices sampleClock now (number 80) (number 150)
              [btc; sol] pa btc (number 1704499200000) Hpa Hall)
    as [H1 H2]; [left|].
  split; [exact H1|]. apply H2. compute_done.
Defined.

Lemma series_timestamps_witness :
  ∃ r, chart sampleClock [btc; eth] R1W "" "" (number 1704931200000) = Some r
    ∧ length (chartData r) = 151%nat
    ∧ timestamp <$> head (chartData r) = Some (chart_minTime r)
    ∧ timestamp <$> last (chartData r) = Some (chart_maxTime r).
Proof.
  assert (is_Some (chart sampleClock [btc; eth] R1W "" "" (number 1704931200000)))
    as [r Hr] by compute_done.
  exists r. split; [exact Hr|].
  destruct (series_timestamps sampleClock [btc; eth] R1W "" ""
              (number 1704931200000) r Hr) as (H1 & _ & _ & H4 & H5 & _).
  split; [exact H1|]. split; [exact H4 | exact H5].
Defined.

Lemma vertical_scale_headroom_witness :
  0 ≤ number 350
  ∧ number 350 * Q2Qc (11 # 10) ≤ computeMaxY samplePoints
  ∧ height / number 11 ≤ getY (computeMaxY samplePoints) (number 350) ≤ height.
Proof.
  assert (0 ≤ number 350) as H0 by compute_done.
  assert (number 350 * Q2Qc (11 # 10) ≤ computeMaxY samplePoints) as H1
    by compute_done.
  destruct (vertical_scale_headroom samplePoints) as (_ & _ & H).
  split; [exact H0|]. split; [exact H1|]. exact (H (number 350) H0 H1).
Defined.

Lemma hover_edges_and_order_witness :
  samplePoints ≠ [] ∧ 0 < number 200
  ∧ data <$> handleMouseMove samplePoints (number 385) (number 10) (number 200)
               (number 100) (number 5)
    = head samplePoints
  ∧ data <$> handleMouseMove samplePoints (number 385) (number 10) (number 200)
               (number 100) (number 400)
    = last samplePoints
  ∧ (hoverIndexAt samplePoints (number 10) (number 200) (number 50)
     ≤ hoverIndexAt samplePoints (number 10) (number 200) (number 150))%Z.
Proof.
  assert (samplePoints ≠ []) as Hne by discriminate.
  assert (0 < number 200) as Hw by compute_done.
  destruct (hover_edges_and_order samplePoints (number 385) (number 10)
              (number 200) (number 100) Hne Hw) as (H1 & H2 & H3 & _).
  split; [exact Hne|]. split; [exact Hw|].
  split; [apply H1; compute_done|]. split; [apply H2; compute_done|].
  apply H3. compute_done.
Defined.

Lemma point_is_sum_of_assets_witness :
  let t := sampleClock "2024-01-11" in
  NoDup (id <$> [btc; eth])
  ∧ ∃ d, pointAt sampleClock ∅ [btc; eth] t = Some d
      ∧ costBasis d = sumQc (costAt sampleClock t <$> [btc; eth])
      ∧ marketValue d = sumQc (stackValue d <$> [btc; eth]).
Proof.
  intros t.
  assert (NoDup (id <$> [btc; eth])) as Hnd.
  { apply NoDup_cons. split; [|apply NoDup_singleton].
    intros H. apply list_elem_of_singleton in H. discriminate H. }
  split; [exact Hnd|].
  destruct (pointAt sampleClock ∅ [btc; eth] t) as [d|] eqn:Hd;
    [|vm_compute in Hd; discriminate Hd].
  exists d. split; [reflexivity|].
  destruct (point_is_sum_of_assets sampleClock ∅ [btc; eth] t d Hd)
    as (H1 & _ & _ & H4).
  split; [exact H1|]. exact (proj2 (H4 Hnd)).
Defined.

Lemma sampleEntries_consistent : Forall (ledgerConsistent ∘ asset) sampleEntries.
Proof.
  repeat (constructor;
          [split; [|split; [|split]];
           [compute_done | compute_done | sample_facts | intros _; compute_done]|]).
  constructor.
Defined.

Lemma stack_top_is_market_value_witness :
  let now := number 1704931200000 in
  NoDup (id <$> [btc; eth])
  ∧ Forall (pricesWithin 0 (number 3000)) [btc; eth]
  ∧ ∃ r p, chart sampleClock [btc; eth] RALL "" "" now = Some r
      ∧ last (stackedPaths r) = Some p
      ∧ val <$> topPoints p = marketValue <$> chartData r.
Proof.
  intros now.
  assert (NoDup (id <$> [btc; eth])) as Hnd.
  { apply NoDup_cons. split; [|apply NoDup_singleton].
    intros H. apply list_elem_of_singleton in H. discriminate H. }
  assert (Forall (pricesWithin 0 (number 3000)) [btc; eth]) as Hall.
  { constructor; [|constructor; [|constructor]];
      (split; [|split]); sample_facts. }
  split; [exact Hnd|]. split; [exact Hall|].
  assert (is_Some (chart sampleClock [btc; eth] RALL "" "" now
                   ≫= λ r, last (stackedPaths r))) as [p Hp]
    by compute_done.
  destruct (chart sampleClock [btc; eth] RALL "" "" now) as [r|] eqn:Hr;
    [|discriminate Hp].
  exists r, p. split; [reflexivity|]. split; [exact Hp|].
  destruct (stack_top_is_market_value sampleClock [btc; eth] RALL "" "" now
              (number 3000) r Hr Hnd Hall) as [H _].
  exact (H p Hp).
Defined.

Lemma summary_totals_witness :
  let s := summarize sampleEntries in
  0 < summaryCostBasis s
  ∧ totalValue s = number 6150 ∧ summaryCostBasis s = number 5100
  ∧ totalPnLPercent s * summaryCostBasis s = totalPnL s * number 100.
Proof.
  intros s. subst s.
  assert (0 < summaryCostBasis (summarize sampleEntries)) as Hpos by compute_done.
  destruct (summary_totals sampleEntries) as (H1 & H2 & _ & _ & _ & _ & H7).
  split; [exact Hpos|].
  split; [etrans; [exact H1 | compute_done]|]. split; [etrans; [exact H2 | compute_done]|].
  exact (H7 Hpos).
Defined.

Lemma pie_segments_tile_witness :
  let total := totalValue (summarize sampleEntries) in
  let pie := pieChartData total (asset <$> sampleEntries) in
  total ≠ 0 ∧ tiles 0 pie.1 (number 100) ∧ length pie.1 = 2%nat.
Proof.
  intros total pie.
  assert (total ≠ 0) as Hne by compute_done.
  destruct (pie_segments_tile sampleEntries Hne) as (H1 & H2 & _).
  split; [exact Hne|]. split; [exact H1 | exact H2].
Defined.

Lemma pie_sorted_by_value_witness :
  number 6150 ≠ 0
  ∧ StronglySorted (λ a b, value b ≤ value a)
      (pieChartData (number 6150) [btcHeld; ethHeld]).2
  ∧ (ticker ∘ pie_asset <$> (pieChartData (number 6150) [btcHeld; ethHeld]).2)
    = ["ETH"; "BTC"]%string.
Proof.
  assert (number 6150 ≠ 0) as Hne by compute_done.
  destruct (pie_sorted_by_value (number 6150) [btcHeld; ethHeld]) as [H _].
  split; [exact Hne|]. split; [exact (proj2 (H Hne)) | reflexivity].
Defined.

Lemma history_snapshot_cap_witness :
  let now := number 1704931200000 in
  let history := recordHistorySnapshot now sampleEntries [] in
  sumQc ((currentTotalValue ∘ asset) <$> sampleEntries) ≠ 0
  ∧ ∃ snapshot, last history = Some snapshot
      ∧ snapshot_timestamp snapshot = now
      ∧ snapshot_totalValue snapshot
        = sumQc ((currentTotalValue ∘ asset) <$> sampleEntries)
      ∧ length history = 1%nat.
Proof.
  intros now history.
  assert (sumQc ((currentTotalValue ∘ asset) <$> sampleEntries) ≠ 0) as Hne
    by compute_done.
  destruct (history_snapshot_cap now sampleEntries []) as (_ & _ & H).
  destruct (H Hne) as (snapshot & H1 & H2 & H3 & _ & H5).
  split; [exact Hne|]. exists snapshot.
  split; [exact H1|]. split; [exact H2|]. split; [exact H3 | exact H5].
Defined.

Lemma add_asset_keeps_ledgers_witness :
  let assets' :=
    handleAddAsset sampleEntries "BTC" (number 2) (number 120) "2024-01-06"
                   "tx2" "id2" "2024-01-11T00:00:00.000Z" in
  Forall (ledgerConsistent ∘ asset) sampleEntries
  ∧ Forall (ledgerConsistent ∘ asset) assets'
  ∧ length assets' = 2%nat.
Proof.
  intros assets'. subst assets'.
  destruct (add_asset_keeps_ledgers sampleEntries "BTC" (number 2) (number 120)
              "2024-01-06" "tx2" "id2" "2024-01-11T00:00:00.000Z"
              sampleEntries_consistent) as (H1 & H2 & _).
  split; [exact sampleEntries_consistent|]. split; [exact H1|].
  rewrite H2. reflexivity.
Defined.

Lemma add_then_remove_witness :
  Forall (λ a, ticker (asset a) ≠ "SOL"%string) sampleEntries
  ∧ Forall (λ a, id (asset a) ≠ "id3"%string) sampleEntries
  ∧ handleRemoveAsset
      (handleAddAsset sampleEntries "SOL" (number 10) (number 80) "2024-01-01"
                      "tx3" "id3" "2024-01-11T00:00:00.000Z") "id3"
    = sampleEntries.
Proof.
  assert (Forall (λ a, ticker (asset a) ≠ "SOL"%string) sampleEntries) as Ht
    by sample_facts.
  assert (Forall (λ a, id (asset a) ≠ "id3"%string) sampleEntries) as Hi
    by sample_facts.
  split; [exact Ht|]. split; [exact Hi|].
  exact (add_then_remove sampleEntries "SOL" (number 10) (number 80) "2024-01-01"
           "tx3" "id3" "2024-01-11T00:00:00.000Z" Ht Hi).
Defined.

Lemma asset_card_rows_add_up_witness :
  ledgerConsistent ethHeld
  ∧ sumQc (txCurrentVal ethHeld <$> transactions ethHeld)
    = currentTotalValue ethHeld
  ∧ sumQc (txPnL ethHeld <$> transactions ethHeld) = profitLoss ethHeld
  ∧ profitLossPercent ethHeld * totalCostBasis ethHeld
    = profitLoss ethHeld * number 100.
Proof.
  assert (ledgerConsistent ethHeld) as Hc.
  { split; [|split; [|split]];
      [compute_done | compute_done | sample_facts | intros _; compute_done]. }
  destruct (asset_card_rows_add_up ethHeld Hc) as (H1 & H2 & _ & H4).
  split; [exact Hc|]. split; [exact H1|]. split; [exact H2|].
  apply H4. reflexivity.
Defined.

Lemma chart_ends_at_summary_cost_witness :
  let now := number 1704931200000 in
  Forall (ledgerConsistent ∘ asset) sampleEntries
  ∧ Forall (λ e, 0 < asset_quantity (asset e)) sampleEntries
  ∧ ∃ r d, chart sampleClock (asset <$> sampleEntries) RALL "" "" now = Some r
      ∧ Forall (λ e, Forall (λ tx, sampleClock (date tx) ≤ chart_maxTime r)
                            (transactions (asset e))) sampleEntries
      ∧ last (chartData r) = Some d
      ∧ costBasis d = summaryCostBasis (summarize sampleEntries).
Proof.
  intros now.
  assert (Forall (λ e, 0 < asset_quantity (asset e)) sampleEntries) as Hpos
    by sample_facts.
  split; [exact sampleEntries_consistent|]. split; [exact Hpos|].
  assert (is_Some (chart sampleClock (asset <$> sampleEntries) RALL "" "" now))
    as [r Hr] by compute_done.
  assert (chart_maxTime r = now) as Hmax.
  { destruct (chart_inv sampleClock _ _ _ _ _ _ Hr) as (pa & _ & _ & Hw & _).
    change (chart_maxTime r) with ((chart_minTime r, chart_maxTime r).2).
    rewrite Hw. apply (timeWindow_max sampleClock). }
  assert (Forall (λ e, Forall (λ tx, sampleClock (date tx) ≤ now)
                              (transactions (asset e))) sampleEntries) as Hnow
    by sample_facts.
  assert (Forall (λ e, Forall (λ tx, sampleClock (date tx) ≤ chart_maxTime r)
                              (transactions (asset e))) sampleEntries) as Hd
    by (exact (eq_ind_r
                 (λ m, Forall (λ e, Forall (λ tx, sampleClock (date tx) ≤ m)
                                        (transactions (asset e))) sampleEntries)
                 Hnow Hmax)).
  destruct (chart_ends_at_summary_cost sampleClock sampleEntries RALL "" "" now r
              Hr sampleEntries_consistent Hpos Hd) as (d & H1 & _ & H3).
  exists r, d. split; [exact Hr|]. split; [exact Hd|].
  split; [exact H1 | exact H3].
Defined.

Lemma cryptoCompare_history_valid_witness :
  StronglySorted (λ a b : Qc * Qc, a.1 < b.1) sampleRows
  ∧ ∃ h, cryptoCompareHistory sampleRows = Some h
      ∧ length h = 11%nat ∧ strictlyAscending h
      ∧ historyPrice h (number 1704153600 * number 1000) = Some (number 1).
Proof.
  assert (StronglySorted (λ a b : Qc * Qc, a.1 < b.1) sampleRows) as Hs
    by sample_facts.
  split; [exact Hs|].
  destruct (cryptoCompareHistory sampleRows) as [h|] eqn:Hh;
    [|vm_compute in Hh; discriminate Hh].
  exists h.
  destruct (cryptoCompare_history_valid sampleRows h Hh) as (_ & _ & H3 & H4).
  destruct (H4 Hs) as [H5 H6].
  split; [reflexivity|]. split; [by rewrite H3|]. split; [exact H5|].
  apply (H6 0%nat). rewrite H3. reflexivity.
Defined.

Lemma window_positive_when_dates_parse_witness :
  let now := number 1704931200000 in
  customDatesParse sampleParser RCUSTOM "2024-01-01" "2024-01-06"
  ∧ ∃ minTime maxTime,
      timeWindowNaN sampleParser RCUSTOM "2024-01-01" "2024-01-06" now [btc]
      = (Some minTime, Some maxTime)
      ∧ minTime < maxTime.
Proof.
  intros now.
  assert (customDatesParse sampleParser RCUSTOM "2024-01-01" "2024-01-06") as Hp.
  { intros _ _. split; [|intros _]; compute_done. }
  destruct (window_positive_when_dates_parse sampleParser RCUSTOM "2024-01-01"
              "2024-01-06" now [btc]) as [H _].
  split; [exact Hp | exact (H Hp)].
Defined.

(** ** Further runs *)

(** A SELL raises the held quantity like a BUY: after buying 2 and selling 1
    the ledger holds 3. *)
Example sell_adds_to_holdings :
  cumulativeAt sampleClock
    [buy "2024-01-01" 2 100; sell "2024-01-06" 1 120] (number 1704931200000)
  = (sumQc [number 2; number 1], sumQc [number 200; number 120]).
Proof. reflexivity. Qed.

(** Two anchors with one timestamp: a transaction dated at the clock and the
    current price.  The sort keeps the transaction first and the second
    anchor is dropped. *)
Example duplicate_anchor_keeps_first :
  buildPriceAnchors sampleClock (number 1704067200000) [btc]
  = Some {[ "BTC"%string := [mkAnchor (number 1704067200000) (number 100)] ]}.
Proof. reflexivity. Qed.
